(** * Service Discovery Crawler: URL classifier and crawl handler

    A shallow embedding of [competitor-crawler/src/find_other_company_services.js].

    - JavaScript strings are [string]s; the string methods the source calls
      ([startsWith], [endsWith], [includes], [toLowerCase], [split]) are
      written out below.  [toLowerCase] folds the ASCII letters only.
    - A JavaScript exception is an explicit [Thrown] completion, so that
      "never throws" is a statement and not a by-product of typing.
    - The three global registries are finite maps from URL to an array of
      URLs; reading [registry[url].includes] on a missing key throws a
      [TypeError], as it does on [undefined] in the source.
    - The page automation layer and the request scheduler are outside the
      source: a rendered page is a record of what the handler's queries
      return, and the scheduler is a small sequential driver that handles
      one request at a time, each URL once, within the request budget.
      Its request queue rejects a request whose URL is not an [http:] or
      [https:] URL, and every crawler of a process opens the same default
      queue: [findCompanyServices] is the first crawl of a process, which
      starts from an empty queue, [findCompanyServicesAfter] a later one,
      on the queue the crawls before it left. *)

From Stdlib Require Import String Ascii List Bool Arith Lia.
From stdpp Require Import base option list strings gmap.

Local Open Scope string_scope.

(** ** JavaScript string methods *)

Module Js.

(** [s.startsWith(p)] *)
Definition startsWith (s p : string) : bool := String.prefix p s.

(** [s.endsWith(suf)] *)
Fixpoint endsWith (s suf : string) : bool :=
  String.eqb s suf ||
  match s with
  | EmptyString => false
  | String _ s' => endsWith s' suf
  end.

(** [s.includes(sub)] *)
Fixpoint includes (s sub : string) : bool :=
  String.prefix sub s ||
  match s with
  | EmptyString => false
  | String _ s' => includes s' sub
  end.

Definition lowerAscii (c : ascii) : ascii :=
  let n := nat_of_ascii c in
  if ((65 <=? n)%nat && (n <=? 90)%nat) then ascii_of_nat (n + 32) else c.

(** [s.toLowerCase()] on ASCII text *)
Fixpoint toLowerCase (s : string) : string :=
  match s with
  | EmptyString => EmptyString
  | String c s' => String (lowerAscii c) (toLowerCase s')
  end.

(** [s.split(sep)] for a one-character separator *)
Fixpoint split (sep : ascii) (s : string) : list string :=
  match s with
  | EmptyString => [EmptyString]
  | String c s' =>
      if Ascii.eqb c sep then EmptyString :: split sep s'
      else match split sep s' with
           | [] => [String c EmptyString]
           | h :: t => String c h :: t
           end
  end.

(** [Boolean(s)] for a string: the empty string is falsy *)
Definition truthy (s : string) : bool := negb (String.eqb s "").

(** [a || d] where [a] is a possibly missing string property *)
Definition orDefault (a : option string) (d : string) : string :=
  match a with
  | Some s => if truthy s then s else d
  | None => d
  end.

(** [arr.includes(x)] on an array of strings *)
Definition arrayIncludes (arr : list string) (x : string) : bool :=
  existsb (String.eqb x) arr.

(** Exceptions the modelled code can raise. *)
Inductive error : Type :=
| TypeError        (* property read on [undefined] *)
| InvalidUrl       (* [new URL(..)] on unparsable input *)
| AutomationError  (* raised by the page automation layer *)
| ValidationError. (* a request whose URL the request queue rejects *)

Inductive completion (A : Type) : Type :=
| Normal (a : A)
| Thrown (e : error).
Arguments Normal {A} a.
Arguments Thrown {A} e.

Definition bindC {A B} (m : completion A) (f : A -> completion B) : completion B :=
  match m with
  | Normal a => f a
  | Thrown e => Thrown e
  end.

(** [try { body } catch (error) { handler }] *)
Definition tryCatch {A} (body : completion A) (handler : error -> completion A)
  : completion A :=
  match body with
  | Normal a => Normal a
  | Thrown e => handler e
  end.

End Js.

Import Js.

Declare Scope js_scope.
Delimit Scope js_scope with js.
Notation "x <- m ;; k" := (bindC m (fun x => k))
  (at level 100, m at next level, right associativity) : js_scope.
Local Open Scope js_scope.

(** ** Configuration *)

Definition MAX_REQUESTS_PER_CRAWL : nat := 100.

Definition INTERNAL_TOOL_INDICATORS : list string :=
  [ "login"; "dashboard"; "app"; "portal"; "admin"; "console"; "platform";
    "signup"; "sign-up"; "sign_up"; "register"; "account"; "auth";
    "api"; "docs"; "documentation"; "developer"; "dev";
    "tool"; "tools"; "workspace"; "client"; "manage"; "management";
    "analytics"; "report"; "reports"; "monitor"; "monitoring" ].

Definition CLICKABLE_INDICATORS : list string :=
  [ "btn"; "button"; "nav-item"; "menu-item"; "clickable"; "selectable";
    "card"; "link" ].

Definition EXCLUDED_DOMAINS : list string :=
  [ "twitter.com"; "x.com";
    "facebook.com"; "fb.com";
    "instagram.com";
    "linkedin.com";
    "youtube.com";
    "github.com";
    "medium.com";
    "discord.com"; "discord.gg";
    "slack.com";
    "reddit.com";
    "pinterest.com";
    "tiktok.com" ].

(** ** URL classifier *)

(** The fields of a parsed [URL] object that the source reads. *)
Record URL : Type := mkURL {
  protocol : string;
  hostname : string;
  pathname : string
}.

Section Classifier.

(** The platform's [new URL(input)]: [None] when the constructor throws. *)
Variable newURL : string -> option URL.

Definition constructURL (input : string) : completion URL :=
  match newURL input with
  | Some u => Normal u
  | None => Thrown InvalidUrl
  end.

Definition extractDomain (url : string) : completion string :=
  tryCatch
    (parsedUrl <- constructURL url;;
     Normal (hostname parsedUrl))
    (fun _ => Normal "").

(** The test applied to one path segment and one indicator. *)
Definition segmentMatches (segment indicator : string) : bool :=
  String.eqb segment indicator
  || startsWith segment (indicator +:+ "-")
  || endsWith segment ("-" +:+ indicator)
  || includes segment ("-" +:+ indicator +:+ "-").

(** [targetPath.split('/').filter(Boolean)] *)
Definition pathSegments (path : string) : list string :=
  List.filter truthy (split "/" path).

Definition isSameCompany (originalDomain targetUrl : string) : completion bool :=
  tryCatch
    (targetDomain <- extractDomain targetUrl;;
     if String.eqb targetDomain originalDomain then Normal true
     else if endsWith targetDomain ("." +:+ originalDomain) then Normal true
     else
       parsed <- constructURL targetUrl;;
       let targetPath := toLowerCase (pathname parsed) in
       let hasToolIndicator :=
         existsb (fun indicator =>
           existsb (fun segment => segmentMatches segment indicator)
                   (pathSegments targetPath))
           INTERNAL_TOOL_INDICATORS in
       Normal hasToolIndicator)
    (fun _ => Normal false).

Definition shouldExcludeUrl (url : string) : completion bool :=
  if startsWith url "mailto:" || startsWith url "tel:" then Normal true
  else
    tryCatch
      (domain <- extractDomain url;;
       Normal (existsb (fun excludedDomain =>
               String.eqb domain excludedDomain
               || endsWith domain ("." +:+ excludedDomain))
             EXCLUDED_DOMAINS))
      (fun _ => Normal false).

Definition hasToolIndicator (segments : list string) : bool :=
  existsb (fun segment =>
    existsb (fun indicator => segmentMatches segment indicator)
            INTERNAL_TOOL_INDICATORS)
    segments.

Definition isPotentialDifferentService (originalUrl targetUrl : string)
  : completion bool :=
  tryCatch
    (excluded <- shouldExcludeUrl targetUrl;;
     if excluded then Normal false
     else
       originalParsed <- constructURL originalUrl;;
       targetParsed <- constructURL targetUrl;;
       if negb (String.eqb (hostname originalParsed) (hostname targetParsed))
       then Normal true
       else
         let targetPath := toLowerCase (pathname targetParsed) in
         if negb (hasToolIndicator (pathSegments targetPath)) then Normal false
         else
           let originalPath := toLowerCase (pathname originalParsed) in
           if startsWith targetPath originalPath
              && negb (String.eqb targetPath originalPath)
           then Normal false
           else Normal true)
    (fun _ => Normal false).

End Classifier.

(** ** A model of the platform's URL parser

    [new URL(input)] is a platform built-in.  The theorems about the
    classifier hold for every parser; this one is used to evaluate the
    classifier on concrete URLs.  It covers [scheme://userinfo@host:port/path?query#fragment]
    and opaque [scheme:rest] inputs.  Host names of the special schemes are
    lower-cased and their empty path is ["/"], as the URL standard has it;
    dot-segment removal, percent-encoding, IDNA, IPv6 literals and
    whitespace stripping are not modelled, and [file:] is treated as an
    ordinary scheme. *)

Module Whatwg.

Definition inRange (lo hi : nat) (c : ascii) : bool :=
  let n := nat_of_ascii c in ((lo <=? n)%nat && (n <=? hi)%nat).

Definition isAlpha (c : ascii) : bool := inRange 65 90 c || inRange 97 122 c.

Definition isSchemeChar (c : ascii) : bool :=
  isAlpha c || inRange 48 57 c
  || Ascii.eqb c "+" || Ascii.eqb c "-" || Ascii.eqb c ".".

Fixpoint span (p : ascii -> bool) (s : string) : string * string :=
  match s with
  | EmptyString => (EmptyString, EmptyString)
  | String c s' =>
      if p c then let '(a, b) := span p s' in (String c a, b)
      else (EmptyString, s)
  end.

Fixpoint dropWhile (p : ascii -> bool) (s : string) : string :=
  match s with
  | EmptyString => EmptyString
  | String c s' => if p c then dropWhile p s' else s
  end.

Fixpoint occurs (c : ascii) (s : string) : bool :=
  match s with
  | EmptyString => false
  | String d s' => Ascii.eqb c d || occurs c s'
  end.

(** The part of [s] after the last [sep]; all of [s] when there is none. *)
Fixpoint afterLast (sep : ascii) (s : string) : string :=
  match s with
  | EmptyString => EmptyString
  | String c s' =>
      if occurs sep s' then afterLast sep s'
      else if Ascii.eqb c sep then s' else s
  end.

Definition specialSchemes : list string := ["http"; "https"; "ftp"; "ws"; "wss"].

Definition isSpecial (scheme : string) : bool :=
  existsb (String.eqb scheme) specialSchemes.

Definition isSlash (c : ascii) : bool := Ascii.eqb c "/" || Ascii.eqb c "\".

Definition endsAuthority (c : ascii) : bool :=
  Ascii.eqb c "/" || Ascii.eqb c "?" || Ascii.eqb c "#".

Definition endsPath (c : ascii) : bool := Ascii.eqb c "?" || Ascii.eqb c "#".

Definition parseHierarchical (scheme : string) (special : bool) (afterSlashes : string)
  : option URL :=
  let '(authority, tail) := span (fun c => negb (endsAuthority c)) afterSlashes in
  let hostport := afterLast "@" authority in
  let '(host, _) := span (fun c => negb (Ascii.eqb c ":")) hostport in
  let '(path, _) := span (fun c => negb (endsPath c)) tail in
  if special && String.eqb host "" then None
  else Some {| protocol := scheme +:+ ":";
               hostname := if special then toLowerCase host else host;
               pathname := if special && String.eqb path "" then "/" else path |}.

Definition parse (input : string) : option URL :=
  let '(rawScheme, rest) := span isSchemeChar input in
  match rawScheme, rest with
  | String c0 _, String colon body =>
      if isAlpha c0 && Ascii.eqb colon ":" then
        let scheme := toLowerCase rawScheme in
        if isSpecial scheme then
          parseHierarchical scheme true (dropWhile isSlash body)
        else if startsWith body "//" then
          parseHierarchical scheme false (dropWhile isSlash body)
        else
          let '(path, _) := span (fun c => negb (endsPath c)) body in
          Some {| protocol := scheme +:+ ":"; hostname := ""; pathname := path |}
      else None
  | _, _ => None
  end.

End Whatwg.

(** ** Crawl data *)

Module Company.
Record t : Type := mk { name : string; url : string }.
End Company.

(** [request.userData]: every property may be missing. *)
Record UserData : Type := mkUserData {
  label : option string;
  parentUrl : option string;
  originalDomain : option string;
  companyName : option string
}.

Module Request.
Record t : Type := mk { url : string; userData : UserData }.
End Request.

(** *** What the handler sees of a rendered page *)

(** What activating an element leads to, as the handler observes it. *)
Inductive ClickOutcome : Type :=
| ClickThrows                    (* the automation layer raises inside the [try] block *)
| NewPage (newUrl : string)      (* a new browsing context appeared; [newPage.url()] *)
| SamePage (currentUrl : string) (* none appeared; [page.url()] after the settle wait *).

Record Element : Type := mkElement {
  hrefAttribute : option string;   (* [el.getAttribute('href')] *)
  clicked : ClickOutcome
}.

Inductive LinkType : Type :=
| href | onclick | angular_click | jsaction | react_role
| framework_component | button_element.

Definition LinkType_eqb (a b : LinkType) : bool :=
  match a, b with
  | href, href | onclick, onclick | angular_click, angular_click
  | jsaction, jsaction | react_role, react_role
  | framework_component, framework_component
  | button_element, button_element => true
  | _, _ => false
  end.

(** An entry of [potentialLinks]; its [text] is only logged and is left out. *)
Record PotentialLink : Type := mkLink {
  link_url : option string;
  link_type : LinkType;
  elementHandle : Element
}.

Record Page : Type := mkPage {
  hrefElements : list Element;               (* [page.$$('[href]')] *)
  onclickElements : list Element;            (* [page.$$('[onclick]')] *)
  angularElements : list Element;            (* [ng-click], [(click)] *)
  jsactionElements : list Element;           (* [page.$$('[jsaction]')] *)
  reactElements : list Element;              (* [role=button], [role=link] *)
  classElements : string -> list Element;    (* [class*=indicator] *)
  idElements : string -> list Element;       (* [id*=indicator] *)
  buttonElements : list Element;             (* [page.$$('button')] *)
  anchorHrefs : list string;                 (* [link.href] of every [a[href]] *)
  locationHostname : string;                 (* [window.location.hostname] *)
  linkCandidates : list string;              (* URLs [enqueueLinks] hands to the transform *)
  strategyAccepts : string -> bool           (* the [same-hostname] strategy's verdict *)
}.

(** *** The shared registries and the request queue *)

Record Store : Type := mkStore {
  potentialDifferentServices : gmap string (list string);
  allExploredUrls : gmap string (list string);
  startUrlChildren : gmap string (list string);
  addedRequests : list Request.t   (* every request passed to the crawler, in order *)
}.

Inductive Registry : Type :=
| PotentialDifferentServices | AllExploredUrls | StartUrlChildren.

Definition getRegistry (reg : Registry) (st : Store) : gmap string (list string) :=
  match reg with
  | PotentialDifferentServices => potentialDifferentServices st
  | AllExploredUrls => allExploredUrls st
  | StartUrlChildren => startUrlChildren st
  end.

Definition setRegistry (reg : Registry) (m : gmap string (list string)) (st : Store)
  : Store :=
  match reg with
  | PotentialDifferentServices =>
      mkStore m (allExploredUrls st) (startUrlChildren st) (addedRequests st)
  | AllExploredUrls =>
      mkStore (potentialDifferentServices st) m (startUrlChildren st) (addedRequests st)
  | StartUrlChildren =>
      mkStore (potentialDifferentServices st) (allExploredUrls st) m (addedRequests st)
  end.

(** *** Stateful code that may throw

    A JavaScript exception unwinds the control flow but leaves the writes
    made so far in place, so a computation returns the store together with
    its completion. *)

Definition Handler (A : Type) : Type := Store -> Store * completion A.

Definition ret {A} (a : A) : Handler A := fun st => (st, Normal a).

Definition throw {A} (e : error) : Handler A := fun st => (st, Thrown e).

Definition bindH {A B} (m : Handler A) (f : A -> Handler B) : Handler B :=
  fun st =>
    match m st with
    | (st', Normal a) => f a st'
    | (st', Thrown e) => (st', Thrown e)
    end.

Declare Scope handler_scope.
Delimit Scope handler_scope with handler.
Notation "x <-- m ;; k" := (bindH m (fun x => k))
  (at level 100, m at next level, right associativity) : handler_scope.
Notation "m ;;; k" := (bindH m (fun _ => k))
  (at level 100, right associativity) : handler_scope.
Local Open Scope handler_scope.

(** [try { body } catch (e) { handler }] around stateful code *)
Definition tryCatchH {A} (body : Handler A) (handler : error -> Handler A) : Handler A :=
  fun st =>
    match body st with
    | (st', Normal a) => (st', Normal a)
    | (st', Thrown e) => handler e st'
    end.

(** A pure computation that may throw, run inside the handler. *)
Definition liftC {A} (c : completion A) : Handler A := fun st => (st, c).

(** [for (const x of l) { body }] *)
Fixpoint forEach {A} (l : list A) (body : A -> Handler unit) : Handler unit :=
  match l with
  | [] => ret tt
  | x :: l' => body x ;;; forEach l' body
  end.

(** [l.map(f).filter(r => !!r)] with a callback that has effects: the
    results that are not falsy, in order. *)
Fixpoint mapFilter {A B} (l : list A) (f : A -> Handler (option B))
  : Handler (list B) :=
  match l with
  | [] => ret []
  | x :: l' =>
      result <-- f x ;;
      rest <-- mapFilter l' f ;;
      ret (match result with
           | Some b => b :: rest
           | None => rest
           end)
  end.

(** Truthiness of [registry[key]]: an array, even an empty one, is truthy. *)
Definition isDefined (reg : Registry) (key : string) : Handler bool :=
  fun st => (st, Normal (bool_decide (is_Some (getRegistry reg st !! key)))).

(** [registry[key] = []] *)
Definition initEntry (reg : Registry) (key : string) : Handler unit :=
  fun st => (setRegistry reg (<[key := []]> (getRegistry reg st)) st, Normal tt).

(** [registry[key].includes(x)] *)
Definition entryIncludes (reg : Registry) (key x : string) : Handler bool :=
  fun st =>
    match getRegistry reg st !! key with
    | Some arr => (st, Normal (arrayIncludes arr x))
    | None => (st, Thrown TypeError)
    end.

(** [registry[key].push(x)] *)
Definition entryPush (reg : Registry) (key x : string) : Handler unit :=
  fun st =>
    match getRegistry reg st !! key with
    | Some arr =>
        (setRegistry reg (<[key := (arr ++ [x])%list]> (getRegistry reg st)) st, Normal tt)
    | None => (st, Thrown TypeError)
    end.

(** [if (!registry[key].includes(x)) { registry[key].push(x); }] *)
Definition pushIfAbsent (reg : Registry) (key x : string) : Handler unit :=
  present <-- entryIncludes reg key x ;;
  if present then ret tt else entryPush reg key x.

(** The request queue stores a request. *)
Definition enqueue (r : Request.t) : Handler unit :=
  fun st =>
    (mkStore (potentialDifferentServices st) (allExploredUrls st)
             (startUrlChildren st) (addedRequests st ++ [r])%list,
     Normal tt).

Module Result.
Record t : Type := mk {
  url : string;
  potentialDifferentServices : list string;
  allExploredUrls : list string
}.
End Result.

(** ** The crawler *)

Section Crawler.

Variable newURL : string -> option URL.

(** *** The request queue

    The queue validates the requests it is given: a URL must parse and its
    protocol must be [http:] or [https:].  A batch is validated as a whole
    before any of it is stored, and a rejected batch makes the call throw. *)

Definition isHttpUrl (url : string) : bool :=
  match newURL url with
  | Some u => String.eqb (protocol u) "http:" || String.eqb (protocol u) "https:"
  | None => false
  end.

(** [crawler.addRequests(requests)] *)
Definition addRequests (requests : list Request.t) : Handler unit :=
  if forallb (fun r => isHttpUrl (Request.url r)) requests
  then forEach requests enqueue
  else throw ValidationError.

(** *** Collecting the clickable elements of the page *)

Definition plainLink (ty : LinkType) (el : Element) : PotentialLink :=
  mkLink None ty el.

(** [href && !href.startsWith('#') && !href.startsWith('javascript:')
     && !href.startsWith('mailto:')] *)
Definition navigableHref (h : string) : bool :=
  truthy h && negb (startsWith h "#") && negb (startsWith h "javascript:")
  && negb (startsWith h "mailto:").

Definition hrefLinks (els : list Element) : list PotentialLink :=
  flat_map (fun el =>
    match hrefAttribute el with
    | Some h => if navigableHref h then [mkLink (Some h) href el] else []
    | None => []
    end) els.

(** [if (!hasHref)] *)
Definition lacksHref (el : Element) : bool :=
  match hrefAttribute el with
  | Some h => negb (truthy h)
  | None => true
  end.

Definition frameworkLinks (page : Page) : list PotentialLink :=
  flat_map (fun indicator =>
    (map (plainLink framework_component)
         (List.filter lacksHref (classElements page indicator))
     ++ map (plainLink framework_component)
            (List.filter lacksHref (idElements page indicator)))%list)
    CLICKABLE_INDICATORS.

Definition potentialLinks (page : Page) : list PotentialLink :=
  (hrefLinks (hrefElements page)
   ++ map (plainLink onclick) (onclickElements page)
   ++ map (plainLink angular_click) (angularElements page)
   ++ map (plainLink jsaction) (jsactionElements page)
   ++ map (plainLink react_role) (reactElements page)
   ++ frameworkLinks page
   ++ map (plainLink button_element) (buttonElements page))%list.

(** *** Probing one clickable element *)

(** The [userData] given to every request the handler creates. *)
Definition childData (url originalDomain companyName : string) : UserData :=
  mkUserData (Some "child") (Some url) (Some originalDomain) (Some companyName).

Definition childRequest (url originalDomain companyName target : string)
  : Request.t :=
  Request.mk target (childData url originalDomain companyName).

Definition probe (url label originalDomain companyName : string)
    (link : PotentialLink) : Handler unit :=
  if negb (LinkType_eqb (link_type link) href) then
    tryCatchH
      (match clicked (elementHandle link) with
       | ClickThrows => throw AutomationError
       | NewPage newUrl =>
           if String.eqb newUrl url then ret tt
           else
             pushIfAbsent AllExploredUrls url newUrl ;;;
             if String.eqb label "start" then
               pushIfAbsent PotentialDifferentServices url newUrl ;;;
               addRequests [childRequest url originalDomain companyName newUrl] ;;;
               pushIfAbsent StartUrlChildren url newUrl
             else ret tt
       | SamePage currentUrl =>
           if negb (String.eqb currentUrl url) then
             pushIfAbsent AllExploredUrls url currentUrl ;;;
             if String.eqb label "start" then
               pushIfAbsent PotentialDifferentServices url currentUrl
             else ret tt
           else ret tt
       end)
      (fun _ => ret tt)
  else ret tt.

(** *** Cross-domain anchors *)

Definition crossDomainLinks (page : Page) : list string :=
  List.filter (fun h =>
    truthy h && includes h "://" && negb (includes h (locationHostname page)))
    (anchorHrefs page).

Definition containsCompanyName (companyName targetUrl : string) : bool :=
  includes (toLowerCase targetUrl) companyName.

Definition processCrossDomain (url originalDomain companyName : string)
    (targetUrl : string) : Handler unit :=
  excluded <-- liftC (shouldExcludeUrl newURL targetUrl) ;;
  if excluded then ret tt
  else if containsCompanyName companyName targetUrl then
    pushIfAbsent AllExploredUrls url targetUrl ;;;
    pushIfAbsent PotentialDifferentServices url targetUrl ;;;
    addRequests [childRequest url originalDomain companyName targetUrl] ;;;
    pushIfAbsent StartUrlChildren url targetUrl
  else ret tt.

(** *** Same-hostname links *)

Definition transformRequestFunction (url originalDomain companyName : string)
    (targetUrl : string) : Handler (option Request.t) :=
  excluded <-- liftC (shouldExcludeUrl newURL targetUrl) ;;
  if excluded || String.eqb targetUrl url then ret None
  else
    pushIfAbsent AllExploredUrls url targetUrl ;;;
    isDifferentService <-- liftC (isPotentialDifferentService newURL url targetUrl) ;;
    urlDomain <-- liftC (extractDomain newURL url) ;;
    targetDomain <-- liftC (extractDomain newURL targetUrl) ;;
    let isDifferentSubdomain := negb (String.eqb urlDomain targetDomain) in
    if isDifferentService || isDifferentSubdomain then
      pushIfAbsent PotentialDifferentServices url targetUrl ;;;
      ret (Some (childRequest url originalDomain companyName targetUrl))
    else ret None.

(** [enqueueLinks({ strategy: 'same-hostname', transformRequestFunction })]:
    the transform runs on every candidate first; the requests it returned
    that the strategy accepts are then added to the queue together.  Were
    the strategy to let through a URL that is not [http:] or [https:], the
    queue would reject the batch. *)
Definition enqueueLinks (page : Page)
    (transform : string -> Handler (option Request.t)) : Handler unit :=
  transformed <-- mapFilter (linkCandidates page) transform ;;
  addRequests (List.filter (fun req => strategyAccepts page (Request.url req))
                           transformed).

(** *** The request handler *)

Definition labelOf (request : Request.t) : string :=
  orDefault (label (Request.userData request)) "start".

Definition companyNameOf (request : Request.t) : string :=
  orDefault (companyName (Request.userData request)) "".

(** [request.userData.originalDomain || extractDomain(url)] *)
Definition originalDomainOf (request : Request.t) : Handler string :=
  match originalDomain (Request.userData request) with
  | Some d => if truthy d then ret d
              else liftC (extractDomain newURL (Request.url request))
  | None => liftC (extractDomain newURL (Request.url request))
  end.

(** [if (!allExploredUrls[url]) { allExploredUrls[url] = []; }] *)
Definition ensureExplored (url : string) : Handler unit :=
  explored <-- isDefined AllExploredUrls url ;;
  if explored then ret tt else initEntry AllExploredUrls url.

(** [if (label === 'child' && request.userData.parentUrl) { ... }] *)
Definition trackChild (request : Request.t) : Handler unit :=
  match parentUrl (Request.userData request) with
  | Some parent =>
      if String.eqb (labelOf request) "child" && truthy parent then
        known <-- isDefined StartUrlChildren parent ;;
        if known then pushIfAbsent StartUrlChildren parent (Request.url request)
        else ret tt
      else ret tt
  | None => ret tt
  end.

Definition requestHandler (request : Request.t) (page : Page) : Handler unit :=
  let url := Request.url request in
  let label := labelOf request in
  originalDomain <-- originalDomainOf request ;;
  let companyName := companyNameOf request in
  ensureExplored url ;;;
  trackChild request ;;;
  forEach (potentialLinks page) (probe url label originalDomain companyName) ;;;
  forEach (crossDomainLinks page)
          (processCrossDomain url originalDomain companyName) ;;;
  if String.eqb label "start" then
    enqueueLinks page (transformRequestFunction url originalDomain companyName)
  else ret tt.

(** *** The scheduler

    The crawler runs one request at a time ([maxConcurrency: 1]), never
    handles the same URL twice, stops after [MAX_REQUESTS_PER_CRAWL]
    requests and re-runs a request whose handler threw at most
    [maxRequestRetries] times; [failedRequestHandler] only logs.  The web
    is a function from a URL to the page it renders, [None] when the
    navigation fails. *)

Definition maxRequestRetries : nat := 2.

Fixpoint attempt (retries : nat) (request : Request.t) (page : Page)
  : Handler unit :=
  tryCatchH (requestHandler request page)
    (fun _ =>
       match retries with
       | O => ret tt
       | S n => attempt n request page
       end).

Definition processRequest (web : string -> option Page) (request : Request.t)
  : Handler unit :=
  match web (Request.url request) with
  | Some page => attempt maxRequestRetries request page
  | None => ret tt
  end.

Definition nextRequest (handled : list string) (st : Store) : option Request.t :=
  List.find (fun r => negb (arrayIncludes handled (Request.url r)))
            (addedRequests st).

(** Returns the requests handled, in order. *)
Fixpoint crawlLoop (web : string -> option Page) (budget : nat)
    (handled : list string) : Handler (list Request.t) :=
  match budget with
  | O => ret []
  | S budget' =>
      fun st =>
        match nextRequest handled st with
        | None => (st, Normal [])
        | Some request =>
            (processRequest web request ;;;
             rest <-- crawlLoop web budget' (Request.url request :: handled) ;;
             ret (request :: rest)) st
        end
  end.

Definition crawlerRun (web : string -> option Page)
    (initialRequests : list Request.t) : Handler (list Request.t) :=
  addRequests initialRequests ;;;
  crawlLoop web MAX_REQUESTS_PER_CRAWL [].

(** *** [findCompanyServices] *)

Definition emptyStore : Store := mkStore ∅ ∅ ∅ [].

Definition initRegistries (companies : list Company.t) : Handler unit :=
  forEach companies (fun company =>
    initEntry StartUrlChildren (Company.url company) ;;;
    initEntry PotentialDifferentServices (Company.url company)).

Fixpoint initialRequests (companies : list Company.t)
  : Handler (list Request.t) :=
  match companies with
  | [] => ret []
  | company :: rest =>
      domain <-- liftC (extractDomain newURL (Company.url company)) ;;
      requests <-- initialRequests rest ;;
      ret (Request.mk (Company.url company)
             (mkUserData (Some "start") None (Some domain)
                         (Some (toLowerCase (Company.name company))))
           :: requests)
  end.

Definition orEmpty (entry : option (list string)) : list string :=
  match entry with
  | Some arr => arr
  | None => []
  end.

Definition results (companies : list Company.t) (st : Store) : list Result.t :=
  map (fun company =>
    let startUrl := Company.url company in
    let filteredServices :=
      List.filter (fun serviceUrl => negb (String.eqb serviceUrl startUrl))
                  (orEmpty (potentialDifferentServices st !! startUrl)) in
    Result.mk startUrl filteredServices
              (orEmpty (allExploredUrls st !! startUrl)))
    companies.

(** The run, from the reset of the globals to the returned records;
    the first component is the list of requests the crawler handled. *)
Definition findCompanyServices (web : string -> option Page)
    (companies : list Company.t) : Handler (list Request.t * list Result.t) :=
  fun _ =>
    (initRegistries companies ;;;
     requests <-- initialRequests companies ;;
     handled <-- crawlerRun web requests ;;
     fun st => (st, Normal (handled, results companies st))) emptyStore.

End Crawler.

(** ** [loadAndProcessCompanies] *)

(** An entry of [data.companies] whose [name] and [website] are strings;
    [status] may be missing. *)
Module Entry.
Record t : Type := mk { name : string; website : string; status : option string }.
End Entry.

Section Loader.

Variable newURL : string -> option URL.
Variable web : string -> option Page.

(** [company.status !== 'Inactive'] *)
Definition isActive (entry : Entry.t) : bool :=
  match Entry.status entry with
  | Some s => negb (String.eqb s "Inactive")
  | None => true
  end.

(** [data.companies.filter(..).map(company => ({ name, url: company.website }))] *)
Definition activeCompanies (entries : list Entry.t) : list Company.t :=
  map (fun entry => Company.mk (Entry.name entry) (Entry.website entry))
      (List.filter isActive entries).

(** [companyResult[0]]: [undefined] when the array is empty. *)
Definition firstRecord (records : list Result.t) : option Result.t :=
  match records with
  | [] => None
  | record :: _ => Some record
  end.

(** A call of [findCompanyServices] later in the same process.  The three
    globals are reset, but the new [PlaywrightCrawler] opens the same default
    request queue as the crawlers before it: the queue still holds their
    requests, the URLs in [handledBefore] are marked as handled, and they
    count towards [maxRequestsPerCrawl]. *)
Definition crawlerRunAfter (handledBefore : list string)
    (initialRequests : list Request.t) : Handler (list Request.t) :=
  addRequests newURL initialRequests ;;;
  crawlLoop newURL web (MAX_REQUESTS_PER_CRAWL - List.length handledBefore)
            handledBefore.

Definition findCompanyServicesAfter (handledBefore : list string)
    (companies : list Company.t) : Handler (list Request.t * list Result.t) :=
  fun queue =>
    (initRegistries companies ;;;
     requests <-- initialRequests newURL companies ;;
     handled <-- crawlerRunAfter handledBefore requests ;;
     fun st => (st, Normal (handled, results companies st)))
    (mkStore ∅ ∅ ∅ (addedRequests queue)).

(** The loop over [activeCompanies]: one crawl per company, each from reset
    globals and on the queue the crawls before it left, its first record
    pushed onto [results].  The handled URLs are kept latest first, as
    [crawlLoop] keeps them. *)
Fixpoint crawlEach (companies : list Company.t) (handledBefore : list string)
    (queue : Store) : completion (list (option Result.t)) :=
  match companies with
  | [] => Normal []
  | company :: rest =>
      let (st, outcome) := findCompanyServicesAfter handledBefore [company] queue in
      companyResult <- outcome ;;
      results <- crawlEach rest
                   (rev (map Request.url (fst companyResult)) ++ handledBefore)%list
                   st ;;
      Normal (firstRecord (snd companyResult) :: results)
  end.

(** [data] stands for [JSON.parse(await fs.readFile(jsonFilePath)).companies],
    which throws when the file is unreadable or is not of that shape; the
    [catch] logs and rethrows. *)
Definition loadAndProcessCompanies (data : completion (list Entry.t))
  : completion (list (option Result.t)) :=
  tryCatch
    (entries <- data ;;
     crawlEach (activeCompanies entries) [] emptyStore)
    (fun error => Thrown error).

End Loader.

(** ** What the specification says of exclusion *)

(** [host] is [entry] preceded by at least a dot: the textual reading of
    "is a subdomain of". *)
Definition isSubdomainOf (host entry : string) : Prop :=
  exists sub, host = sub +:+ "." +:+ entry.

Definition hasScheme (scheme url : string) : Prop :=
  exists rest, url = scheme +:+ rest.

(** The exclusion rule in the specification's words: a [mailto:] or [tel:]
    URL, or a URL whose hostname is, or is a subdomain of, an entry of the
    deny-list. *)
Definition excludedBySpec (newURL : string -> option URL) (url : string) : Prop :=
  hasScheme "mailto:" url \/ hasScheme "tel:" url \/
  exists u entry,
    newURL url = Some u /\ In entry EXCLUDED_DOMAINS /\
    (hostname u = entry \/ isSubdomainOf (hostname u) entry).

(** ** What the handler is said to record *)

(** The URL the prober resolves for a clickable element, if any. *)
Definition resolvedUrl (link : PotentialLink) : option string :=
  if LinkType_eqb (link_type link) href then None
  else match clicked (elementHandle link) with
       | NewPage newUrl => Some newUrl
       | SamePage currentUrl => Some currentUrl
       | ClickThrows => None
       end.

(** Every URL the handler comes across on a page: resolved by the prober,
    carried by an anchor, or handed to the link transform. *)
Definition observed (page : Page) (u : string) : Prop :=
  (exists link, link ∈ potentialLinks page /\ resolvedUrl link = Some u)
  \/ u ∈ anchorHrefs page
  \/ u ∈ linkCandidates page.

(** A request is rooted at a seed when it is the seed's own request or was
    created while handling it. *)
Definition rootedAt (seed : string) (request : Request.t) : Prop :=
  Request.url request = seed
  \/ parentUrl (Request.userData request) = Some seed.

(** Every cross-domain anchor of the page that the handler goes on to
    enqueue is one the request queue accepts. *)
Definition httpAnchors (newURL : string -> option URL) (request : Request.t)
    (page : Page) : Prop :=
  forall target,
    target ∈ crossDomainLinks page ->
    shouldExcludeUrl newURL target = Normal false ->
    containsCompanyName (companyNameOf request) target = true ->
    isHttpUrl newURL target = true.

(** The URLs the handler writes into [allExploredUrls[url]] for a
    request: those the prober resolves and, when no rejected request cuts
    the cross-domain loop short, the anchors that loop accepts and the
    link candidates of a [start] request. *)
Definition recordedWhileHandling (newURL : string -> option URL)
    (request : Request.t) (page : Page) (u : string) : Prop :=
  (exists link, link ∈ potentialLinks page /\ resolvedUrl link = Some u
                /\ u <> Request.url request)
  \/ (httpAnchors newURL request page
      /\ u ∈ crossDomainLinks page
      /\ shouldExcludeUrl newURL u = Normal false
      /\ containsCompanyName (companyNameOf request) u = true)
  \/ (httpAnchors newURL request page
      /\ labelOf request = "start"
      /\ u ∈ linkCandidates page
      /\ shouldExcludeUrl newURL u = Normal false
      /\ u <> Request.url request).

(** ** Facts about a store that no step of the crawler undoes *)

Inductive Fact : Type :=
| Recorded (reg : Registry) (key x : string)  (* [x] is in [registry[key]] *)
| Defined (reg : Registry) (key : string)     (* [registry[key]] is an array *)
| Enqueued (r : Request.t).                   (* [r] was passed to the crawler *)

Definition holds (f : Fact) (st : Store) : Prop :=
  match f with
  | Recorded reg key x =>
      exists arr, getRegistry reg st !! key = Some arr /\ x ∈ arr
  | Defined reg key => is_Some (getRegistry reg st !! key)
  | Enqueued r => r ∈ addedRequests st
  end.

Definition extends (st st' : Store) : Prop :=
  forall f, holds f st -> holds f st'.

Definition stable (P : Store -> Prop) : Prop :=
  forall st st', extends st st' -> P st -> P st'.

(** The per-seed registries of [url] were initialised. *)
Definition registered (url : string) (st : Store) : Prop :=
  holds (Defined PotentialDifferentServices url) st
  /\ holds (Defined StartUrlChildren url) st.

(** Every run of [m] relates the store before to the store after by [R],
    whether it throws or not. *)
Definition respects {A} (R : Store -> Store -> Prop) (m : Handler A) : Prop :=
  forall st, R st (fst (m st)).

(** From a store satisfying [P], [m] completes without throwing and
    establishes [Q]. *)
Definition triple {A} (P : Store -> Prop) (m : Handler A)
    (Q : A -> Store -> Prop) : Prop :=
  forall st, P st -> exists a, snd (m st) = Normal a /\ Q a (fst (m st)).

(** Entries of [allExploredUrls] other than [url]'s are left as they were. *)
Definition sameExploredExcept (url : string) (st st' : Store) : Prop :=
  forall key, key <> url -> allExploredUrls st' !! key = allExploredUrls st !! key.

(** All three entries of [url] exist. *)
Definition ready (url : string) (st : Store) : Prop :=
  holds (Defined AllExploredUrls url) st /\ registered url st.

(** The value of [request.userData.originalDomain || extractDomain(url)]. *)
Definition inheritedDomain (newURL : string -> option URL) (request : Request.t)
  : string :=
  let fromUrl :=
    match newURL (Request.url request) with
    | Some u => hostname u
    | None => ""
    end in
  match originalDomain (Request.userData request) with
  | Some d => if truthy d then d else fromUrl
  | None => fromUrl
  end.

(** What probing one clickable element leaves in the store. *)
Definition probePost (newURL : string -> option URL)
    (url label originalDomain companyName : string)
    (link : PotentialLink) (st : Store) : Prop :=
  LinkType_eqb (link_type link) href = false ->
  (forall u, clicked (elementHandle link) = NewPage u -> u <> url ->
     holds (Recorded AllExploredUrls url u) st
     /\ (label = "start" ->
         holds (Recorded PotentialDifferentServices url u) st
         /\ (isHttpUrl newURL u = true ->
             holds (Enqueued (childRequest url originalDomain companyName u)) st
             /\ holds (Recorded StartUrlChildren url u) st)))
  /\ (forall u, clicked (elementHandle link) = SamePage u -> u <> url ->
       holds (Recorded AllExploredUrls url u) st
       /\ (label = "start" ->
           holds (Recorded PotentialDifferentServices url u) st)).

(** What handling one cross-domain anchor leaves in the store. *)
Definition crossDomainPost (newURL : string -> option URL)
    (url originalDomain companyName target : string) (st : Store) : Prop :=
  shouldExcludeUrl newURL target = Normal false ->
  containsCompanyName companyName target = true ->
  holds (Recorded AllExploredUrls url target) st
  /\ holds (Recorded PotentialDifferentServices url target) st
  /\ holds (Enqueued (childRequest url originalDomain companyName target)) st
  /\ holds (Recorded StartUrlChildren url target) st.

(** What the link transform leaves in the store for one candidate. *)
Definition candidatePost (newURL : string -> option URL)
    (url candidate : string) (st : Store) : Prop :=
  shouldExcludeUrl newURL candidate = Normal false ->
  candidate <> url ->
  holds (Recorded AllExploredUrls url candidate) st.

(** What a run of the handler leaves in the store, whether it completes
    or throws: the prober's recordings always, those of the cross-domain
    loop and of the link transform when the loop is not cut short by a
    rejected request. *)
Definition handlerPost (newURL : string -> option URL) (request : Request.t)
    (page : Page) (st : Store) : Prop :=
  let url := Request.url request in
  let domain := inheritedDomain newURL request in
  let company := companyNameOf request in
  ready url st
  /\ (forall link, link ∈ potentialLinks page ->
        probePost newURL url (labelOf request) domain company link st)
  /\ (httpAnchors newURL request page ->
      (forall target, target ∈ crossDomainLinks page ->
         crossDomainPost newURL url domain company target st)
      /\ (labelOf request = "start" ->
          forall candidate, candidate ∈ linkCandidates page ->
            candidatePost newURL url candidate st)).

(** ** A small web to run the crawler on *)

Module Acme.

Definition company : Company.t := Company.mk "Acme" "https://acme.com".

Definition noElements : string -> list Element := fun _ => [].

Definition button (outcome : ClickOutcome) : Element := mkElement None outcome.

(** The home page: a button that opens the tools site in a new tab, a
    button that navigates in place to the pricing page, three anchors and
    two same-hostname links. *)
Definition homePage : Page :=
  {| hrefElements := []; onclickElements := []; angularElements := [];
     jsactionElements := []; reactElements := [];
     classElements := noElements; idElements := noElements;
     buttonElements := [ button (NewPage "https://tools.acme.com/");
                         button (SamePage "https://acme.com/pricing") ];
     anchorHrefs := [ "https://acme.com/admin"; "https://twitter.com/acme";
                      "https://acme-status.io/" ];
     locationHostname := "acme.com";
     linkCandidates := [ "https://acme.com/admin"; "https://acme.com/about" ];
     strategyAccepts := fun _ => true |}.

(** The tools site: one button that navigates in place to its settings. *)
Definition toolsPage : Page :=
  {| hrefElements := []; onclickElements := []; angularElements := [];
     jsactionElements := []; reactElements := [];
     classElements := noElements; idElements := noElements;
     buttonElements := [ button (SamePage "https://tools.acme.com/settings") ];
     anchorHrefs := [];
     locationHostname := "tools.acme.com";
     linkCandidates := [];
     strategyAccepts := fun _ => true |}.

(** The status site: a single anchor to the documentation site. *)
Definition statusPage : Page :=
  {| hrefElements := []; onclickElements := []; angularElements := [];
     jsactionElements := []; reactElements := [];
     classElements := noElements; idElements := noElements;
     buttonElements := [];
     anchorHrefs := [ "https://acme-docs.dev/" ];
     locationHostname := "acme-status.io";
     linkCandidates := [];
     strategyAccepts := fun _ => true |}.

Definition web (url : string) : option Page :=
  if String.eqb url "https://acme.com" then Some homePage
  else if String.eqb url "https://tools.acme.com/" then Some toolsPage
  else if String.eqb url "https://acme-status.io/" then Some statusPage
  else None.

(** The store as [findCompanyServices] leaves it before the crawl starts. *)
Definition freshStore : Store :=
  fst (initRegistries [company] emptyStore).

(** The seed request of the company. *)
Definition seedRequest : Request.t :=
  Request.mk "https://acme.com"
    (mkUserData (Some "start") None (Some "acme.com") (Some "acme")).

(** The child request the home page creates for the tools site. *)
Definition toolsRequest : Request.t :=
  childRequest "https://acme.com" "acme.com" "acme" "https://tools.acme.com/".

(** The child request the home page creates for the status site. *)
Definition statusRequest : Request.t :=
  childRequest "https://acme.com" "acme.com" "acme" "https://acme-status.io/".

(** A home page whose first anchor is a file server and whose button
    opens an empty tab. *)
Definition downloadsPage : Page :=
  {| hrefElements := []; onclickElements := []; angularElements := [];
     jsactionElements := []; reactElements := [];
     classElements := noElements; idElements := noElements;
     buttonElements := [ button (NewPage "about:blank") ];
     anchorHrefs := [ "ftp://files.acme-mirror.io/pub";
                      "https://acme-status.io/" ];
     locationHostname := "acme.com";
     linkCandidates := [ "https://acme.com/about" ];
     strategyAccepts := fun _ => true |}.

(** The same status request for a company whose name is empty. *)
Definition namelessStatusRequest : Request.t :=
  childRequest "https://acme.com" "acme.com" "" "https://acme-status.io/".

Definition namelessSeedRequest : Request.t :=
  Request.mk "https://acme.com"
    (mkUserData (Some "start") None (Some "acme.com") (Some "")).

End Acme.

(** A URL without an entry in [potentialDifferentServices] stays without. *)
Definition keepsUnregistered (url : string) (st st' : Store) : Prop :=
  potentialDifferentServices st !! url = None ->
  potentialDifferentServices st' !! url = None.

(** ** The start of a run *)

(** The initial request of a company. *)
Definition seedRequestOf (newURL : string -> option URL) (company : Company.t)
  : Request.t :=
  Request.mk (Company.url company)
    (mkUserData (Some "start") None
       (Some (match newURL (Company.url company) with
              | Some u => hostname u
              | None => ""
              end))
       (Some (toLowerCase (Company.name company)))).

(** The store in which the crawl starts: registries initialised, initial
    requests queued. *)
Definition startStore (newURL : string -> option URL)
    (companies : list Company.t) : Store :=
  fst (addRequests newURL (map (seedRequestOf newURL) companies)
         (fst (initRegistries companies emptyStore))).

(** The store in which a later crawl starts, on the queue that the crawls
    before it left in [queue]. *)
Definition startStoreAfter (newURL : string -> option URL)
    (companies : list Company.t) (queue : Store) : Store :=
  fst (addRequests newURL (map (seedRequestOf newURL) companies)
         (fst (initRegistries companies (mkStore ∅ ∅ ∅ (addedRequests queue))))).

(** [key] is the URL of one of the companies. *)
Definition isSeedUrl (companies : list Company.t) (key : string) : Prop :=
  exists company, company ∈ companies /\ Company.url company = key.

(** ** Invariants of the store *)

(** An invariant seen as a relation between the store before and after. *)
Definition lift (I : Store -> Prop) (st st' : Store) : Prop := I st -> I st'.

(** No entry of any registry lists a URL twice. *)
Definition noDuplicates (st : Store) : Prop :=
  forall reg key arr, getRegistry reg st !! key = Some arr -> NoDup arr.

(** Whatever is listed as a service of a URL is listed as explored from it. *)
Definition servicesWithinExplored (st : Store) : Prop :=
  forall key x,
    x ∈ orEmpty (potentialDifferentServices st !! key) ->
    x ∈ orEmpty (allExploredUrls st !! key).

(** The same, with [x] known to be listed as explored from [url]. *)
Definition withExplored (url x : string) (st : Store) : Prop :=
  servicesWithinExplored st /\ x ∈ orEmpty (allExploredUrls st !! url).

(** Every array of every registry is empty. *)
Definition allEmpty (st : Store) : Prop :=
  forall reg key arr, getRegistry reg st !! key = Some arr -> arr = [].

(** The record of a company about which nothing was found. *)
Definition emptyRecord (company : Company.t) : Result.t :=
  Result.mk (Company.url company) [] [].

(** Arrays and the queue only grow at their end. *)
Definition appendOnly (st st' : Store) : Prop :=
  (forall reg key arr,
     getRegistry reg st !! key = Some arr ->
     exists more, getRegistry reg st' !! key = Some (arr ++ more)%list)
  /\ exists more, addedRequests st' = (addedRequests st ++ more)%list.

(** The two per-seed registries keep their keys. *)
Definition sameSeedKeys (st st' : Store) : Prop :=
  forall key,
    (is_Some (potentialDifferentServices st' !! key)
     <-> is_Some (potentialDifferentServices st !! key))
    /\ (is_Some (startUrlChildren st' !! key)
        <-> is_Some (startUrlChildren st !! key)).

(** [potentialDifferentServices] changes at [url] only. *)
Definition sameServicesExcept (url : string) (st st' : Store) : Prop :=
  forall key, key <> url ->
    potentialDifferentServices st' !! key = potentialDifferentServices st !! key.

(** [startUrlChildren] changes at [url] and [parent] only. *)
Definition sameChildrenExcept (url : string) (parent : option string)
    (st st' : Store) : Prop :=
  forall key, key <> url -> parent <> Some key ->
    startUrlChildren st' !! key = startUrlChildren st !! key.

(** The queue is as it was. *)
Definition sameQueue (st st' : Store) : Prop :=
  addedRequests st' = addedRequests st.

(** Every request added is a child of [url] carrying the given metadata. *)
Definition addsOnlyChildren (url originalDomain companyName : string)
    (st st' : Store) : Prop :=
  forall r, r ∈ addedRequests st' ->
    r ∈ addedRequests st
    \/ exists target, r = childRequest url originalDomain companyName target.

(** Every request in the queue carries the lower-cased name of one of the
    companies and is labelled [start] or [child]. *)
Definition carriesCompanyName (companies : list Company.t) (st : Store) : Prop :=
  forall r, r ∈ addedRequests st ->
    (exists company, company ∈ companies
       /\ companyName (Request.userData r)
          = Some (toLowerCase (Company.name company)))
    /\ (label (Request.userData r) = Some "start"
        \/ label (Request.userData r) = Some "child").

(** What is queued under a parent, or listed as a child of a URL, is
    listed as a service of that parent or URL. *)
Definition childrenAreServices (st : Store) : Prop :=
  (forall r parent,
     r ∈ addedRequests st ->
     parentUrl (Request.userData r) = Some parent ->
     Request.url r ∈ orEmpty (potentialDifferentServices st !! parent))
  /\ (forall key x,
        x ∈ orEmpty (startUrlChildren st !! key) ->
        x ∈ orEmpty (potentialDifferentServices st !! key)).

(** The same, while [request] is in the queue. *)
Definition whileQueued (request : Request.t) (st : Store) : Prop :=
  request ∈ addedRequests st /\ childrenAreServices st.

(** The same, with [x] known to be listed as a service of [url]. *)
Definition withService (request : Request.t) (url x : string) (st : Store)
  : Prop :=
  whileQueued request st /\ x ∈ orEmpty (potentialDifferentServices st !! url).

(** The services lists only gain members, the lists of children and the
    queue are as they were. *)
Definition gainsServices (st st' : Store) : Prop :=
  (forall key x,
     x ∈ orEmpty (potentialDifferentServices st !! key) ->
     x ∈ orEmpty (potentialDifferentServices st' !! key))
  /\ startUrlChildren st' = startUrlChildren st
  /\ addedRequests st' = addedRequests st.

(** ** The states of a crawl *)

(** Every company URL is one the request queue accepts. *)
Definition accepted (newURL : string -> option URL) (companies : list Company.t)
  : Prop :=
  forall company, company ∈ companies ->
    isHttpUrl newURL (Company.url company) = true.

(** The states a process goes through, crawl after crawl: the companies of
    the current crawl, the requests it may still handle, the URLs handled
    so far and the store.  A process starts with an empty queue.  A crawl
    starts when the one before it is over, that is, when the budget is
    used up or no request is pending; it starts from reset globals on the
    queue as it is, once the queue has accepted its initial requests, and
    the requests handled before count towards its budget.  A step handles
    the next pending request. *)
Inductive Reachable (newURL : string -> option URL) (web : string -> option Page)
  : list Company.t -> nat -> list string -> Store -> Prop :=
| reach_idle :
    Reachable newURL web [] MAX_REQUESTS_PER_CRAWL [] emptyStore
| reach_crawl (companies : list Company.t) (budget : nat) (handled : list string)
    (st : Store) (next : list Company.t) :
    Reachable newURL web companies budget handled st ->
    budget = O \/ nextRequest handled st = None ->
    accepted newURL next ->
    Reachable newURL web next (MAX_REQUESTS_PER_CRAWL - List.length handled)
      handled (startStoreAfter newURL next st)
| reach_step (companies : list Company.t) (budget : nat) (handled : list string)
    (st : Store) (request : Request.t) :
    Reachable newURL web companies (S budget) handled st ->
    nextRequest handled st = Some request ->
    Reachable newURL web companies budget (Request.url request :: handled)
      (fst (processRequest newURL web request st)).

(** While [url] has no entry in [potentialDifferentServices], that
    registry, [startUrlChildren] and the queue stay as they are. *)
Definition idleWhileUnregistered (url : string) (st st' : Store) : Prop :=
  potentialDifferentServices st !! url = None ->
  potentialDifferentServices st' = potentialDifferentServices st
  /\ startUrlChildren st' = startUrlChildren st
  /\ addedRequests st' = addedRequests st.

(** [potentialDifferentServices] and the queue are as they were. *)
Definition sameServicesAndQueue (st st' : Store) : Prop :=
  potentialDifferentServices st' = potentialDifferentServices st
  /\ addedRequests st' = addedRequests st.

(** The deny-list test of [shouldExcludeUrl], named for the proofs. *)
Definition onDenyList (domain : string) : bool :=
  existsb (fun excludedDomain =>
    String.eqb domain excludedDomain || endsWith domain ("." +:+ excludedDomain))
    EXCLUDED_DOMAINS.

(** * Properties *)

(** ** String methods *)

Section StringFacts.

Lemma app_cons (c : ascii) (a b : string) :
  String c a +:+ b = String c (a +:+ b).
Proof. reflexivity. Qed.

Lemma app_nil (b : string) : "" +:+ b = b.
Proof. reflexivity. Qed.

Lemma prefix_spec (p s : string) :
  String.prefix p s = true <-> exists rest, s = p +:+ rest.
Proof.
  revert s. induction p as [|c p IH]; intros s.
  - split; [intros _; exists s; reflexivity | intros _; destruct s; reflexivity].
  - destruct s as [|d s]; simpl.
    + split; [discriminate | intros [rest H]; discriminate].
    + destruct (ascii_dec c d) as [->|Hne].
      * rewrite IH. split; intros [rest H]; exists rest;
          rewrite app_cons in *; congruence.
      * split; [discriminate | intros [rest H]; rewrite app_cons in H; congruence].
Qed.

Lemma startsWith_spec (s p : string) :
  startsWith s p = true <-> hasScheme p s.
Proof. unfold startsWith, hasScheme. apply prefix_spec. Qed.

Lemma endsWith_nil (suf : string) :
  endsWith "" suf = String.eqb "" suf.
Proof. unfold endsWith. apply orb_false_r. Qed.

Lemma endsWith_cons (c : ascii) (s suf : string) :
  endsWith (String c s) suf = String.eqb (String c s) suf || endsWith s suf.
Proof. reflexivity. Qed.

Lemma endsWith_spec (s suf : string) :
  endsWith s suf = true <-> exists pre, s = pre +:+ suf.
Proof.
  induction s as [|c s IH].
  - rewrite endsWith_nil, String.eqb_eq. split.
    + intros <-. exists "". reflexivity.
    + intros [pre H]. destruct pre; [rewrite app_nil in H; congruence | discriminate].
  - rewrite endsWith_cons, orb_true_iff, String.eqb_eq, IH. split.
    + intros [<- | [pre ->]]; [exists ""; reflexivity | exists (String c pre); reflexivity].
    + intros [pre H]. destruct pre as [|d pre].
      * left. rewrite app_nil in H. congruence.
      * right. exists pre. rewrite app_cons in H. congruence.
Qed.

Lemma includes_empty (s : string) : includes s "" = true.
Proof. destruct s; reflexivity. Qed.

Lemma arrayIncludes_spec (arr : list string) (x : string) :
  arrayIncludes arr x = true <-> x ∈ arr.
Proof.
  unfold arrayIncludes. rewrite existsb_exists, list_elem_of_In. split.
  - intros [y [Hy Heq]]. apply String.eqb_eq in Heq. congruence.
  - intros H. exists x. split; [assumption | apply String.eqb_refl].
Qed.

End StringFacts.

(** ** The URL classifier *)

Section ClassifierFacts.

Variable newURL : string -> option URL.

Lemma extractDomain_value (url : string) :
  extractDomain newURL url =
  Normal (match newURL url with Some u => hostname u | None => "" end).
Proof.
  unfold extractDomain, constructURL. destruct (newURL url); reflexivity.
Qed.

Lemma shouldExcludeUrl_value (url : string) :
  shouldExcludeUrl newURL url =
  Normal (startsWith url "mailto:" || startsWith url "tel:"
          || onDenyList (match newURL url with Some u => hostname u | None => "" end)).
Proof.
  unfold shouldExcludeUrl.
  destruct (startsWith url "mailto:" || startsWith url "tel:"); [reflexivity|].
  rewrite extractDomain_value. reflexivity.
Qed.

Lemma onDenyList_spec (domain : string) :
  onDenyList domain = true <->
  exists entry, In entry EXCLUDED_DOMAINS /\
                (domain = entry \/ isSubdomainOf domain entry).
Proof.
  unfold onDenyList, isSubdomainOf. rewrite existsb_exists.
  split; intros [entry [Hin H]]; exists entry; split; try assumption.
  - apply orb_true_iff in H as [H | H].
    + left. apply String.eqb_eq. assumption.
    + right. apply endsWith_spec. assumption.
  - apply orb_true_iff. destruct H as [H | H].
    + left. apply String.eqb_eq. assumption.
    + right. apply endsWith_spec. assumption.
Qed.

Lemma isPotentialDifferentService_normal (originalUrl targetUrl : string) :
  exists b, isPotentialDifferentService newURL originalUrl targetUrl = Normal b.
Proof.
  unfold isPotentialDifferentService. rewrite shouldExcludeUrl_value.
  unfold bindC at 1, constructURL.
  destruct (_ || onDenyList _); [eexists; reflexivity|].
  destruct (newURL originalUrl); [|eexists; reflexivity].
  destruct (newURL targetUrl); [|eexists; reflexivity].
  cbn [bindC tryCatch].
  repeat match goal with
         | |- context [if ?c then _ else _] => destruct c
         end; eexists; reflexivity.
Qed.

Lemma toLowerCase_keeps_slash (s : string) :
  startsWith s "/" = true -> startsWith (toLowerCase s) "/" = true.
Proof.
  unfold startsWith. intros H. apply prefix_spec in H as [rest ->].
  apply prefix_spec. exists (toLowerCase rest). reflexivity.
Qed.

(** With an origin whose path is the root, the sub-path test of
    [isPotentialDifferentService] accepts every other path of the same
    host: no candidate on the origin's host is ever a different service. *)
Lemma root_origin_never_flags_same_host (originalUrl targetUrl : string)
    (o t : URL) :
  newURL originalUrl = Some o ->
  newURL targetUrl = Some t ->
  hostname o = hostname t ->
  toLowerCase (pathname o) = "/" ->
  startsWith (pathname t) "/" = true ->
  isPotentialDifferentService newURL originalUrl targetUrl = Normal false.
Proof.
  intros Ho Ht Hhost Hroot Hslash.
  unfold isPotentialDifferentService. rewrite shouldExcludeUrl_value.
  unfold bindC at 1, constructURL.
  destruct (_ || onDenyList _); [reflexivity|].
  rewrite Ho, Ht. cbn [bindC tryCatch].
  rewrite Hhost, String.eqb_refl. cbn [negb].
  destruct (hasToolIndicator _) eqn:Htool; [|reflexivity]. cbn [negb].
  rewrite Hroot, (toLowerCase_keeps_slash _ Hslash). cbn [andb].
  destruct (String.eqb_spec (toLowerCase (pathname t)) "/") as [Heq|_];
    [|reflexivity].
  rewrite Heq in Htool. discriminate.
Qed.

End ClassifierFacts.

(** C8. [shouldExcludeUrl] never throws, and answers [true] exactly for
    the URLs that start with [mailto:] or [tel:] or whose hostname is, or
    is a subdomain of, an entry of [EXCLUDED_DOMAINS]; for every other
    input, unparsable ones included, it answers [false]. *)
Theorem shouldExcludeUrl_iff_spec (newURL : string -> option URL) (url : string) :
  exists b, shouldExcludeUrl newURL url = Normal b /\
            (b = true <-> excludedBySpec newURL url) /\
            (b = false <-> ~ excludedBySpec newURL url).
Proof.
  eexists. split; [apply shouldExcludeUrl_value|].
  assert (Hiff : startsWith url "mailto:" || startsWith url "tel:"
            || onDenyList (match newURL url with Some u => hostname u | None => "" end)
            = true <-> excludedBySpec newURL url).
  { assert (D : onDenyList (match newURL url with Some u => hostname u | None => "" end)
                = true <->
                exists u entry,
                  newURL url = Some u /\ In entry EXCLUDED_DOMAINS /\
                  (hostname u = entry \/ isSubdomainOf (hostname u) entry)).
    { rewrite onDenyList_spec. split.
      - intros [entry [Hin H]]. destruct (newURL url) as [u|] eqn:Hu.
        + exists u, entry. auto.
        + exfalso. destruct H as [<- | [sub H]].
          * simpl in Hin. intuition discriminate.
          * destruct sub; discriminate.
      - intros (u & entry & Hu & Hin & H). rewrite Hu. exists entry. auto. }
    unfold excludedBySpec.
    rewrite !orb_true_iff, !startsWith_spec, D. tauto. }
  split; [exact Hiff|].
  rewrite <- Hiff. destruct (_ || _); split; congruence.
Qed.

(** C9, as stated, fails: the hostname of a URL whose scheme is not one
    of the special ones keeps its capital letters, and [extractDomain]
    returns it as it is. *)
Lemma extractDomain_keeps_capitals :
  Whatwg.parse "foo://EXAMPLE.com/x" = Some (mkURL "foo:" "EXAMPLE.com" "/x")
  /\ extractDomain Whatwg.parse "foo://EXAMPLE.com/x" = Normal "EXAMPLE.com"
  /\ toLowerCase "EXAMPLE.com" <> "EXAMPLE.com".
Proof. split; [reflexivity|]. split; [reflexivity | discriminate]. Qed.

(** C9, amended.  [extractDomain] never throws: it returns the hostname
    of the parsed URL exactly as the parser reports it, without folding
    its case, or the empty string when the URL does not parse. *)
Theorem extractDomain_hostname_or_default (newURL : string -> option URL)
    (url : string) :
  exists domain,
    extractDomain newURL url = Normal domain /\
    ((exists u, newURL url = Some u /\ domain = hostname u)
     \/ (newURL url = None /\ domain = "")).
Proof.
  eexists. split; [apply extractDomain_value|].
  destruct (newURL url) as [u|] eqn:Hu.
  - left. exists u. auto.
  - right. auto.
Qed.

(** ** Reasoning about handler code *)

Section Store.

Lemma getRegistry_setRegistry (reg reg' : Registry) m st :
  getRegistry reg' (setRegistry reg m st) =
  match reg, reg' with
  | PotentialDifferentServices, PotentialDifferentServices
  | AllExploredUrls, AllExploredUrls
  | StartUrlChildren, StartUrlChildren => m
  | _, _ => getRegistry reg' st
  end.
Proof. destruct reg, reg'; reflexivity. Qed.

Lemma addedRequests_setRegistry reg m st :
  addedRequests (setRegistry reg m st) = addedRequests st.
Proof. destruct reg; reflexivity. Qed.

Lemma extends_refl st : extends st st.
Proof. intros f H. exact H. Qed.

Lemma extends_trans st1 st2 st3 :
  extends st1 st2 -> extends st2 st3 -> extends st1 st3.
Proof. intros H12 H23 f H. apply H23, H12, H. Qed.

(** Replacing an entry by a longer array, or creating an entry, keeps
    every fact. *)
Lemma extends_insert reg key (arr : list string) st :
  (forall old, getRegistry reg st !! key = Some old -> old ⊆ arr) ->
  extends st (setRegistry reg (<[key := arr]> (getRegistry reg st)) st).
Proof.
  intros Hsub [reg' key' x | reg' key' | r]; simpl.
  - intros [old [Hold Hx]]. rewrite getRegistry_setRegistry.
    destruct reg, reg'; eauto;
      (destruct (decide (key = key')) as [<-|Hne];
       [rewrite lookup_insert_eq; eexists; split; [reflexivity|];
        eapply Hsub; eassumption
       |rewrite lookup_insert_ne by assumption; eauto]).
  - intros Hsome. rewrite getRegistry_setRegistry.
    destruct reg, reg'; eauto;
      (destruct (decide (key = key')) as [<-|Hne];
       [rewrite lookup_insert_eq; eauto
       |rewrite lookup_insert_ne by assumption; eauto]).
  - rewrite addedRequests_setRegistry. auto.
Qed.

Lemma stable_holds f : stable (holds f).
Proof. intros st st' Hext H. apply Hext, H. Qed.

Lemma stable_and P Q : stable P -> stable Q -> stable (fun st => P st /\ Q st).
Proof. intros HP HQ st st' Hext [H1 H2]. split; eauto. Qed.

Lemma stable_registered url : stable (registered url).
Proof. apply stable_and; apply stable_holds. Qed.

Lemma sameExploredExcept_refl url st : sameExploredExcept url st st.
Proof. intros key _. reflexivity. Qed.

Lemma sameExploredExcept_trans url st1 st2 st3 :
  sameExploredExcept url st1 st2 -> sameExploredExcept url st2 st3 ->
  sameExploredExcept url st1 st3.
Proof. intros H12 H23 key Hne. rewrite H23, H12 by assumption. reflexivity. Qed.

End Store.

Section HandlerLogic.

Context {R : Store -> Store -> Prop}.
Hypothesis R_refl : forall st, R st st.
Hypothesis R_trans : forall st1 st2 st3, R st1 st2 -> R st2 st3 -> R st1 st3.

Lemma respects_ret {A} (a : A) : respects R (ret a).
Proof. intros st. apply R_refl. Qed.

Lemma respects_throw {A} (e : error) : respects R (@throw A e).
Proof. intros st. apply R_refl. Qed.

Lemma respects_liftC {A} (c : completion A) : respects R (liftC c).
Proof. intros st. apply R_refl. Qed.

Lemma respects_isDefined reg key : respects R (isDefined reg key).
Proof. intros st. apply R_refl. Qed.

Lemma respects_entryIncludes reg key x : respects R (entryIncludes reg key x).
Proof.
  intros st. unfold entryIncludes.
  destruct (getRegistry reg st !! key); apply R_refl.
Qed.

Lemma respects_bind {A B} (m : Handler A) (f : A -> Handler B) :
  respects R m -> (forall a, respects R (f a)) -> respects R (bindH m f).
Proof.
  intros Hm Hf st. unfold bindH. specialize (Hm st).
  destruct (m st) as [st' [a|e]]; simpl in *; [|assumption].
  eapply R_trans; [eassumption | apply Hf].
Qed.

Lemma respects_tryCatchH {A} (body : Handler A) handler :
  respects R body -> (forall e, respects R (handler e)) ->
  respects R (tryCatchH body handler).
Proof.
  intros Hm Hf st. unfold tryCatchH. specialize (Hm st).
  destruct (body st) as [st' [a|e]]; simpl in *; [assumption|].
  eapply R_trans; [eassumption | apply Hf].
Qed.

Lemma respects_forEach {A} (l : list A) (body : A -> Handler unit) :
  (forall x, respects R (body x)) -> respects R (forEach l body).
Proof.
  intros Hbody. induction l as [|x l IH]; simpl.
  - apply respects_ret.
  - apply respects_bind; auto.
Qed.

Lemma respects_mapFilter {A B} (l : list A) (f : A -> Handler (option B)) :
  (forall x, respects R (f x)) -> respects R (mapFilter l f).
Proof.
  intros Hf. induction l as [|x l IH]; simpl.
  - apply respects_ret.
  - apply respects_bind; [apply Hf|]. intros result.
    apply respects_bind; [apply IH|]. intros rest. apply respects_ret.
Qed.

Lemma respects_pushIfAbsent reg key x :
  respects R (entryPush reg key x) -> respects R (pushIfAbsent reg key x).
Proof.
  intros Hpush. apply respects_bind; [apply respects_entryIncludes|].
  intros [|]; [apply respects_ret | assumption].
Qed.

Lemma respects_addRequests newURL requests :
  (forall r, r ∈ requests -> respects R (enqueue r)) ->
  respects R (addRequests newURL requests).
Proof.
  intros Hone. unfold addRequests.
  destruct (forallb _ requests); [|apply respects_throw].
  induction requests as [|r rs IH]; cbn [forEach].
  - apply respects_ret.
  - apply respects_bind; [apply Hone; left|]. intros _. apply IH.
    intros r' Hr'. apply Hone. right. exact Hr'.
Qed.

Lemma respects_addRequests_one newURL r :
  respects R (enqueue r) -> respects R (addRequests newURL [r]).
Proof.
  intros Hone. apply respects_addRequests. intros r' Hr'.
  apply list_elem_of_singleton in Hr' as ->. exact Hone.
Qed.

Lemma respects_addRequests_all newURL requests :
  (forall r, respects R (enqueue r)) ->
  respects R (addRequests newURL requests).
Proof. intros Hall. apply respects_addRequests. intros r _. apply Hall. Qed.

End HandlerLogic.

Section Triples.

Lemma triple_ret {A} (P : Store -> Prop) (a : A) : triple P (ret a) (fun _ => P).
Proof. intros st HP. exists a. auto. Qed.

Lemma triple_of_run {A} (P : Store -> Prop) (Q : A -> Store -> Prop) m :
  (forall st, P st -> exists st' a, m st = (st', Normal a) /\ Q a st') ->
  triple P m Q.
Proof.
  intros H st HP. destruct (H st HP) as (st' & a & -> & Hq). exists a. auto.
Qed.

Lemma triple_weaken {A} (P P' : Store -> Prop) (Q Q' : A -> Store -> Prop) m :
  (forall st, P' st -> P st) -> (forall a st, Q a st -> Q' a st) ->
  triple P m Q -> triple P' m Q'.
Proof.
  intros HP HQ H st Hst. destruct (H st (HP _ Hst)) as (a & Ha & Hq).
  exists a. auto.
Qed.

Lemma triple_bind {A B} P (Q : A -> Store -> Prop) (S : B -> Store -> Prop)
    (m : Handler A) (f : A -> Handler B) :
  triple P m Q -> (forall a, triple (Q a) (f a) S) -> triple P (bindH m f) S.
Proof.
  intros Hm Hf st HP. destruct (Hm st HP) as (a & Ha & Hq).
  unfold bindH. destruct (m st) as [st' c]. simpl in *. subst c.
  apply Hf, Hq.
Qed.

(** A stable property survives any code that only extends the store. *)
Lemma triple_frame {A} (P F : Store -> Prop) (Q : A -> Store -> Prop) m :
  respects extends m -> stable F -> triple P m Q ->
  triple (fun st => P st /\ F st) m (fun a st => Q a st /\ F st).
Proof.
  intros Hgrow HF H st [HP Hf]. destruct (H st HP) as (a & Ha & Hq).
  exists a. split; [assumption|]. split; [assumption|].
  eapply HF; [apply Hgrow | assumption].
Qed.

Lemma triple_forEach {A} (I : Store -> Prop) (Q : A -> Store -> Prop)
    (l : list A) (body : A -> Handler unit) :
  stable I -> (forall x, stable (Q x)) ->
  (forall x, respects extends (body x)) ->
  (forall x, x ∈ l -> triple I (body x) (fun _ => Q x)) ->
  triple I (forEach l body) (fun _ st => I st /\ forall x, x ∈ l -> Q x st).
Proof.
  intros HI HQ Hgrow. induction l as [|x l IH]; intros Hbody; simpl.
  - intros st Hst. exists tt. split; [reflexivity|]. split; [assumption|].
    intros y Hy. inversion Hy.
  - eapply triple_bind.
    + eapply triple_weaken;
        [| |apply (triple_frame I I (fun _ => Q x)); auto;
            apply Hbody; left].
      * intros st Hst. split; exact Hst.
      * intros a st H. exact H.
    + intros _ st [Hq Hi].
      destruct (IH (fun y Hy => Hbody y (list_elem_of_further _ _ _ Hy)) st Hi)
        as ([] & Hrun & Hi' & Hall).
      exists tt. split; [assumption|]. split; [assumption|].
      intros y Hy. apply elem_of_cons in Hy as [-> | Hy]; [|auto].
      eapply HQ; [|exact Hq].
      apply (respects_forEach extends_refl extends_trans); assumption.
Qed.

Lemma run_of_triple {A} (P : Store -> Prop) (Q : A -> Store -> Prop)
    (m : Handler A) st :
  triple P m Q -> respects extends m -> P st ->
  exists st' a, m st = (st', Normal a) /\ Q a st' /\ extends st st'.
Proof.
  intros H Hgrow HP. destruct (H st HP) as (a & Hrun & Hq).
  specialize (Hgrow st). destruct (m st) as [st' c]. cbn [fst snd] in *.
  subst c. eauto.
Qed.

Lemma triple_mapFilter {A B} (I : Store -> Prop) (Q : A -> Store -> Prop)
    (l : list A) (f : A -> Handler (option B)) :
  stable I -> (forall x, stable (Q x)) ->
  (forall x, respects extends (f x)) ->
  (forall x, x ∈ l -> triple I (f x) (fun _ => Q x)) ->
  triple I (mapFilter l f) (fun _ st => I st /\ forall x, x ∈ l -> Q x st).
Proof.
  intros HI HQ Hgrow. induction l as [|x l IH]; intros Hf; simpl.
  - intros st Hst. eexists. split; [reflexivity|]. split; [assumption|].
    intros y Hy. inversion Hy.
  - eapply triple_bind.
    + eapply triple_weaken;
        [| |apply (triple_frame I I (fun _ => Q x)); auto; apply Hf; left].
      * intros st Hst. split; exact Hst.
      * intros a st H. exact H.
    + intros result st [Hq Hi].
      destruct (IH (fun y Hy => Hf y (list_elem_of_further _ _ _ Hy)) st Hi)
        as (rest & Hrun & Hi' & Hall).
      pose proof (respects_mapFilter extends_refl extends_trans l f Hgrow st)
        as Hext.
      unfold bindH. destruct (mapFilter l f st) as [st' c].
      cbn [fst snd] in *. subst c.
      eexists. split; [reflexivity|]. split; [assumption|].
      intros y Hy. apply elem_of_cons in Hy as [-> | Hy]; [|auto].
      eapply HQ; [exact Hext | exact Hq].
Qed.

End Triples.

(** ** The handler only ever adds to the store *)

Ltac step_respects refl trans :=
  lazymatch goal with
  | |- respects _ (bindH _ _) => apply (respects_bind trans)
  | |- respects _ (tryCatchH _ _) => apply (respects_tryCatchH trans)
  | |- respects _ (forEach _ _) => apply (respects_forEach refl trans)
  | |- respects _ (mapFilter _ _) => apply (respects_mapFilter refl trans)
  | |- respects _ (pushIfAbsent _ _ _) => apply (respects_pushIfAbsent refl trans)
  | |- respects _ (addRequests _ [_]) => apply (respects_addRequests_one refl trans)
  | |- respects _ (addRequests _ _) => apply (respects_addRequests_all refl trans)
  | |- respects _ (ret _) => apply (respects_ret refl)
  | |- respects _ (throw _) => apply (respects_throw refl)
  | |- respects _ (liftC _) => apply (respects_liftC refl)
  | |- respects _ (isDefined _ _) => apply (respects_isDefined refl)
  | |- respects _ (if ?c then _ else _) => destruct c
  | |- respects _ (match ?c with _ => _ end) => destruct c
  | |- forall _, _ => intro
  end.

Create HintDb grows.

Ltac grows := repeat step_respects extends_refl extends_trans; eauto with grows.

Section Grows.

Variable newURL : string -> option URL.

Lemma grows_entryPush reg key x : respects extends (entryPush reg key x).
Proof.
  intros st. unfold entryPush.
  destruct (getRegistry reg st !! key) as [arr|] eqn:Harr; simpl.
  - apply extends_insert. intros old Hold y Hy.
    rewrite Harr in Hold. injection Hold as <-.
    apply elem_of_app. left. assumption.
  - apply extends_refl.
Qed.

Lemma grows_enqueue r : respects extends (enqueue r).
Proof.
  intros st [reg key x | reg key | r']; simpl.
  - destruct reg; auto.
  - destruct reg; auto.
  - intros H. apply elem_of_app. left. assumption.
Qed.

Lemma grows_ensureExplored url : respects extends (ensureExplored url).
Proof.
  intros st. unfold ensureExplored, bindH, isDefined. cbv beta iota.
  case_bool_decide as Hdef.
  - apply extends_refl.
  - apply (extends_insert AllExploredUrls url [] st).
    intros old Hold. exfalso. apply Hdef. eauto.
Qed.

Hint Resolve grows_entryPush grows_enqueue grows_ensureExplored : grows.

Lemma grows_probe url label originalDomain companyName link :
  respects extends (probe newURL url label originalDomain companyName link).
Proof. unfold probe. grows. Qed.

Lemma grows_processCrossDomain url originalDomain companyName targetUrl :
  respects extends
    (processCrossDomain newURL url originalDomain companyName targetUrl).
Proof. unfold processCrossDomain. grows. Qed.

Lemma grows_transformRequestFunction url originalDomain companyName targetUrl :
  respects extends
    (transformRequestFunction newURL url originalDomain companyName targetUrl).
Proof. unfold transformRequestFunction. grows. Qed.

Hint Resolve grows_probe grows_processCrossDomain
  grows_transformRequestFunction : grows.

Lemma grows_enqueueLinks page url originalDomain companyName :
  respects extends
    (enqueueLinks newURL page
       (transformRequestFunction newURL url originalDomain companyName)).
Proof. unfold enqueueLinks. grows. Qed.

Lemma grows_trackChild request : respects extends (trackChild request).
Proof. unfold trackChild. grows. Qed.

Lemma grows_originalDomainOf request :
  respects extends (originalDomainOf newURL request).
Proof. unfold originalDomainOf. grows. Qed.

Hint Resolve grows_enqueueLinks grows_trackChild grows_originalDomainOf : grows.

Lemma grows_requestHandler request page :
  respects extends (requestHandler newURL request page).
Proof. unfold requestHandler. grows. Qed.

Hint Resolve grows_requestHandler : grows.

Lemma grows_attempt retries request page :
  respects extends (attempt newURL retries request page).
Proof. induction retries as [|n IH]; simpl; grows. Qed.

Hint Resolve grows_attempt : grows.

Lemma grows_processRequest web request :
  respects extends (processRequest newURL web request).
Proof. unfold processRequest. grows. Qed.

Hint Resolve grows_processRequest : grows.

Lemma grows_crawlLoop web budget handled :
  respects extends (crawlLoop newURL web budget handled).
Proof.
  revert handled. induction budget as [|n IH]; intros handled; simpl.
  - grows.
  - intros st. destruct (nextRequest handled st) as [request|]; simpl.
    + refine (respects_bind extends_trans _ _ _ _ st); grows.
    + apply extends_refl.
Qed.

End Grows.

#[global] Hint Resolve grows_entryPush grows_enqueue grows_ensureExplored
  grows_probe grows_processCrossDomain grows_transformRequestFunction
  grows_enqueueLinks grows_trackChild grows_originalDomainOf
  grows_requestHandler grows_attempt grows_processRequest grows_crawlLoop : grows.

(** ** Running the handler on initialised registries *)

Section Runs.

Variable newURL : string -> option URL.

Lemma recorded_iff reg key x st :
  holds (Recorded reg key x) st <-> x ∈ orEmpty (getRegistry reg st !! key).
Proof.
  simpl. split.
  - intros [arr [-> Hx]]. exact Hx.
  - destruct (getRegistry reg st !! key) as [arr|]; simpl.
    + eauto.
    + intros H. inversion H.
Qed.

Lemma pushIfAbsent_run reg key x st :
  holds (Defined reg key) st ->
  exists st', pushIfAbsent reg key x st = (st', Normal tt)
              /\ extends st st' /\ holds (Recorded reg key x) st'.
Proof.
  intros [arr Harr].
  exists (fst (pushIfAbsent reg key x st)).
  split; [|split].
  - unfold pushIfAbsent, bindH, entryIncludes, entryPush. rewrite Harr.
    destruct (arrayIncludes arr x); [reflexivity|]. rewrite Harr. reflexivity.
  - apply (respects_pushIfAbsent extends_refl extends_trans), grows_entryPush.
  - unfold pushIfAbsent, bindH, entryIncludes, entryPush. rewrite Harr.
    destruct (arrayIncludes arr x) eqn:Hinc.
    + exists arr. split; [assumption | apply arrayIncludes_spec; assumption].
    + rewrite Harr. cbn [fst]. exists (arr ++ [x])%list.
      rewrite getRegistry_setRegistry.
      split; [destruct reg; apply lookup_insert_eq|].
      apply elem_of_app. right. left.
Qed.

Lemma enqueue_run r st :
  exists st', enqueue r st = (st', Normal tt)
              /\ extends st st' /\ holds (Enqueued r) st'.
Proof.
  eexists. split; [reflexivity|]. split.
  - apply grows_enqueue.
  - simpl. apply elem_of_app. right. left.
Qed.

Lemma forEach_enqueue_run requests st :
  exists st', forEach requests enqueue st = (st', Normal tt)
              /\ extends st st'.
Proof.
  revert st. induction requests as [|r rs IH]; intros st; simpl.
  - exists st. split; [reflexivity | apply extends_refl].
  - unfold bindH. destruct (enqueue_run r st) as (st1 & -> & X1 & _).
    destruct (IH st1) as (st2 & -> & X2).
    exists st2. split; [reflexivity | eapply extends_trans; eassumption].
Qed.

Lemma forEach_enqueue_queue requests st :
  forEach requests enqueue st
  = (mkStore (potentialDifferentServices st) (allExploredUrls st)
             (startUrlChildren st) (addedRequests st ++ requests)%list,
     Normal tt).
Proof.
  revert st. induction requests as [|r rs IH]; intros st; cbn [forEach].
  - unfold ret. rewrite app_nil_r. destruct st; reflexivity.
  - unfold bindH, enqueue at 1. cbv beta iota. rewrite IH.
    cbn [potentialDifferentServices allExploredUrls startUrlChildren
         addedRequests].
    rewrite <- app_assoc. reflexivity.
Qed.

(** A batch of requests the queue accepts is stored, in order; any other
    batch is rejected as a whole. *)
Lemma addRequests_value requests st :
  addRequests newURL requests st
  = if forallb (fun r => isHttpUrl newURL (Request.url r)) requests
    then (mkStore (potentialDifferentServices st) (allExploredUrls st)
                  (startUrlChildren st) (addedRequests st ++ requests)%list,
          Normal tt)
    else (st, Thrown ValidationError).
Proof.
  unfold addRequests. destruct (forallb _ requests); [|reflexivity].
  apply forEach_enqueue_queue.
Qed.

Lemma addRequests_one_run r st :
  isHttpUrl newURL (Request.url r) = true ->
  exists st', addRequests newURL [r] st = (st', Normal tt)
              /\ extends st st' /\ holds (Enqueued r) st'.
Proof.
  intros Hvalid. unfold addRequests. cbn [forallb forEach].
  rewrite Hvalid. cbn [andb]. unfold bindH.
  destruct (enqueue_run r st) as (st' & -> & X & F).
  exists st'. unfold ret. auto.
Qed.

Lemma addRequests_one_rejected r st :
  isHttpUrl newURL (Request.url r) = false ->
  addRequests newURL [r] st = (st, Thrown ValidationError).
Proof.
  intros Hvalid. unfold addRequests. cbn [forallb]. rewrite Hvalid. reflexivity.
Qed.

Lemma originalDomainOf_run request st :
  originalDomainOf newURL request st = (st, Normal (inheritedDomain newURL request)).
Proof.
  unfold originalDomainOf, inheritedDomain, liftC, ret.
  rewrite extractDomain_value.
  destruct (originalDomain _) as [d|]; [destruct (truthy d)|]; reflexivity.
Qed.

Lemma ensureExplored_run url st :
  exists st', ensureExplored url st = (st', Normal tt)
              /\ extends st st' /\ holds (Defined AllExploredUrls url) st'.
Proof.
  exists (fst (ensureExplored url st)). split; [|split].
  - unfold ensureExplored, bindH, isDefined. cbv beta iota.
    case_bool_decide; reflexivity.
  - apply grows_ensureExplored.
  - unfold ensureExplored, bindH, isDefined. cbv beta iota.
    case_bool_decide as Hdef; [exact Hdef|].
    unfold initEntry. cbn [fst holds]. rewrite getRegistry_setRegistry.
    rewrite lookup_insert_eq. eauto.
Qed.

Lemma trackChild_run request st :
  exists st', trackChild request st = (st', Normal tt) /\ extends st st'.
Proof.
  exists (fst (trackChild request st)). split; [|apply grows_trackChild].
  unfold trackChild.
  destruct (parentUrl _) as [parent|]; [|reflexivity].
  destruct (_ && _); [|reflexivity].
  unfold bindH, isDefined. cbv beta iota.
  case_bool_decide as Hdef; [|reflexivity].
  destruct (pushIfAbsent_run StartUrlChildren parent (Request.url request) st Hdef)
    as (st' & -> & _). reflexivity.
Qed.

End Runs.

Ltac run_push :=
  match goal with
  | |- context [pushIfAbsent ?reg ?key ?x ?st] =>
      let st' := fresh "st" in
      let E := fresh "E" in
      let X := fresh "X" in
      let F := fresh "F" in
      destruct (pushIfAbsent_run reg key x st) as (st' & E & X & F);
      [solve [eauto] | rewrite E; cbv beta iota; unfold extends in X]
  end.

Ltac run_add :=
  match goal with
  | |- context [addRequests ?parser [?r] ?st] =>
      let st' := fresh "st" in
      let E := fresh "E" in
      let X := fresh "X" in
      let F := fresh "F" in
      destruct (addRequests_one_run parser r st) as (st' & E & X & F);
      [assumption | rewrite E; cbv beta iota; unfold extends in X]
  end.

Section Phases.

Variable newURL : string -> option URL.

Lemma stable_ready url : stable (ready url).
Proof. apply stable_and; [apply stable_holds | apply stable_registered]. Qed.

Lemma stable_probePost url label originalDomain companyName link :
  stable (probePost newURL url label originalDomain companyName link).
Proof.
  intros st st' Hext H Hty. destruct (H Hty) as [Hnew Hsame]. split.
  - intros u Hu Hne. destruct (Hnew u Hu Hne) as [H1 H2].
    split; [apply Hext, H1|]. intros Hl. destruct (H2 Hl) as [Hs Hq].
    split; [apply Hext, Hs|]. intros Hvalid. destruct (Hq Hvalid).
    split; apply Hext; assumption.
  - intros u Hu Hne. destruct (Hsame u Hu Hne) as [H1 H2].
    split; [apply Hext, H1|]. intros Hl. apply Hext, H2, Hl.
Qed.

Lemma stable_crossDomainPost url originalDomain companyName target :
  stable (crossDomainPost newURL url originalDomain companyName target).
Proof.
  intros st st' Hext H Hex Hname. destruct (H Hex Hname) as (? & ? & ? & ?).
  repeat split; apply Hext; assumption.
Qed.

Lemma stable_candidatePost url candidate :
  stable (candidatePost newURL url candidate).
Proof. intros st st' Hext H Hex Hne. apply Hext. auto. Qed.

(** Probing an element completes, whatever the queue says of the URL it
    resolves: a rejected request is caught with the other click errors. *)
Lemma probe_triple url label originalDomain companyName link :
  triple (ready url)
    (probe newURL url label originalDomain companyName link)
    (fun _ => probePost newURL url label originalDomain companyName link).
Proof.
  intros st (He & Hp & Hc). exists tt. unfold probe, probePost.
  destruct (LinkType_eqb (link_type link) href); cbn [negb].
  { split; [reflexivity | discriminate]. }
  unfold tryCatchH.
  destruct (clicked (elementHandle link)) as [|newUrl|currentUrl].
  - split; [reflexivity|]. intros _. split; intros u Hu; discriminate.
  - destruct (String.eqb_spec newUrl url) as [->|Hne].
    { split; [reflexivity|]. intros _.
      split; intros u Hu; [injection Hu as <-; tauto | discriminate]. }
    unfold bindH. run_push.
    destruct (String.eqb_spec label "start") as [->|Hlabel].
    + run_push.
      destruct (isHttpUrl newURL newUrl) eqn:Hvalid.
      * run_add. run_push.
        split; [reflexivity|]. intros _.
        split; intros u Hu; [injection Hu as <-|discriminate].
        intros _. auto 10.
      * rewrite addRequests_one_rejected by exact Hvalid.
        split; [reflexivity|]. intros _.
        split; intros u Hu; [injection Hu as <-|discriminate].
        intros _. split; [auto|]. intros _. split; [auto|].
        intros Hv. rewrite Hvalid in Hv. discriminate Hv.
    + split; [reflexivity|]. intros _.
      split; intros u Hu; [injection Hu as <-|discriminate].
      intros _. split; [assumption | tauto].
  - destruct (String.eqb_spec currentUrl url) as [->|Hne]; cbn [negb].
    { split; [reflexivity|]. intros _.
      split; intros u Hu; [discriminate | injection Hu as <-; tauto]. }
    unfold bindH. run_push.
    destruct (String.eqb_spec label "start") as [->|Hlabel].
    + run_push.
      split; [reflexivity|]. intros _.
      split; intros u Hu; [discriminate|injection Hu as <-].
      intros _. auto.
    + split; [reflexivity|]. intros _.
      split; intros u Hu; [discriminate|injection Hu as <-].
      intros _. split; [assumption | tauto].
Qed.

(** An anchor that the loop goes on to enqueue must be one the queue
    accepts for the loop to reach the next anchor. *)
Lemma processCrossDomain_triple url originalDomain companyName target :
  (shouldExcludeUrl newURL target = Normal false ->
   containsCompanyName companyName target = true ->
   isHttpUrl newURL target = true) ->
  triple (ready url)
    (processCrossDomain newURL url originalDomain companyName target)
    (fun _ => crossDomainPost newURL url originalDomain companyName target).
Proof.
  intros Hvalid st (He & Hp & Hc). exists tt.
  unfold processCrossDomain, crossDomainPost, bindH at 1, liftC.
  rewrite shouldExcludeUrl_value in *.
  destruct (_ || onDenyList _).
  { split; [reflexivity | discriminate]. }
  destruct (containsCompanyName companyName target).
  - specialize (Hvalid eq_refl eq_refl).
    unfold bindH. run_push. run_push. run_add. run_push.
    split; [reflexivity|]. intros _ _. auto 10.
  - split; [reflexivity | discriminate].
Qed.

Lemma transform_triple url originalDomain companyName candidate :
  triple (ready url)
    (transformRequestFunction newURL url originalDomain companyName candidate)
    (fun _ => candidatePost newURL url candidate).
Proof.
  apply triple_of_run. intros st (He & Hp & Hc).
  unfold transformRequestFunction, candidatePost, bindH at 1, liftC.
  rewrite shouldExcludeUrl_value.
  destruct (_ || onDenyList _); cbn [orb].
  { do 2 eexists. split; [reflexivity | discriminate]. }
  destruct (String.eqb_spec candidate url) as [->|Hne].
  { do 2 eexists. split; [reflexivity | tauto]. }
  unfold bindH. run_push.
  destruct (isPotentialDifferentService_normal newURL url candidate) as [b ->].
  rewrite !extractDomain_value. cbv beta iota.
  destruct (b || _).
  - run_push. do 2 eexists. split; [reflexivity|]. auto.
  - do 2 eexists. split; [reflexivity|]. auto.
Qed.

(** The transform runs on every candidate before the batch is handed to
    the queue, so what it records stands even when the batch is rejected. *)
Lemma enqueueLinks_facts page url originalDomain companyName st :
  ready url st ->
  let st' := fst (enqueueLinks newURL page
                    (transformRequestFunction newURL url originalDomain
                       companyName) st) in
  ready url st'
  /\ forall candidate, candidate ∈ linkCandidates page ->
                       candidatePost newURL url candidate st'.
Proof.
  intros Hready. unfold enqueueLinks, bindH.
  destruct (run_of_triple _ _ _ st
              (triple_mapFilter (ready url) (candidatePost newURL url)
                 (linkCandidates page)
                 (transformRequestFunction newURL url originalDomain companyName)
                 (stable_ready url) (stable_candidatePost url)
                 (grows_transformRequestFunction newURL url originalDomain companyName)
                 (fun candidate _ =>
                    transform_triple url originalDomain companyName candidate))
              (respects_mapFilter extends_refl extends_trans _ _
                 (grows_transformRequestFunction newURL url originalDomain companyName))
              Hready)
    as (st1 & transformed & -> & [R1 P1] & X1).
  cbv zeta.
  pose proof (respects_addRequests_all extends_refl extends_trans newURL
                (List.filter (fun req => strategyAccepts page (Request.url req))
                             transformed)
                grows_enqueue st1) as X2.
  split.
  - eapply stable_ready; eassumption.
  - intros candidate Hin. eapply stable_candidatePost; [exact X2 | auto].
Qed.

(** The handler up to the end of the probing never throws. *)
Lemma requestHandler_probed request page st :
  registered (Request.url request) st ->
  let url := Request.url request in
  let domain := inheritedDomain newURL request in
  let company := companyNameOf request in
  exists st3,
    ready url st3
    /\ extends st st3
    /\ (forall link, link ∈ potentialLinks page ->
          probePost newURL url (labelOf request) domain company link st3)
    /\ requestHandler newURL request page st
       = (forEach (crossDomainLinks page)
            (processCrossDomain newURL url domain company) ;;;
          if String.eqb (labelOf request) "start" then
            enqueueLinks newURL page
              (transformRequestFunction newURL url domain company)
          else ret tt) st3.
Proof.
  intros Hreg url domain company.
  unfold requestHandler, bindH at 1. rewrite originalDomainOf_run.
  fold url domain company.
  unfold bindH at 1.
  destruct (ensureExplored_run url st) as (st1 & -> & X1 & D1).
  assert (R1 : ready url st1) by (split; [assumption | eapply stable_registered; eauto]).
  unfold bindH at 1.
  destruct (trackChild_run request st1) as (st2 & -> & X2).
  assert (R2 : ready url st2) by (eapply stable_ready; eauto).
  unfold bindH at 1.
  destruct (run_of_triple _ _ _ st2
              (triple_forEach (ready url)
                 (probePost newURL url (labelOf request) domain company)
                 (potentialLinks page)
                 (probe newURL url (labelOf request) domain company)
                 (stable_ready url)
                 (stable_probePost url (labelOf request) domain company)
                 (grows_probe newURL url (labelOf request) domain company)
                 (fun link _ => probe_triple url (labelOf request) domain company link))
              (respects_forEach extends_refl extends_trans _ _
                 (grows_probe newURL url (labelOf request) domain company))
              R2)
    as (st3 & [] & -> & [R3 P3] & X3).
  exists st3. split; [exact R3|]. split.
  - eapply extends_trans; [|exact X3]. eapply extends_trans; eassumption.
  - split; [exact P3 | reflexivity].
Qed.

(** What a run of the handler on initialised registries leaves behind,
    whether it completes or throws. *)
Lemma requestHandler_facts request page st :
  registered (Request.url request) st ->
  handlerPost newURL request page (fst (requestHandler newURL request page st)).
Proof.
  intros Hreg.
  destruct (requestHandler_probed request page st Hreg)
    as (st3 & R3 & _ & P3 & ->).
  set (url := Request.url request) in *.
  set (domain := inheritedDomain newURL request) in *.
  set (company := companyNameOf request) in *.
  assert (Hgrow : respects extends
            (forEach (crossDomainLinks page)
               (processCrossDomain newURL url domain company) ;;;
             if String.eqb (labelOf request) "start" then
               enqueueLinks newURL page
                 (transformRequestFunction newURL url domain company)
             else ret tt)) by grows.
  specialize (Hgrow st3). unfold handlerPost. fold url domain company.
  split; [eapply stable_ready; eassumption|]. split.
  - intros link Hin. eapply stable_probePost; [exact Hgrow | apply P3, Hin].
  - intros Hhttp. clear Hgrow. unfold bindH.
    destruct (run_of_triple _ _ _ st3
                (triple_forEach (ready url)
                   (crossDomainPost newURL url domain company)
                   (crossDomainLinks page)
                   (processCrossDomain newURL url domain company)
                   (stable_ready url)
                   (stable_crossDomainPost url domain company)
                   (grows_processCrossDomain newURL url domain company)
                   (fun target Hin =>
                      processCrossDomain_triple url domain company target
                        (Hhttp target Hin)))
                (respects_forEach extends_refl extends_trans _ _
                   (grows_processCrossDomain newURL url domain company))
                R3)
      as (st4 & [] & -> & [R4 P4] & X4).
    destruct (String.eqb_spec (labelOf request) "start") as [Hlabel|Hlabel].
    + destruct (enqueueLinks_facts page url domain company st4 R4) as [R5 P5].
      pose proof (grows_enqueueLinks newURL page url domain company st4) as X5.
      split.
      * intros target Hin. eapply stable_crossDomainPost; [exact X5 | apply P4, Hin].
      * intros _. exact P5.
    + unfold ret. cbn [fst]. split; [exact P4|]. intros Hl. contradiction.
Qed.

End Phases.

(** ** Entries of other URLs are never touched *)

Create HintDb frame.

Ltac frame url :=
  repeat step_respects (sameExploredExcept_refl url) (sameExploredExcept_trans url);
  eauto with frame.

Section Frame.

Variable newURL : string -> option URL.

Lemma frame_entryPush_own url x :
  respects (sameExploredExcept url) (entryPush AllExploredUrls url x).
Proof.
  intros st key Hne. unfold entryPush.
  destruct (getRegistry AllExploredUrls st !! url); [|reflexivity].
  cbn. apply lookup_insert_ne. congruence.
Qed.

Lemma frame_entryPush_services url key x :
  respects (sameExploredExcept url) (entryPush PotentialDifferentServices key x).
Proof.
  intros st k Hne. unfold entryPush.
  destruct (getRegistry PotentialDifferentServices st !! key); reflexivity.
Qed.

Lemma frame_entryPush_children url key x :
  respects (sameExploredExcept url) (entryPush StartUrlChildren key x).
Proof.
  intros st k Hne. unfold entryPush.
  destruct (getRegistry StartUrlChildren st !! key); reflexivity.
Qed.

Lemma frame_initEntry_own url :
  respects (sameExploredExcept url) (initEntry AllExploredUrls url).
Proof. intros st key Hne. cbn. apply lookup_insert_ne. congruence. Qed.

Lemma frame_enqueue url r : respects (sameExploredExcept url) (enqueue r).
Proof. intros st key Hne. reflexivity. Qed.

Hint Resolve frame_entryPush_own frame_entryPush_services
  frame_entryPush_children frame_initEntry_own frame_enqueue : frame.

Lemma frame_requestHandler request page :
  respects (sameExploredExcept (Request.url request))
    (requestHandler newURL request page).
Proof.
  unfold requestHandler, originalDomainOf, ensureExplored, trackChild,
    probe, processCrossDomain, enqueueLinks, transformRequestFunction.
  frame (Request.url request).
Qed.

End Frame.

(** ** A request whose URL was never registered *)

Create HintDb unregistered.

Section Unregistered.

Variable newURL : string -> option URL.
Variable url : string.

Lemma keepsUnregistered_refl st : keepsUnregistered url st st.
Proof. intros H. exact H. Qed.

Lemma keepsUnregistered_trans st1 st2 st3 :
  keepsUnregistered url st1 st2 -> keepsUnregistered url st2 st3 ->
  keepsUnregistered url st1 st3.
Proof. intros H12 H23 H. auto. Qed.

Lemma unregistered_entryPush reg key x :
  respects (keepsUnregistered url) (entryPush reg key x).
Proof.
  intros st Hnone. unfold entryPush.
  destruct (getRegistry reg st !! key) as [arr|] eqn:Harr; [|exact Hnone].
  destruct reg; cbn in *; try exact Hnone.
  destruct (decide (key = url)) as [->|Hne]; [congruence|].
  rewrite lookup_insert_ne by assumption. exact Hnone.
Qed.

Lemma unregistered_initExplored key :
  respects (keepsUnregistered url) (initEntry AllExploredUrls key).
Proof. intros st Hnone. exact Hnone. Qed.

Lemma unregistered_enqueue r :
  respects (keepsUnregistered url) (enqueue r).
Proof. intros st Hnone. exact Hnone. Qed.

Hint Resolve unregistered_entryPush unregistered_initExplored
  unregistered_enqueue : unregistered.

Ltac unregistered :=
  repeat step_respects keepsUnregistered_refl keepsUnregistered_trans;
  eauto with unregistered.

Lemma unregistered_ensureExplored key :
  respects (keepsUnregistered url) (ensureExplored key).
Proof. unfold ensureExplored. unregistered. Qed.

Lemma unregistered_trackChild request :
  respects (keepsUnregistered url) (trackChild request).
Proof. unfold trackChild. unregistered. Qed.

Lemma unregistered_probing key label originalDomain companyName links :
  respects (keepsUnregistered url)
    (forEach links (probe newURL key label originalDomain companyName)).
Proof. unfold probe. unregistered. Qed.

(** Probing never throws: every element is handled inside a [try]. *)
Lemma probing_run key label originalDomain companyName links st :
  exists st',
    forEach links (probe newURL key label originalDomain companyName) st
    = (st', Normal tt)
    /\ extends st st'.
Proof.
  revert st. induction links as [|link links IH]; intros st; cbn [forEach].
  - exists st. split; [reflexivity | apply extends_refl].
  - unfold bindH.
    assert (Hp : exists st1,
               probe newURL key label originalDomain companyName link st = (st1, Normal tt)
               /\ extends st st1).
    { pose proof (grows_probe newURL key label originalDomain companyName link st) as Hg.
      assert (Hrun : snd (probe newURL key label originalDomain companyName link st)
                     = Normal tt).
      { unfold probe. destruct (negb _); [|reflexivity].
        unfold tryCatchH.
        match goal with
        | |- context [let (_, _) := ?body st in _] =>
            destruct (body st) as [st1 [[]|e]]; reflexivity
        end. }
      destruct (probe newURL key label originalDomain companyName link st) as [st1 c].
      cbn [fst snd] in *. subst c. eauto. }
    destruct Hp as (st1 & -> & X1). destruct (IH st1) as (st2 & -> & X2).
    exists st2. split; [reflexivity | eapply extends_trans; eassumption].
Qed.

(** The first anchor that passes both tests ends the loop with a
    [TypeError]: [potentialDifferentServices[url]] is [undefined]. *)
Lemma crossDomain_loop_throws originalDomain companyName links st :
  holds (Defined AllExploredUrls url) st ->
  potentialDifferentServices st !! url = None ->
  (exists target, target ∈ links
                  /\ shouldExcludeUrl newURL target = Normal false
                  /\ containsCompanyName companyName target = true) ->
  snd (forEach links (processCrossDomain newURL url originalDomain companyName) st)
  = Thrown TypeError.
Proof.
  intros Hdef Hnone (target & Hin & Hex & Hname).
  induction links as [|link links IH]; [inversion Hin|].
  cbn [forEach]. unfold bindH at 1, processCrossDomain at 1, bindH at 1, liftC.
  destruct (shouldExcludeUrl newURL link) as [[|]|e] eqn:Hlink.
  - (* excluded: skipped *)
    unfold ret at 1. cbv beta iota. apply IH.
    apply elem_of_cons in Hin as [-> | Hin]; [|exact Hin].
    rewrite Hlink in Hex. discriminate Hex.
  - destruct (containsCompanyName companyName link) eqn:Hbrand.
    + (* accepted: recorded as explored, then the lookup fails *)
      unfold bindH.
      destruct (pushIfAbsent_run AllExploredUrls url link st Hdef)
        as (st1 & E & X1 & _).
      pose proof (respects_pushIfAbsent keepsUnregistered_refl
                    keepsUnregistered_trans AllExploredUrls url link
                    (unregistered_entryPush _ _ _) st Hnone) as Hnone1.
      rewrite E in Hnone1 |- *. cbn [fst] in Hnone1.
      unfold pushIfAbsent at 1, bindH, entryIncludes. cbn [getRegistry].
      rewrite Hnone1. reflexivity.
    + unfold ret at 1. cbv beta iota. apply IH.
      apply elem_of_cons in Hin as [-> | Hin]; [|exact Hin].
      rewrite Hbrand in Hname. discriminate Hname.
  - rewrite shouldExcludeUrl_value in Hlink. discriminate.
Qed.

(** Whatever its label, a request whose URL has no entry in
    [potentialDifferentServices] makes the handler throw as soon as its
    page carries a cross-domain anchor that is not excluded and contains
    the company name. *)
Lemma unregistered_brand_anchor_throws request page st :
  Request.url request = url ->
  potentialDifferentServices st !! url = None ->
  (exists target, target ∈ crossDomainLinks page
                  /\ shouldExcludeUrl newURL target = Normal false
                  /\ containsCompanyName (companyNameOf request) target = true) ->
  snd (requestHandler newURL request page st) = Thrown TypeError.
Proof.
  intros Hurl Hnone Hanchor.
  unfold requestHandler, bindH at 1. rewrite originalDomainOf_run, Hurl.
  unfold bindH at 1.
  pose proof (unregistered_ensureExplored url st Hnone) as Hnone1.
  destruct (ensureExplored_run url st) as (st1 & E1 & _ & Hdef1).
  rewrite E1 in Hnone1 |- *. cbn [fst] in Hnone1.
  unfold bindH at 1.
  pose proof (unregistered_trackChild request st1 Hnone1) as Hnone2.
  destruct (trackChild_run request st1) as (st2 & E2 & X2).
  rewrite E2 in Hnone2 |- *. cbn [fst] in Hnone2.
  unfold bindH at 1.
  pose proof (unregistered_probing url (labelOf request)
                (inheritedDomain newURL request) (companyNameOf request)
                (potentialLinks page) st2 Hnone2) as Hnone3.
  destruct (probing_run url (labelOf request) (inheritedDomain newURL request)
              (companyNameOf request) (potentialLinks page) st2)
    as (st3 & E3 & X3).
  rewrite E3 in Hnone3 |- *. cbn [fst] in Hnone3.
  unfold bindH at 1.
  pose proof (crossDomain_loop_throws (inheritedDomain newURL request)
                (companyNameOf request) (crossDomainLinks page) st3
                (X3 _ (X2 _ Hdef1)) Hnone3 Hanchor) as Hthrow.
  destruct (forEach (crossDomainLinks page) _ st3) as [st4 c].
  cbn [snd] in Hthrow. subst c. reflexivity.
Qed.

End Unregistered.

(** ** The scheduler and the whole run *)

Section Run.

Variable newURL : string -> option URL.
Variable web : string -> option Page.

Lemma attempt_completes retries request page st :
  snd (attempt newURL retries request page st) = Normal tt.
Proof.
  revert st. induction retries as [|n IH]; intros st; simpl; unfold tryCatchH;
    destruct (requestHandler newURL request page st) as [st' [[]|e]]; auto.
Qed.

Lemma processRequest_completes request st :
  snd (processRequest newURL web request st) = Normal tt.
Proof.
  unfold processRequest. destruct (web _); [apply attempt_completes | reflexivity].
Qed.

(** When the handler completes, the first attempt is the only one. *)
Lemma attempt_first retries request page st st' :
  requestHandler newURL request page st = (st', Normal tt) ->
  attempt newURL retries request page st = (st', Normal tt).
Proof. intros H. destruct retries; simpl; unfold tryCatchH; rewrite H; reflexivity. Qed.

Lemma crawlLoop_completes budget handled st :
  exists requests, snd (crawlLoop newURL web budget handled st) = Normal requests.
Proof.
  revert handled st. induction budget as [|n IH]; intros handled st; simpl.
  - eexists. reflexivity.
  - destruct (nextRequest handled st) as [request|]; [|eexists; reflexivity].
    unfold bindH. pose proof (processRequest_completes request st) as Hp.
    destruct (processRequest newURL web request st) as [st1 c]. simpl in Hp. subst c.
    destruct (IH (Request.url request :: handled) st1) as [rest Hrest].
    destruct (crawlLoop newURL web n _ st1) as [st2 c]. simpl in Hrest. subst c.
    eexists. reflexivity.
Qed.

Lemma initialRequests_value companies st :
  initialRequests newURL companies st
  = (st, Normal (map (seedRequestOf newURL) companies)).
Proof.
  induction companies as [|c cs IH]; simpl; [reflexivity|].
  unfold bindH, liftC. rewrite extractDomain_value, IH. reflexivity.
Qed.

(** The batch of initial requests is accepted exactly when every company
    URL is. *)
Lemma seeds_accepted companies :
  forallb (fun r => isHttpUrl newURL (Request.url r))
          (map (seedRequestOf newURL) companies)
  = forallb (fun company => isHttpUrl newURL (Company.url company)) companies.
Proof. induction companies as [|c cs IH]; simpl; [|rewrite IH]; reflexivity. Qed.

(** [initRegistries] creates both entries of every company. *)
Lemma initRegistries_run companies st :
  exists st', initRegistries companies st = (st', Normal tt)
              /\ (forall reg key, holds (Defined reg key) st ->
                                  holds (Defined reg key) st')
              /\ forall company, company ∈ companies ->
                                 registered (Company.url company) st'.
Proof.
  unfold initRegistries. revert st.
  induction companies as [|c cs IH]; intros st.
  - exists st. split; [reflexivity|]. split; [auto|]. intros c Hc. inversion Hc.
  - cbn [forEach]. unfold bindH at 1 2, initEntry at 1 2. cbv beta iota.
    set (st1 := setRegistry PotentialDifferentServices _ _).
    assert (Hkeep : forall reg key, holds (Defined reg key) st ->
                                    holds (Defined reg key) st1).
    { intros reg key. unfold st1. cbn [holds].
      rewrite !getRegistry_setRegistry.
      destruct reg; cbn [getRegistry setRegistry];
        try (destruct (decide (Company.url c = key)) as [<-|Hne];
             [rewrite lookup_insert_eq; eauto
             |rewrite lookup_insert_ne by assumption; auto]).
      auto. }
    assert (Hc : registered (Company.url c) st1).
    { unfold st1, registered. cbn [holds].
      rewrite !getRegistry_setRegistry. cbn [getRegistry setRegistry].
      rewrite !lookup_insert_eq. eauto. }
    destruct (IH st1) as (st2 & -> & Hkeep2 & Hall).
    exists st2. split; [reflexivity|]. split; [auto|].
    intros company Hin. apply elem_of_cons in Hin as [-> | Hin]; [|auto].
    destruct Hc. split; apply Hkeep2; assumption.
Qed.

End Run.

Section RunRecords.

Variable newURL : string -> option URL.
Variable web : string -> option Page.

Lemma resolvedUrl_inv link u :
  resolvedUrl link = Some u ->
  LinkType_eqb (link_type link) href = false
  /\ (clicked (elementHandle link) = NewPage u
      \/ clicked (elementHandle link) = SamePage u).
Proof.
  unfold resolvedUrl. destruct (LinkType_eqb _ _); [discriminate|].
  destruct (clicked _); intros H; inversion H; auto.
Qed.

Lemma handlerPost_recorded request page st u :
  handlerPost newURL request page st ->
  recordedWhileHandling newURL request page u ->
  holds (Recorded AllExploredUrls (Request.url request) u) st.
Proof.
  intros (_ & Hprobe & Hrest) [Hrec | [Hrec | Hrec]].
  - destruct Hrec as (link & Hin & Hres & Hne).
    apply resolvedUrl_inv in Hres as [Hty Hclick].
    destruct (Hprobe link Hin Hty) as [Hn Hs].
    destruct Hclick as [Hnew | Hsame].
    + apply (Hn u Hnew Hne).
    + apply (Hs u Hsame Hne).
  - destruct Hrec as (Hhttp & Hin & Hex & Hname).
    destruct (Hrest Hhttp) as [Hcross _]. apply (Hcross u Hin Hex Hname).
  - destruct Hrec as (Hhttp & Hlabel & Hin & Hex & Hne).
    destruct (Hrest Hhttp) as [_ Hcand]. apply (Hcand Hlabel u Hin Hex Hne).
Qed.

(** The retries start from the store the first attempt left. *)
Lemma attempt_extends_first retries request page st :
  extends (fst (requestHandler newURL request page st))
          (fst (attempt newURL retries request page st)).
Proof.
  destruct retries as [|n]; simpl; unfold tryCatchH;
    destruct (requestHandler newURL request page st) as [st' [[]|e]];
    cbn [fst]; try apply extends_refl.
  apply grows_attempt.
Qed.

Lemma processRequest_run seed request st :
  registered seed st ->
  exists st1,
    processRequest newURL web request st = (st1, Normal tt)
    /\ extends st st1
    /\ (Request.url request = seed ->
        forall page u,
          web (Request.url request) = Some page ->
          recordedWhileHandling newURL request page u ->
          holds (Recorded AllExploredUrls seed u) st1).
Proof.
  intros Hreg.
  pose proof (processRequest_completes newURL web request st) as Hdone.
  pose proof (grows_processRequest newURL web request st) as Hgrow.
  destruct (processRequest newURL web request st) as [st1 c] eqn:Hrun.
  cbn [fst snd] in *. subst c. exists st1.
  split; [reflexivity|]. split; [assumption|].
  intros <- page u Hweb Hrec.
  unfold processRequest in Hrun. rewrite Hweb in Hrun.
  pose proof (attempt_extends_first maxRequestRetries request page st) as Hext.
  rewrite Hrun in Hext. cbn [fst] in Hext.
  apply (Hext (Recorded AllExploredUrls (Request.url request) u)).
  eapply handlerPost_recorded; [|exact Hrec].
  apply requestHandler_facts. exact Hreg.
Qed.

Lemma crawlLoop_records seed budget handled st :
  registered seed st ->
  exists st' requests,
    crawlLoop newURL web budget handled st = (st', Normal requests)
    /\ extends st st'
    /\ forall request page u,
         request ∈ requests ->
         Request.url request = seed ->
         web (Request.url request) = Some page ->
         recordedWhileHandling newURL request page u ->
         holds (Recorded AllExploredUrls seed u) st'.
Proof.
  revert handled st. induction budget as [|n IH]; intros handled st Hreg; simpl.
  - exists st, []. split; [reflexivity|]. split; [apply extends_refl|].
    intros request page u Hin. inversion Hin.
  - destruct (nextRequest handled st) as [request|].
    + unfold bindH.
      destruct (processRequest_run seed request st Hreg)
        as (st1 & -> & X1 & Hfirst).
      destruct (IH (Request.url request :: handled) st1
                  (stable_registered _ _ _ X1 Hreg))
        as (st2 & rest & -> & X2 & Hrest).
      exists st2, (request :: rest). split; [reflexivity|].
      split; [eapply extends_trans; eassumption|].
      intros r page u Hin Hseed Hweb Hrec.
      apply elem_of_cons in Hin as [-> | Hin].
      * apply (X2 (Recorded AllExploredUrls seed u)).
        eapply Hfirst; eassumption.
      * eapply Hrest; eassumption.
    + exists st, []. split; [reflexivity|]. split; [apply extends_refl|].
      intros request page u Hin. inversion Hin.
Qed.

(** The crawl starts when the queue accepts the initial requests, that is
    when every company URL is an [http:] or [https:] URL; the run then
    returns the records computed from the final store. *)
Lemma findCompanyServices_returns companies st0 :
  (forall company, company ∈ companies ->
     isHttpUrl newURL (Company.url company) = true) ->
  exists st handled,
    findCompanyServices newURL web companies st0
    = (st, Normal (handled, results companies st))
    /\ crawlLoop newURL web MAX_REQUESTS_PER_CRAWL [] (startStore newURL companies)
       = (st, Normal handled).
Proof.
  intros Hvalid.
  unfold findCompanyServices, crawlerRun, startStore, bindH at 1.
  destruct (initRegistries_run companies emptyStore) as (st1 & E1 & _).
  rewrite E1. cbn [fst]. unfold bindH at 1. rewrite initialRequests_value.
  unfold bindH at 1 2. rewrite addRequests_value, seeds_accepted.
  assert (Hall : forallb (fun company => isHttpUrl newURL (Company.url company))
                   companies = true).
  { apply forallb_forall. intros c Hc. apply Hvalid, list_elem_of_In, Hc. }
  rewrite Hall. cbn [fst].
  destruct (crawlLoop_completes newURL web MAX_REQUESTS_PER_CRAWL []
              (mkStore (potentialDifferentServices st1) (allExploredUrls st1)
                 (startUrlChildren st1)
                 (addedRequests st1 ++ map (seedRequestOf newURL) companies)))
    as [handled Hh].
  destruct (crawlLoop newURL web MAX_REQUESTS_PER_CRAWL [] _) as [st3 c].
  cbn [snd] in Hh. subst c. exists st3, handled. split; reflexivity.
Qed.

(** Otherwise [crawler.run] rejects, with the registries initialised and
    nothing crawled. *)
Lemma findCompanyServices_rejects companies st0 company :
  company ∈ companies ->
  isHttpUrl newURL (Company.url company) = false ->
  findCompanyServices newURL web companies st0
  = (fst (initRegistries companies emptyStore), Thrown ValidationError).
Proof.
  intros Hin Hinvalid.
  unfold findCompanyServices, crawlerRun, bindH at 1.
  destruct (initRegistries_run companies emptyStore) as (st1 & E1 & _).
  rewrite E1. cbn [fst]. unfold bindH at 1. rewrite initialRequests_value.
  unfold bindH at 1 2. rewrite addRequests_value, seeds_accepted.
  assert (Hall : forallb (fun c => isHttpUrl newURL (Company.url c)) companies
                 = false).
  { apply not_true_iff_false. intros H.
    rewrite forallb_forall in H. apply list_elem_of_In in Hin.
    rewrite (H company Hin) in Hinvalid. discriminate Hinvalid. }
  rewrite Hall. reflexivity.
Qed.

(** The registries of every company exist when the crawl starts. *)
Lemma startStore_registered companies company :
  company ∈ companies -> registered (Company.url company) (startStore newURL companies).
Proof.
  intros Hin. unfold startStore.
  destruct (initRegistries_run companies emptyStore) as (st1 & E1 & _ & Hreg).
  rewrite E1. cbn [fst].
  eapply stable_registered; [|apply Hreg, Hin].
  apply (respects_addRequests_all extends_refl extends_trans). apply grows_enqueue.
Qed.

Lemma findCompanyServices_run companies st0 :
  (forall company, company ∈ companies ->
     isHttpUrl newURL (Company.url company) = true) ->
  exists st handled,
    findCompanyServices newURL web companies st0
    = (st, Normal (handled, results companies st))
    /\ forall company request page u,
         company ∈ companies ->
         request ∈ handled ->
         Request.url request = Company.url company ->
         web (Request.url request) = Some page ->
         recordedWhileHandling newURL request page u ->
         holds (Recorded AllExploredUrls (Company.url company) u) st.
Proof.
  intros Hvalid.
  destruct (findCompanyServices_returns companies st0 Hvalid)
    as (st & handled & Hrun & Hloop).
  exists st, handled. split; [exact Hrun|].
  intros company request page u Hin Hreq Hurl Hweb Hrec.
  destruct (crawlLoop_records (Company.url company) MAX_REQUESTS_PER_CRAWL []
              (startStore newURL companies) (startStore_registered companies company Hin))
    as (st' & handled' & Hrun' & _ & Hfacts).
  rewrite Hloop in Hrun'. injection Hrun' as <- <-.
  eapply Hfacts; eassumption.
Qed.

Lemma results_inv companies st rec :
  rec ∈ results companies st ->
  Result.allExploredUrls rec = orEmpty (allExploredUrls st !! Result.url rec)
  /\ Result.potentialDifferentServices rec
     = List.filter (fun serviceUrl => negb (String.eqb serviceUrl (Result.url rec)))
         (orEmpty (potentialDifferentServices st !! Result.url rec)).
Proof.
  unfold results. intros Hin. apply list_elem_of_fmap in Hin as (c & -> & _).
  split; reflexivity.
Qed.

End RunRecords.

(** * The statements of the specification *)

Ltac not_in_array :=
  let H := fresh in
  intros H; apply arrayIncludes_spec in H; vm_compute in H; discriminate H.

(** ** C1 *)

(** C1, at a failing input.  For origin ["https://acme.com/"] and
    candidate ["https://acme.com/admin-portal"] the hostnames are equal and
    the segment ["admin-portal"] matches the indicator ["admin"] at a
    hyphen boundary, but the candidate path ["/admin-portal"] starts with
    the origin path ["/"] and differs from it, so the classifier answers
    [false]: under a seed at the root of a site no path is ever a
    different service. *)
Theorem admin_portal_under_root_suppressed :
  Whatwg.parse "https://acme.com/" = Some (mkURL "https:" "acme.com" "/")
  /\ Whatwg.parse "https://acme.com/admin-portal"
     = Some (mkURL "https:" "acme.com" "/admin-portal")
  /\ pathSegments "/admin-portal" = ["admin-portal"]
  /\ startsWith "admin-portal" ("admin" +:+ "-") = true
  /\ hasToolIndicator (pathSegments "/admin-portal") = true
  /\ startsWith "/admin-portal" "/" && negb (String.eqb "/admin-portal" "/") = true
  /\ isPotentialDifferentService Whatwg.parse
       "https://acme.com/" "https://acme.com/admin-portal" = Normal false.
Proof. repeat split; reflexivity. Qed.

(** The same guard keeps the link ["https://acme.com/admin"] of the
    seed's home page out of the seed's services: the crawl records it as
    explored and goes no further. *)
Example admin_link_of_root_seed_not_reported :
  exists st handled rec,
    findCompanyServices Whatwg.parse Acme.web [Acme.company] emptyStore
    = (st, Normal (handled, [rec]))
    /\ "https://acme.com/admin" ∈ linkCandidates Acme.homePage
    /\ "https://acme.com/admin" ∈ Result.allExploredUrls rec
    /\ "https://acme.com/admin" ∉ Result.potentialDifferentServices rec.
Proof.
  do 3 eexists. split; [vm_compute; reflexivity|].
  split; [left|]. split; [|not_in_array].
  apply arrayIncludes_spec. vm_compute. reflexivity.
Qed.

(** ** C7 *)

(** C7.  For origin ["https://acme.com/blog"] and candidate
    ["https://acme.com/blog/announcing-app-support"] the classifier
    answers [false]: the candidate is not a different service. *)
Theorem blog_slug_not_different :
  Whatwg.parse "https://acme.com/blog" = Some (mkURL "https:" "acme.com" "/blog")
  /\ Whatwg.parse "https://acme.com/blog/announcing-app-support"
     = Some (mkURL "https:" "acme.com" "/blog/announcing-app-support")
  /\ isPotentialDifferentService Whatwg.parse
       "https://acme.com/blog" "https://acme.com/blog/announcing-app-support"
     = Normal false.
Proof. repeat split; reflexivity. Qed.

(** The verdict rests on the candidate path extending the origin path:
    the segment ["announcing-app-support"] does contain ["-app-"], and
    seen from a page outside ["/blog"] the same candidate is classified
    as a different service. *)
Example blog_slug_from_elsewhere :
  segmentMatches "announcing-app-support" "app" = true
  /\ isPotentialDifferentService Whatwg.parse
       "https://acme.com/news" "https://acme.com/blog/announcing-app-support"
     = Normal true.
Proof. split; reflexivity. Qed.

(** ** C6 *)

Lemma results_without_seed companies st :
  Forall (fun rec => Result.url rec ∉ Result.potentialDifferentServices rec)
         (results companies st).
Proof.
  apply Forall_forall. intros rec Hin.
  destruct (results_inv companies st rec Hin) as [_ ->].
  intros Hmem. apply list_elem_of_In, filter_In in Hmem as [_ Hne].
  rewrite String.eqb_refl in Hne. discriminate.
Qed.

Lemma findCompanyServices_records (newURL : string -> option URL)
    (web : string -> option Page) companies st0 st handled records :
  findCompanyServices newURL web companies st0 = (st, Normal (handled, records)) ->
  records = results companies st.
Proof.
  intros Hrun.
  destruct (forallb (fun c => isHttpUrl newURL (Company.url c)) companies) eqn:Hall.
  - destruct (findCompanyServices_returns newURL web companies st0)
      as (st' & handled' & Hrun' & _).
    { intros c Hc. rewrite forallb_forall in Hall.
      apply Hall, list_elem_of_In, Hc. }
    rewrite Hrun' in Hrun. injection Hrun as <- _ <-. reflexivity.
  - apply not_true_iff_false in Hall.
    assert (Hex : exists c, c ∈ companies /\ isHttpUrl newURL (Company.url c) = false).
    { clear Hrun. induction companies as [|c cs IH]; [destruct Hall; reflexivity|].
      destruct (isHttpUrl newURL (Company.url c)) eqn:Hc.
      - destruct IH as (c' & Hin & Hc').
        { intros H. apply Hall. simpl. rewrite Hc, H. reflexivity. }
        exists c'. split; [right; exact Hin | exact Hc'].
      - exists c. split; [left | exact Hc]. }
    destruct Hex as (c & Hin & Hc).
    rewrite (findCompanyServices_rejects newURL web companies st0 c Hin Hc) in Hrun.
    discriminate Hrun.
Qed.

(** C6.  [findCompanyServices] returns whenever every company URL is an
    [http:] or [https:] URL, and in every record it returns the list
    [potentialDifferentServices] does not contain the record's own seed
    URL, whatever the crawl put into the registry. *)
Theorem output_services_exclude_seed (newURL : string -> option URL)
    (web : string -> option Page) (companies : list Company.t) (st0 : Store) :
  ((forall company, company ∈ companies ->
      isHttpUrl newURL (Company.url company) = true) ->
   exists st handled records,
     findCompanyServices newURL web companies st0 = (st, Normal (handled, records)))
  /\ (forall st handled records,
        findCompanyServices newURL web companies st0
        = (st, Normal (handled, records)) ->
        map Result.url records = map Company.url companies
        /\ Forall (fun rec => Result.url rec ∉ Result.potentialDifferentServices rec)
                  records).
Proof.
  split.
  - intros Hvalid.
    destruct (findCompanyServices_returns newURL web companies st0 Hvalid)
      as (st & handled & Hrun & _).
    exists st, handled, (results companies st). exact Hrun.
  - intros st handled records Hrun.
    rewrite (findCompanyServices_records _ _ _ _ _ _ _ Hrun). split.
    + unfold results. rewrite map_map. reflexivity.
    + apply results_without_seed.
Qed.

Lemma output_services_exclude_seed_witness :
  exists st handled records,
    findCompanyServices Whatwg.parse Acme.web [Acme.company] emptyStore
    = (st, Normal (handled, records))
    /\ map Result.url records = ["https://acme.com"]
    /\ Forall (fun rec => Result.url rec ∉ Result.potentialDifferentServices rec)
              records.
Proof.
  destruct (output_services_exclude_seed Whatwg.parse Acme.web [Acme.company]
              emptyStore) as [Hreturns Hrecords].
  destruct Hreturns as (st & handled & records & Hrun).
  { intros company Hc. apply list_elem_of_singleton in Hc as ->. reflexivity. }
  exists st, handled, records. split; [exact Hrun|].
  apply (Hrecords st handled records Hrun).
Defined.

(** Probing that resolves back to the seed, and a registry that already
    holds the seed URL, both leave the record free of it. *)
Example output_filter_drops_seed :
  let st := mkStore {[ "https://acme.com" := ["https://acme.com"; "https://tools.acme.com/"] ]}
                    ∅ ∅ [] in
  map Result.potentialDifferentServices (results [Acme.company] st)
  = [["https://tools.acme.com/"]].
Proof. vm_compute. reflexivity. Qed.

(** ** C4: the cross-domain loop reads a registry that was never set up *)

(** The link phase proper is guarded: a request that is not labelled
    [start] leaves [enqueueLinks] out altogether. *)
Lemma child_handler_without_enqueueLinks (newURL : string -> option URL)
    (request : Request.t) (page : Page) :
  labelOf request <> "start" ->
  requestHandler newURL request page =
  (originalDomain <-- originalDomainOf newURL request ;;
   ensureExplored (Request.url request) ;;;
   trackChild request ;;;
   forEach (potentialLinks page)
     (probe newURL (Request.url request) (labelOf request) originalDomain
            (companyNameOf request)) ;;;
   forEach (crossDomainLinks page)
     (processCrossDomain newURL (Request.url request) originalDomain
        (companyNameOf request)) ;;;
   ret tt)%handler.
Proof.
  intros Hlabel. unfold requestHandler.
  destruct (String.eqb_spec (labelOf request) "start"); [contradiction | reflexivity].
Qed.

(** C4, at a failing input.  The status site was enqueued as a child of
    the seed; its URL has no entry in [potentialDifferentServices].  Its
    page carries one cross-domain anchor that is not excluded and contains
    the company name, and handling the request throws a [TypeError]. *)
Theorem child_with_brand_anchor_throws :
  let run := requestHandler Whatwg.parse Acme.statusRequest Acme.statusPage
               Acme.freshStore in
  labelOf Acme.statusRequest = "child"
  /\ potentialDifferentServices Acme.freshStore !! Request.url Acme.statusRequest
     = None
  /\ crossDomainLinks Acme.statusPage = ["https://acme-docs.dev/"]
  /\ shouldExcludeUrl Whatwg.parse "https://acme-docs.dev/" = Normal false
  /\ containsCompanyName (companyNameOf Acme.statusRequest) "https://acme-docs.dev/"
     = true
  /\ snd run = Thrown TypeError
  /\ allExploredUrls (fst run) !! "https://acme-status.io/"
     = Some ["https://acme-docs.dev/"]
  /\ addedRequests (fst run) = [].
Proof. vm_compute. repeat split; reflexivity. Qed.

(** In a whole run the status request is handled, after the seed's own
    request put it on the queue, and its three attempts all throw. *)
Example status_request_is_handled :
  exists st records,
    findCompanyServices Whatwg.parse Acme.web [Acme.company] emptyStore
    = (st, Normal ([Acme.seedRequest; Acme.toolsRequest; Acme.statusRequest],
                   records)).
Proof. do 2 eexists. vm_compute. reflexivity. Qed.

(** ** C5 *)

Lemma LinkType_eqb_neq (a b : LinkType) : a <> b -> LinkType_eqb a b = false.
Proof. destruct a, b; intros H; try reflexivity; contradiction. Qed.

Lemma pushIfAbsent_keeps_queue reg key x st :
  addedRequests (fst (pushIfAbsent reg key x st)) = addedRequests st.
Proof.
  unfold pushIfAbsent, bindH, entryIncludes, entryPush, ret.
  destruct (getRegistry reg st !! key) as [arr|] eqn:Harr; [|reflexivity].
  destruct (arrayIncludes arr x); [reflexivity|].
  rewrite Harr. apply addedRequests_setRegistry.
Qed.

(** Probing an element that navigates in place never calls [addRequests]. *)
Lemma probe_in_place_keeps_queue (newURL : string -> option URL)
    url label originalDomain companyName link u st :
  clicked (elementHandle link) = SamePage u ->
  addedRequests (fst (probe newURL url label originalDomain companyName link st))
  = addedRequests st.
Proof.
  intros Hclick. unfold probe, tryCatchH. rewrite Hclick.
  destruct (negb (LinkType_eqb _ _)); [|reflexivity].
  destruct (negb (String.eqb u url)); [|reflexivity].
  unfold bindH.
  pose proof (pushIfAbsent_keeps_queue AllExploredUrls url u st) as H1.
  destruct (pushIfAbsent AllExploredUrls url u st) as [st1 [[]|e]];
    cbn [fst] in *; [|assumption].
  destruct (String.eqb label "start"); [|assumption].
  pose proof (pushIfAbsent_keeps_queue PotentialDifferentServices url u st1) as H2.
  destruct (pushIfAbsent PotentialDifferentServices url u st1) as [st2 [[]|e]];
    unfold ret; cbn [fst] in *; (etransitivity; [exact H2 | exact H1]).
Qed.

(** Probing an element whose new tab shows a URL that the queue rejects
    adds no request either: the rejection is caught with the click errors. *)
Lemma probe_rejected_keeps_queue (newURL : string -> option URL)
    url label originalDomain companyName link u st :
  clicked (elementHandle link) = NewPage u ->
  isHttpUrl newURL u = false ->
  addedRequests (fst (probe newURL url label originalDomain companyName link st))
  = addedRequests st.
Proof.
  intros Hclick Hinvalid. unfold probe, tryCatchH. rewrite Hclick.
  destruct (negb (LinkType_eqb _ _)); [|reflexivity].
  destruct (String.eqb u url); [reflexivity|].
  unfold bindH.
  pose proof (pushIfAbsent_keeps_queue AllExploredUrls url u st) as H1.
  destruct (pushIfAbsent AllExploredUrls url u st) as [st1 [[]|e]];
    cbn [fst] in *; [|assumption].
  destruct (String.eqb label "start"); [|assumption].
  pose proof (pushIfAbsent_keeps_queue PotentialDifferentServices url u st1) as H2.
  destruct (pushIfAbsent PotentialDifferentServices url u st1) as [st2 [[]|e]];
    cbn [fst] in *; [|etransitivity; [exact H2 | exact H1]].
  rewrite addRequests_one_rejected by exact Hinvalid.
  unfold ret. cbn [fst]. etransitivity; [exact H2 | exact H1].
Qed.

(** C5, as stated, fails: on the seed's home page the button that
    navigates in place resolves to the pricing page, which differs from
    the seed URL, and no request for it is ever added. *)
Lemma in_place_navigation_not_enqueued :
  let run := requestHandler Whatwg.parse Acme.seedRequest Acme.homePage
               Acme.freshStore in
  labelOf Acme.seedRequest = "start"
  /\ (exists link, link ∈ potentialLinks Acme.homePage
                   /\ clicked (elementHandle link)
                      = SamePage "https://acme.com/pricing")
  /\ "https://acme.com/pricing" <> Request.url Acme.seedRequest
  /\ snd run = Normal tt
  /\ forall r, r ∈ addedRequests (fst run) ->
               Request.url r <> "https://acme.com/pricing".
Proof.
  split; [reflexivity|]. split; [|split; [discriminate|split; [reflexivity|]]].
  - exists (plainLink button_element (Acme.button (SamePage "https://acme.com/pricing"))).
    split; [|reflexivity].
    vm_compute. right. left.
  - intros r Hr Hurl.
    assert (Hnone : existsb (fun r => String.eqb (Request.url r) "https://acme.com/pricing")
                      (addedRequests
                         (fst (requestHandler Whatwg.parse Acme.seedRequest
                                 Acme.homePage Acme.freshStore))) = false)
      by (vm_compute; reflexivity).
    apply not_true_iff_false in Hnone. apply Hnone.
    apply existsb_exists. exists r. split.
    + apply list_elem_of_In. exact Hr.
    + apply String.eqb_eq. exact Hurl.
Qed.

(** C5, amended.  For every [start]-labelled request whose registries
    were initialised, and whether the handler goes on to complete or to
    throw, every URL that the prober resolves and that differs from the
    page's original URL is in [allExploredUrls] and in
    [potentialDifferentServices] of the request URL.  When it came from a
    new browsing context and is an [http:] or [https:] URL it is moreover
    enqueued as a [child] request carrying the seed's domain and company
    name and pushed onto [startUrlChildren]; probing a new context whose
    URL the queue rejects, or an in-place navigation, adds no request. *)
Theorem seed_probe_recordings (newURL : string -> option URL)
    (request : Request.t) (page : Page) (st : Store) :
  labelOf request = "start" ->
  registered (Request.url request) st ->
  let url := Request.url request in
  let domain := inheritedDomain newURL request in
  let company := companyNameOf request in
  let st' := fst (requestHandler newURL request page st) in
  forall link u,
    link ∈ potentialLinks page -> link_type link <> href -> u <> url ->
    (clicked (elementHandle link) = NewPage u ->
       u ∈ orEmpty (allExploredUrls st' !! url)
       /\ u ∈ orEmpty (potentialDifferentServices st' !! url)
       /\ (isHttpUrl newURL u = true ->
           childRequest url domain company u ∈ addedRequests st'
           /\ u ∈ orEmpty (startUrlChildren st' !! url))
       /\ (isHttpUrl newURL u = false ->
           forall st0,
             addedRequests
               (fst (probe newURL url (labelOf request) domain company link st0))
             = addedRequests st0))
    /\ (clicked (elementHandle link) = SamePage u ->
        u ∈ orEmpty (allExploredUrls st' !! url)
        /\ u ∈ orEmpty (potentialDifferentServices st' !! url)
        /\ forall st0,
             addedRequests
               (fst (probe newURL url (labelOf request) domain company link st0))
             = addedRequests st0).
Proof.
  intros Hlabel Hreg url domain company st' link u Hin Hty Hne.
  destruct (requestHandler_facts newURL request page st Hreg)
    as (_ & Hprobe & _).
  destruct (Hprobe link Hin (LinkType_eqb_neq _ _ Hty)) as [Hnew Hsame]. split.
  - intros Hclick. destruct (Hnew u Hclick Hne) as (He & Hrest).
    destruct (Hrest Hlabel) as (Hs & Hq).
    apply recorded_iff in He, Hs.
    split; [exact He|]. split; [exact Hs|]. split.
    + intros Hvalid. destruct (Hq Hvalid) as [Hadded Hc].
      apply recorded_iff in Hc. auto.
    + intros Hinvalid st0. eapply probe_rejected_keeps_queue; eassumption.
  - intros Hclick. destruct (Hsame u Hclick Hne) as (He & Hrest).
    specialize (Hrest Hlabel). apply recorded_iff in He, Hrest.
    split; [assumption|]. split; [assumption|].
    intros st0. eapply probe_in_place_keeps_queue. eassumption.
Qed.

Lemma seed_probe_recordings_witness :
  let st' := fst (requestHandler Whatwg.parse Acme.seedRequest Acme.homePage
                    Acme.freshStore) in
  "https://tools.acme.com/" ∈ orEmpty (potentialDifferentServices st' !! "https://acme.com")
  /\ Acme.toolsRequest ∈ addedRequests st'
  /\ "https://acme.com/pricing" ∈ orEmpty (potentialDifferentServices st' !! "https://acme.com").
Proof.
  assert (Hlabel : labelOf Acme.seedRequest = "start") by reflexivity.
  assert (Hreg : registered (Request.url Acme.seedRequest) Acme.freshStore).
  { split; vm_compute; eauto. }
  pose proof (seed_probe_recordings Whatwg.parse Acme.seedRequest Acme.homePage
                Acme.freshStore Hlabel Hreg) as Hall.
  cbv zeta in Hall |- *.
  assert (Hin : forall outcome,
             outcome = NewPage "https://tools.acme.com/"
             \/ outcome = SamePage "https://acme.com/pricing" ->
             plainLink button_element (Acme.button outcome)
             ∈ potentialLinks Acme.homePage).
  { intros outcome [-> | ->]; vm_compute; [left | right; left]. }
  destruct (Hall (plainLink button_element (Acme.button (NewPage "https://tools.acme.com/")))
              "https://tools.acme.com/" (Hin _ (or_introl eq_refl)))
    as [Hnew _]; [discriminate | discriminate |].
  destruct (Hall (plainLink button_element (Acme.button (SamePage "https://acme.com/pricing")))
              "https://acme.com/pricing" (Hin _ (or_intror eq_refl)))
    as [_ Hsame]; [discriminate | discriminate |].
  destruct (Hnew eq_refl) as (_ & Hs & Hq & _).
  destruct (Hsame eq_refl) as (_ & Hs' & _).
  destruct (Hq eq_refl) as [Hadded _].
  auto.
Defined.

(** A button of the seed's page that opens an empty tab: the URL is
    recorded as explored and as a service, and nothing is enqueued for it. *)
Example empty_tab_recorded_not_enqueued :
  let run := requestHandler Whatwg.parse Acme.seedRequest Acme.downloadsPage
               Acme.freshStore in
  isHttpUrl Whatwg.parse "about:blank" = false
  /\ potentialDifferentServices (fst run) !! "https://acme.com"
     = Some ["about:blank"; "ftp://files.acme-mirror.io/pub"]
  /\ startUrlChildren (fst run) !! "https://acme.com" = Some []
  /\ addedRequests (fst run) = [].
Proof. vm_compute. repeat split; reflexivity. Qed.

(** ** C10 *)

(** With an empty company name the brand-token test accepts every URL. *)
Lemma empty_name_matches_everything (target : string) :
  containsCompanyName "" target = true.
Proof. unfold containsCompanyName. apply includes_empty. Qed.

(** C10, as stated, fails: a child request with an empty company name,
    whose URL has no entry in [potentialDifferentServices], throws at the
    first accepted anchor; the anchor is neither recorded as a discovered
    service nor enqueued. *)
Lemma nameless_child_anchor_not_enqueued :
  let run := requestHandler Whatwg.parse Acme.namelessStatusRequest
               Acme.statusPage Acme.freshStore in
  companyNameOf Acme.namelessStatusRequest = ""
  /\ "https://acme-docs.dev/" ∈ crossDomainLinks Acme.statusPage
  /\ shouldExcludeUrl Whatwg.parse "https://acme-docs.dev/" = Normal false
  /\ snd run = Thrown TypeError
  /\ potentialDifferentServices (fst run) !! "https://acme-status.io/" = None
  /\ addedRequests (fst run) = [].
Proof.
  split; [reflexivity|]. split; [vm_compute; left|].
  vm_compute. repeat split; reflexivity.
Qed.

(** It fails for a seed as well when an accepted anchor is not an
    [http:] or [https:] URL: the queue rejects the request, the handler
    throws, and the anchors after it are not looked at. *)
Example nameless_seed_file_anchor_aborts :
  let run := requestHandler Whatwg.parse Acme.namelessSeedRequest
               Acme.downloadsPage Acme.freshStore in
  crossDomainLinks Acme.downloadsPage
  = ["ftp://files.acme-mirror.io/pub"; "https://acme-status.io/"]
  /\ shouldExcludeUrl Whatwg.parse "ftp://files.acme-mirror.io/pub" = Normal false
  /\ isHttpUrl Whatwg.parse "ftp://files.acme-mirror.io/pub" = false
  /\ snd run = Thrown ValidationError
  /\ allExploredUrls (fst run) !! "https://acme.com"
     = Some ["about:blank"; "ftp://files.acme-mirror.io/pub"]
  /\ startUrlChildren (fst run) !! "https://acme.com" = Some []
  /\ addedRequests (fst run) = [].
Proof. vm_compute. repeat split; reflexivity. Qed.

(** C10, amended.  For every [start]-labelled request whose registries
    were initialised and whose company name is empty, the brand-token
    test accepts every cross-domain anchor that is not excluded.  When
    all of these anchors are [http:] or [https:] URLs, each of them is in
    [allExploredUrls], in [potentialDifferentServices] and in
    [startUrlChildren] of the request URL and is enqueued as a [child]
    request, whether the handler goes on to complete or to throw. *)
Theorem nameless_seed_accepts_every_anchor (newURL : string -> option URL)
    (request : Request.t) (page : Page) (st : Store) (target : string) :
  labelOf request = "start" ->
  companyNameOf request = "" ->
  registered (Request.url request) st ->
  (forall anchor, anchor ∈ crossDomainLinks page ->
     shouldExcludeUrl newURL anchor = Normal false ->
     isHttpUrl newURL anchor = true) ->
  target ∈ crossDomainLinks page ->
  shouldExcludeUrl newURL target = Normal false ->
  let url := Request.url request in
  let st' := fst (requestHandler newURL request page st) in
  containsCompanyName (companyNameOf request) target = true
  /\ target ∈ orEmpty (allExploredUrls st' !! url)
  /\ target ∈ orEmpty (potentialDifferentServices st' !! url)
  /\ childRequest url (inheritedDomain newURL request) "" target
     ∈ addedRequests st'
  /\ target ∈ orEmpty (startUrlChildren st' !! url).
Proof.
  intros _ Hname Hreg Hhttp Hin Hex url st'.
  assert (Hbrand : containsCompanyName (companyNameOf request) target = true)
    by (rewrite Hname; apply empty_name_matches_everything).
  split; [exact Hbrand|].
  destruct (requestHandler_facts newURL request page st Hreg)
    as (_ & _ & Hrest).
  destruct Hrest as [Hcross _].
  { intros anchor Ha Hexa _. apply Hhttp; assumption. }
  destruct (Hcross target Hin Hex Hbrand) as (He & Hs & Hq & Hc).
  rewrite Hname in Hq. apply recorded_iff in He, Hs, Hc. auto.
Qed.

Lemma nameless_seed_accepts_every_anchor_witness :
  let st' := fst (requestHandler Whatwg.parse Acme.namelessSeedRequest
                    Acme.homePage Acme.freshStore) in
  containsCompanyName "" "https://acme-status.io/" = true
  /\ "https://acme-status.io/"
     ∈ orEmpty (potentialDifferentServices st' !! "https://acme.com")
  /\ Acme.namelessStatusRequest ∈ addedRequests st'.
Proof.
  assert (Hreg : registered (Request.url Acme.namelessSeedRequest) Acme.freshStore).
  { split; vm_compute; eauto. }
  assert (Hin : "https://acme-status.io/" ∈ crossDomainLinks Acme.homePage).
  { vm_compute. right. left. }
  assert (Hhttp : forall anchor, anchor ∈ crossDomainLinks Acme.homePage ->
             shouldExcludeUrl Whatwg.parse anchor = Normal false ->
             isHttpUrl Whatwg.parse anchor = true).
  { intros anchor Ha _. vm_compute in Ha.
    apply elem_of_cons in Ha as [-> | Ha]; [reflexivity|].
    apply list_elem_of_singleton in Ha as ->. reflexivity. }
  destruct (nameless_seed_accepts_every_anchor Whatwg.parse
              Acme.namelessSeedRequest Acme.homePage Acme.freshStore
              "https://acme-status.io/" eq_refl eq_refl Hreg Hhttp Hin eq_refl)
    as (Hbrand & _ & Hs & Hq & _).
  cbv zeta. split; [exact Hbrand|]. auto.
Defined.

(** ** C2 *)

(** C2, as stated, fails: the tools request is rooted at the seed and is
    handled; its page navigates in place to the settings page; the
    seed's record does not list the settings page. *)
Lemma child_observation_missing_from_seed_record :
  exists st handled records,
    findCompanyServices Whatwg.parse Acme.web [Acme.company] emptyStore
    = (st, Normal (handled, records))
    /\ Acme.toolsRequest ∈ handled
    /\ rootedAt "https://acme.com" Acme.toolsRequest
    /\ Acme.web (Request.url Acme.toolsRequest) = Some Acme.toolsPage
    /\ observed Acme.toolsPage "https://tools.acme.com/settings"
    /\ allExploredUrls st !! "https://tools.acme.com/"
       = Some ["https://tools.acme.com/settings"]
    /\ exists rec,
         rec ∈ records
         /\ Result.url rec = "https://acme.com"
         /\ "https://tools.acme.com/settings" ∉ Result.allExploredUrls rec.
Proof.
  do 3 eexists. split; [vm_compute; reflexivity|].
  split; [right; left|]. split; [right; reflexivity|].
  split; [reflexivity|]. split.
  - left.
    exists (plainLink button_element
              (Acme.button (SamePage "https://tools.acme.com/settings"))).
    split; [vm_compute; left | reflexivity].
  - split; [vm_compute; reflexivity|].
    eexists. split; [left|]. split; [reflexivity|]. not_in_array.
Qed.

(** C2, amended.  When every company URL is an [http:] or [https:] URL
    the run returns.  The [allExploredUrls] list of a seed's record is the
    registry entry of the seed URL, and it contains what the handler
    recorded while handling a request whose own URL is the seed URL: each
    URL resolved by the prober other than the seed URL; and, provided
    every cross-domain anchor of the page that is not excluded and
    contains the company name is an [http:] or [https:] URL, each such
    anchor and, for a [start]-labelled request, each link candidate that
    is not excluded and differs from the seed URL.  Handling a request
    changes [allExploredUrls] at the request's own URL only: while a child
    on another URL is handled, the seed's entry stays exactly as it was. *)
Theorem seed_record_lists_own_recordings (newURL : string -> option URL)
    (web : string -> option Page) (companies : list Company.t) (st0 : Store)
    (company : Company.t) :
  (forall c, c ∈ companies -> isHttpUrl newURL (Company.url c) = true) ->
  company ∈ companies ->
  exists st handled records,
    findCompanyServices newURL web companies st0 = (st, Normal (handled, records))
    /\ (forall rec, rec ∈ records ->
          Result.allExploredUrls rec
          = orEmpty (allExploredUrls st !! Result.url rec))
    /\ (forall request page u rec,
          request ∈ handled ->
          Request.url request = Company.url company ->
          web (Request.url request) = Some page ->
          recordedWhileHandling newURL request page u ->
          rec ∈ records ->
          Result.url rec = Company.url company ->
          u ∈ Result.allExploredUrls rec)
    /\ (forall request page st1 key,
          key <> Request.url request ->
          allExploredUrls (fst (requestHandler newURL request page st1)) !! key
          = allExploredUrls st1 !! key).
Proof.
  intros Hvalid Hcompany.
  destruct (findCompanyServices_run newURL web companies st0 Hvalid)
    as (st & handled & Hrun & Hfacts).
  exists st, handled, (results companies st).
  split; [exact Hrun|]. split; [|split].
  - intros rec Hrec. apply (results_inv companies st rec Hrec).
  - intros request page u rec Hreq Hurl Hweb Hrecd Hrec Hrurl.
    destruct (results_inv companies st rec Hrec) as [-> _]. rewrite Hrurl.
    apply (recorded_iff AllExploredUrls). eapply Hfacts; eassumption.
  - intros request page st1 key Hne.
    apply (frame_requestHandler newURL request page st1 key Hne).
Qed.

Lemma seed_record_lists_own_recordings_witness :
  exists st handled records,
    findCompanyServices Whatwg.parse Acme.web [Acme.company] emptyStore
    = (st, Normal (handled, records))
    /\ forall rec, rec ∈ records -> Result.url rec = "https://acme.com" ->
         "https://tools.acme.com/" ∈ Result.allExploredUrls rec
         /\ "https://acme-status.io/" ∈ Result.allExploredUrls rec
         /\ "https://acme.com/about" ∈ Result.allExploredUrls rec.
Proof.
  assert (Hvalid : forall c, c ∈ [Acme.company] ->
             isHttpUrl Whatwg.parse (Company.url c) = true).
  { intros c Hc. apply list_elem_of_singleton in Hc as ->. reflexivity. }
  assert (Hcompany : Acme.company ∈ [Acme.company]) by left.
  destruct (seed_record_lists_own_recordings Whatwg.parse Acme.web
              [Acme.company] emptyStore Acme.company Hvalid Hcompany)
    as (st & handled & records & Hrun & _ & Hall & _).
  exists st, handled, records. split; [exact Hrun|].
  assert (Hseed : Acme.seedRequest ∈ handled).
  { vm_compute in Hrun. injection Hrun as _ <- _. left. }
  assert (Hhttp : httpAnchors Whatwg.parse Acme.seedRequest Acme.homePage).
  { intros anchor Ha _ _. vm_compute in Ha.
    apply elem_of_cons in Ha as [-> | Ha]; [reflexivity|].
    apply list_elem_of_singleton in Ha as ->. reflexivity. }
  intros rec Hrec Hurl.
  repeat split;
    apply (Hall Acme.seedRequest Acme.homePage _ rec Hseed eq_refl eq_refl);
    try assumption.
  - left.
    exists (plainLink button_element (Acme.button (NewPage "https://tools.acme.com/"))).
    split; [vm_compute; left|]. split; [reflexivity | discriminate].
  - right. left. split; [exact Hhttp|].
    split; [vm_compute; right; left|]. split; reflexivity.
  - right. right. split; [exact Hhttp|]. split; [reflexivity|].
    split; [right; left|]. split; [reflexivity | discriminate].
Defined.

(** On a seed's page whose first accepted anchor is a file server, the
    handler aborts there at every attempt: the anchor after it and the
    link candidates are never recorded. *)
Example recordings_cut_short_by_rejected_anchor :
  let web := fun url => if String.eqb url "https://acme.com"
                        then Some Acme.downloadsPage else None in
  exists st handled rec,
    findCompanyServices Whatwg.parse web [Acme.company] emptyStore
    = (st, Normal (handled, [rec]))
    /\ Result.allExploredUrls rec = ["about:blank"; "ftp://files.acme-mirror.io/pub"]
    /\ "https://acme-status.io/" ∈ crossDomainLinks Acme.downloadsPage
    /\ "https://acme.com/about" ∈ linkCandidates Acme.downloadsPage.
Proof.
  do 3 eexists. split; [vm_compute; reflexivity|].
  split; [reflexivity|]. split; [vm_compute; right; left | left].
Qed.

(** * Further properties of the classifier *)

Section MoreStrings.

Lemma app_assoc_string (a b c : string) : (a +:+ b) +:+ c = a +:+ (b +:+ c).
Proof.
  induction a as [|ch a IH]; [reflexivity|].
  rewrite !app_cons, IH. reflexivity.
Qed.

Lemma includes_nil (sub : string) : includes "" sub = String.prefix sub "".
Proof. unfold includes. apply orb_false_r. Qed.

Lemma includes_cons (c : ascii) (s sub : string) :
  includes (String c s) sub = String.prefix sub (String c s) || includes s sub.
Proof. reflexivity. Qed.

Lemma includes_spec (s sub : string) :
  includes s sub = true <-> exists pre post, s = pre +:+ sub +:+ post.
Proof.
  induction s as [|c s IH].
  - rewrite includes_nil, prefix_spec. split.
    + intros [rest H]. exists "", rest. exact H.
    + intros (pre & post & H). destruct pre; [|discriminate].
      exists post. exact H.
  - rewrite includes_cons, orb_true_iff, prefix_spec, IH. split.
    + intros [[rest H] | (pre & post & ->)].
      * exists "", rest. exact H.
      * exists (String c pre), post. reflexivity.
    + intros (pre & post & H). destruct pre as [|d pre].
      * left. exists post. exact H.
      * right. rewrite app_cons in H. injection H as _ H. eauto.
Qed.

End MoreStrings.

Section MoreClassifier.

Variable newURL : string -> option URL.

(** X5. A segment without a hyphen passes the indicator test only by
    being the indicator itself: [application] is no match for [app]. *)
Lemma segmentMatches_without_hyphen (segment indicator : string) :
  includes segment "-" = false ->
  segmentMatches segment indicator = String.eqb segment indicator.
Proof.
  intros Hno. unfold segmentMatches.
  assert (Hnot : forall pre post, segment <> pre +:+ "-" +:+ post).
  { intros pre post H. apply not_true_iff_false in Hno. apply Hno.
    apply includes_spec. eauto. }
  destruct (startsWith segment (indicator +:+ "-")) eqn:H1.
  { apply startsWith_spec in H1 as [rest H].
    rewrite app_assoc_string in H. destruct (Hnot _ _ H). }
  destruct (endsWith segment ("-" +:+ indicator)) eqn:H2.
  { apply endsWith_spec in H2 as [pre H]. destruct (Hnot _ _ H). }
  destruct (includes segment ("-" +:+ indicator +:+ "-")) eqn:H3.
  { apply includes_spec in H3 as (pre & post & H).
    change ("-" +:+ indicator +:+ "-") with ("-" +:+ (indicator +:+ "-")) in H.
    rewrite (app_assoc_string "-"), (app_assoc_string indicator) in H.
    destruct (Hnot _ _ H). }
  rewrite !orb_false_r. reflexivity.
Qed.

Lemma existsb_swap {A B} (f : A -> B -> bool) (la : list A) (lb : list B) :
  existsb (fun a => existsb (fun b => f a b) lb) la
  = existsb (fun b => existsb (fun a => f a b) la) lb.
Proof.
  apply eq_true_iff_eq. rewrite !existsb_exists. split.
  - intros (a & Ha & H). apply existsb_exists in H as (b & Hb & H).
    exists b. split; [assumption|]. apply existsb_exists. eauto.
  - intros (b & Hb & H). apply existsb_exists in H as (a & Ha & H).
    exists a. split; [assumption|]. apply existsb_exists. eauto.
Qed.

Lemma isSameCompany_value (originalDomain targetUrl : string) :
  isSameCompany newURL originalDomain targetUrl =
  Normal (match newURL targetUrl with
          | Some u =>
              String.eqb (hostname u) originalDomain
              || endsWith (hostname u) ("." +:+ originalDomain)
              || hasToolIndicator (pathSegments (toLowerCase (pathname u)))
          | None => String.eqb "" originalDomain
          end).
Proof.
  unfold isSameCompany. rewrite extractDomain_value. unfold constructURL.
  destruct (newURL targetUrl) as [u|]; cbn [bindC tryCatch].
  - destruct (String.eqb (hostname u) originalDomain); [reflexivity|].
    destruct (endsWith (hostname u) _); [reflexivity|].
    cbn [orb]. unfold hasToolIndicator. rewrite existsb_swap. reflexivity.
  - destruct (String.eqb "" originalDomain); [reflexivity|].
    assert (H : endsWith "" ("." +:+ originalDomain) = false) by reflexivity.
    rewrite H. reflexivity.
Qed.

End MoreClassifier.

Lemma segmentMatches_without_hyphen_witness :
  includes "application" "-" = false
  /\ segmentMatches "application" "app" = String.eqb "application" "app".
Proof.
  split; [reflexivity|].
  apply (segmentMatches_without_hyphen "application" "app"). reflexivity.
Defined.

(** X4. From an origin whose path is the root, no candidate on the
    origin's own host is classified as a different service, whatever
    indicator its path carries: every path extends [/]. *)
Theorem root_origin_same_host_never_different (newURL : string -> option URL)
    (originalUrl targetUrl : string) (o t : URL) :
  newURL originalUrl = Some o ->
  newURL targetUrl = Some t ->
  hostname o = hostname t ->
  toLowerCase (pathname o) = "/" ->
  startsWith (pathname t) "/" = true ->
  isPotentialDifferentService newURL originalUrl targetUrl = Normal false.
Proof. apply root_origin_never_flags_same_host. Qed.

Lemma root_origin_same_host_never_different_witness :
  isPotentialDifferentService Whatwg.parse
    "https://acme.com" "https://acme.com/dashboard/login" = Normal false.
Proof.
  apply (root_origin_same_host_never_different Whatwg.parse
           "https://acme.com" "https://acme.com/dashboard/login"
           (mkURL "https:" "acme.com" "/")
           (mkURL "https:" "acme.com" "/dashboard/login"));
    reflexivity.
Defined.

(** X1. [isPotentialDifferentService] never throws, and answers [false]
    whenever the origin or the candidate does not parse as a URL. *)
Theorem isPotentialDifferentService_soft_failure
    (newURL : string -> option URL) (originalUrl targetUrl : string) :
  (exists b, isPotentialDifferentService newURL originalUrl targetUrl = Normal b)
  /\ (newURL originalUrl = None \/ newURL targetUrl = None ->
      isPotentialDifferentService newURL originalUrl targetUrl = Normal false).
Proof.
  split; [apply isPotentialDifferentService_normal|].
  intros Hbad. unfold isPotentialDifferentService.
  rewrite shouldExcludeUrl_value. unfold bindC at 1, constructURL.
  destruct (_ || onDenyList _); [reflexivity|].
  destruct (newURL originalUrl); [|reflexivity].
  destruct (newURL targetUrl); [|reflexivity].
  destruct Hbad; discriminate.
Qed.

Lemma isPotentialDifferentService_soft_failure_witness :
  isPotentialDifferentService Whatwg.parse "https://acme.com/" "/pricing"
  = Normal false.
Proof.
  apply (isPotentialDifferentService_soft_failure Whatwg.parse
           "https://acme.com/" "/pricing").
  right. reflexivity.
Defined.

(** X2. When both URLs parse and their hostnames differ, the verdict is
    [true] unless the candidate is excluded: an excluded candidate is
    never a different service, any other host always is, whatever the
    paths. *)
Theorem different_host_verdict (newURL : string -> option URL)
    (originalUrl targetUrl : string) (o t : URL) (excluded : bool) :
  newURL originalUrl = Some o ->
  newURL targetUrl = Some t ->
  hostname o <> hostname t ->
  shouldExcludeUrl newURL targetUrl = Normal excluded ->
  isPotentialDifferentService newURL originalUrl targetUrl
  = Normal (negb excluded).
Proof.
  intros Ho Ht Hhost Hex. unfold isPotentialDifferentService.
  rewrite Hex. unfold bindC at 1. destruct excluded; [reflexivity|].
  unfold constructURL. rewrite Ho, Ht. cbn [bindC tryCatch].
  apply String.eqb_neq in Hhost. rewrite Hhost. reflexivity.
Qed.

Lemma different_host_verdict_witness :
  isPotentialDifferentService Whatwg.parse
    "https://acme.com/" "https://app.acme.com/dashboard" = Normal true
  /\ isPotentialDifferentService Whatwg.parse
       "https://acme.com/" "https://www.github.com/acme" = Normal false.
Proof.
  split.
  - apply (different_host_verdict Whatwg.parse _ _
             (mkURL "https:" "acme.com" "/")
             (mkURL "https:" "app.acme.com" "/dashboard") false);
      [reflexivity | reflexivity | discriminate | reflexivity].
  - apply (different_host_verdict Whatwg.parse _ _
             (mkURL "https:" "acme.com" "/")
             (mkURL "https:" "www.github.com" "/acme") true);
      [reflexivity | reflexivity | discriminate | reflexivity].
Defined.

(** X3. On the origin's own host, a candidate whose lower-cased path
    equals the origin's is a different service exactly when that path has
    an indicator segment: the sub-path rule only suppresses strictly
    longer paths, so a page under [/login] classifies its own URL with
    another query string as a different service. *)
Theorem same_path_verdict (newURL : string -> option URL)
    (originalUrl targetUrl : string) (o t : URL) :
  newURL originalUrl = Some o ->
  newURL targetUrl = Some t ->
  hostname o = hostname t ->
  toLowerCase (pathname t) = toLowerCase (pathname o) ->
  shouldExcludeUrl newURL targetUrl = Normal false ->
  isPotentialDifferentService newURL originalUrl targetUrl
  = Normal (hasToolIndicator (pathSegments (toLowerCase (pathname o)))).
Proof.
  intros Ho Ht Hhost Hpath Hex. unfold isPotentialDifferentService.
  rewrite Hex. unfold bindC at 1, constructURL. rewrite Ho, Ht.
  cbn [bindC tryCatch]. rewrite Hhost, String.eqb_refl. cbn [negb].
  rewrite Hpath, String.eqb_refl. cbn [negb]. rewrite andb_false_r.
  destruct (hasToolIndicator _); reflexivity.
Qed.

Lemma same_path_verdict_witness :
  isPotentialDifferentService Whatwg.parse
    "https://acme.com/login" "https://acme.com/Login?next=%2Fhome" = Normal true.
Proof.
  apply (same_path_verdict Whatwg.parse _ _
           (mkURL "https:" "acme.com" "/login")
           (mkURL "https:" "acme.com" "/Login"));
    reflexivity.
Defined.

(** X6. [isSameCompany] never throws.  For a target that parses it
    answers [true] exactly when the target's hostname is the original
    domain, or ends with a dot followed by it, or the target's path has
    an indicator segment (the same test as [isPotentialDifferentService],
    on any host whatsoever). *)
Theorem isSameCompany_iff (newURL : string -> option URL)
    (originalDomain targetUrl : string) (u : URL) :
  newURL targetUrl = Some u ->
  exists b,
    isSameCompany newURL originalDomain targetUrl = Normal b
    /\ (b = true <->
        hostname u = originalDomain
        \/ isSubdomainOf (hostname u) originalDomain
        \/ hasToolIndicator (pathSegments (toLowerCase (pathname u))) = true).
Proof.
  intros Hu. eexists. split; [apply isSameCompany_value|]. rewrite Hu.
  rewrite !orb_true_iff, String.eqb_eq, endsWith_spec.
  unfold isSubdomainOf. tauto.
Qed.

Lemma isSameCompany_iff_witness :
  isSameCompany Whatwg.parse "acme.com" "https://docs.acme.com/guide" = Normal true
  /\ isSameCompany Whatwg.parse "acme.com" "https://elsewhere.org/login" = Normal true
  /\ isSameCompany Whatwg.parse "acme.com" "https://notacme.com/about" = Normal false.
Proof.
  split; [|split].
  - destruct (isSameCompany_iff Whatwg.parse "acme.com" "https://docs.acme.com/guide"
                (mkURL "https:" "docs.acme.com" "/guide") eq_refl) as (b & -> & Hb).
    f_equal. apply Hb. right. left. exists "docs". reflexivity.
  - destruct (isSameCompany_iff Whatwg.parse "acme.com" "https://elsewhere.org/login"
                (mkURL "https:" "elsewhere.org" "/login") eq_refl) as (b & -> & Hb).
    f_equal. apply Hb. right. right. reflexivity.
  - destruct (isSameCompany_iff Whatwg.parse "acme.com" "https://notacme.com/about"
                (mkURL "https:" "notacme.com" "/about") eq_refl) as (b & Hrun & _).
    rewrite Hrun. vm_compute in Hrun. congruence.
Defined.

(** X7. For a target that does not parse, [isSameCompany] answers
    [true] exactly when the original domain is the empty string: the
    empty default of [extractDomain] then compares equal to it. *)
Theorem isSameCompany_unparsable (newURL : string -> option URL)
    (originalDomain targetUrl : string) :
  newURL targetUrl = None ->
  isSameCompany newURL originalDomain targetUrl
  = Normal (String.eqb "" originalDomain).
Proof. intros Hu. rewrite isSameCompany_value, Hu. reflexivity. Qed.

Lemma isSameCompany_unparsable_witness :
  isSameCompany Whatwg.parse "" "not a url" = Normal true
  /\ isSameCompany Whatwg.parse "acme.com" "not a url" = Normal false.
Proof.
  split; apply (isSameCompany_unparsable Whatwg.parse); reflexivity.
Defined.

(** * Further properties of the handler and of the run *)

Section Lift.

Lemma lift_refl (I : Store -> Prop) st : lift I st st.
Proof. intros H. exact H. Qed.

Lemma lift_trans (I : Store -> Prop) st1 st2 st3 :
  lift I st1 st2 -> lift I st2 st3 -> lift I st1 st3.
Proof. intros H12 H23 H. auto. Qed.

Lemma respects_forEach_elem {A} (R : Store -> Store -> Prop)
    (l : list A) (body : A -> Handler unit) :
  (forall st, R st st) ->
  (forall st1 st2 st3, R st1 st2 -> R st2 st3 -> R st1 st3) ->
  (forall x, x ∈ l -> respects R (body x)) -> respects R (forEach l body).
Proof.
  intros Hrefl Htrans. induction l as [|x l IH]; intros Hbody; simpl.
  - apply (respects_ret Hrefl).
  - apply (respects_bind Htrans); [apply Hbody; left|].
    intros _. apply IH. intros y Hy. apply Hbody. right. exact Hy.
Qed.

End Lift.

(** A relation kept by every run of the handler on a queued request is
    kept by the scheduler. *)
Section SchedulerRespects.

Variable newURL : string -> option URL.
Variable web : string -> option Page.
Variable R : Store -> Store -> Prop.
Hypothesis R_refl : forall st, R st st.
Hypothesis R_trans : forall st1 st2 st3, R st1 st2 -> R st2 st3 -> R st1 st3.
Hypothesis R_handler :
  forall request page st,
    request ∈ addedRequests st ->
    R st (fst (requestHandler newURL request page st)).

Lemma scheduler_attempt retries request page st :
  request ∈ addedRequests st ->
  R st (fst (attempt newURL retries request page st)).
Proof.
  revert st. induction retries as [|n IH]; intros st Hin; simpl;
    unfold tryCatchH;
    pose proof (R_handler request page st Hin) as Hr;
    pose proof (grows_requestHandler newURL request page st (Enqueued request) Hin)
      as Hq;
    destruct (requestHandler newURL request page st) as [st1 [[]|e]];
    cbn [fst] in *; try assumption.
  eapply R_trans; [exact Hr | apply IH, Hq].
Qed.

Lemma scheduler_processRequest request st :
  request ∈ addedRequests st ->
  R st (fst (processRequest newURL web request st)).
Proof.
  intros Hin. unfold processRequest.
  destruct (web _); [apply scheduler_attempt, Hin | apply R_refl].
Qed.

Lemma nextRequest_queued handled st request :
  nextRequest handled st = Some request -> request ∈ addedRequests st.
Proof.
  unfold nextRequest. intros H. apply find_some in H as [H _].
  apply list_elem_of_In. exact H.
Qed.

Lemma scheduler_crawlLoop budget handled st :
  R st (fst (crawlLoop newURL web budget handled st)).
Proof.
  revert handled st. induction budget as [|n IH]; intros handled st; simpl.
  - apply R_refl.
  - destruct (nextRequest handled st) as [request|] eqn:Hnext; [|apply R_refl].
    unfold bindH.
    pose proof (scheduler_processRequest request st
                  (nextRequest_queued _ _ _ Hnext)) as H1.
    pose proof (processRequest_completes newURL web request st) as Hdone.
    destruct (processRequest newURL web request st) as [st1 c].
    cbn [fst snd] in *. subst c.
    pose proof (IH (Request.url request :: handled) st1) as H2.
    destruct (crawlLoop newURL web n _ st1) as [st2 [rest|e]];
      cbn [fst] in *; eapply R_trans; eassumption.
Qed.

End SchedulerRespects.

Ltac unfold_handler :=
  unfold requestHandler, originalDomainOf, trackChild, probe,
    processCrossDomain, enqueueLinks, transformRequestFunction.

(** ** No duplicates *)

Create HintDb nodup.

Ltac nodup :=
  repeat first
    [ solve [eauto with nodup]
    | step_respects (lift_refl noDuplicates) (lift_trans noDuplicates) ].

Section NoDuplicates.

Variable newURL : string -> option URL.

Lemma noDuplicates_setRegistry reg key arr st :
  noDuplicates st -> NoDup arr ->
  noDuplicates (setRegistry reg (<[key := arr]> (getRegistry reg st)) st).
Proof.
  intros Hinv Harr reg' key' arr'. rewrite getRegistry_setRegistry.
  destruct reg, reg'; try apply Hinv;
    (destruct (decide (key = key')) as [<-|Hne];
     [rewrite lookup_insert_eq; intros [= <-]; exact Harr
     |rewrite lookup_insert_ne by assumption; apply Hinv]).
Qed.

Lemma nodup_pushIfAbsent reg key x :
  respects (lift noDuplicates) (pushIfAbsent reg key x).
Proof.
  intros st Hinv. unfold pushIfAbsent, bindH, entryIncludes, entryPush.
  destruct (getRegistry reg st !! key) as [arr|] eqn:Harr; [|exact Hinv].
  destruct (arrayIncludes arr x) eqn:Hinc; [exact Hinv|].
  rewrite Harr. cbn [fst]. apply noDuplicates_setRegistry; [exact Hinv|].
  apply NoDup_app. split; [eapply Hinv; eassumption|]. split.
  - intros y Hy Hyx. apply list_elem_of_singleton in Hyx as ->.
    apply arrayIncludes_spec in Hy. congruence.
  - apply NoDup_singleton.
Qed.

Lemma nodup_initEntry reg key : respects (lift noDuplicates) (initEntry reg key).
Proof.
  intros st Hinv. apply noDuplicates_setRegistry; [exact Hinv | constructor].
Qed.

Lemma nodup_enqueue r : respects (lift noDuplicates) (enqueue r).
Proof.
  intros st Hinv reg key arr H. apply (Hinv reg key arr).
  destruct reg; exact H.
Qed.

Hint Resolve nodup_pushIfAbsent nodup_initEntry nodup_enqueue : nodup.

Lemma nodup_requestHandler request page :
  respects (lift noDuplicates) (requestHandler newURL request page).
Proof. unfold_handler. unfold ensureExplored. nodup. Qed.

Lemma nodup_initRegistries companies :
  respects (lift noDuplicates) (initRegistries companies).
Proof. unfold initRegistries. nodup. Qed.

Lemma noDuplicates_empty : noDuplicates emptyStore.
Proof. intros reg key arr. destruct reg; cbn; rewrite lookup_empty; discriminate. Qed.

End NoDuplicates.

Section RunShape.

Variable newURL : string -> option URL.
Variable web : string -> option Page.

(** An invariant of the start store that the handler keeps on queued
    requests holds of the store the run ends in. *)
Lemma findCompanyServices_invariant (I : Store -> Prop) companies st0 :
  (forall company, company ∈ companies ->
     isHttpUrl newURL (Company.url company) = true) ->
  I (startStore newURL companies) ->
  (forall request page st,
     request ∈ addedRequests st ->
     lift I st (fst (requestHandler newURL request page st))) ->
  exists st handled,
    findCompanyServices newURL web companies st0
    = (st, Normal (handled, results companies st))
    /\ I st.
Proof.
  intros Hvalid Hstart Hhandler.
  destruct (findCompanyServices_returns newURL web companies st0 Hvalid)
    as (st & handled & Hrun & Hloop).
  exists st, handled. split; [exact Hrun|].
  pose proof (scheduler_crawlLoop newURL web (lift I) (lift_refl I) (lift_trans I)
                Hhandler MAX_REQUESTS_PER_CRAWL [] (startStore newURL companies)
                Hstart) as H.
  rewrite Hloop in H. exact H.
Qed.

(** The registries of the start store are those [initRegistries] made;
    its queue holds the initial requests when the queue accepted them. *)
Lemma startStore_registry reg companies :
  getRegistry reg (startStore newURL companies)
  = getRegistry reg (fst (initRegistries companies emptyStore)).
Proof.
  unfold startStore. rewrite addRequests_value.
  destruct (forallb _ _); destruct reg; reflexivity.
Qed.

Lemma startStore_lift (I : Store -> Prop) companies :
  (forall r, respects (lift I) (enqueue r)) ->
  I (fst (initRegistries companies emptyStore)) ->
  I (startStore newURL companies).
Proof.
  intros Henqueue. unfold startStore.
  exact (respects_addRequests_all (lift_refl I) (lift_trans I) newURL _ Henqueue _).
Qed.

End RunShape.

(** X8. When every company URL is an [http:] or [https:] URL,
    [findCompanyServices] returns, and neither the registries nor a
    record it returns list a URL twice: every push is guarded by
    [includes]. *)
Theorem output_lists_without_duplicates (newURL : string -> option URL)
    (web : string -> option Page) (companies : list Company.t) (st0 : Store) :
  (forall company, company ∈ companies ->
     isHttpUrl newURL (Company.url company) = true) ->
  exists st handled records,
    findCompanyServices newURL web companies st0 = (st, Normal (handled, records))
    /\ noDuplicates st
    /\ Forall (fun rec => NoDup (Result.potentialDifferentServices rec)
                          /\ NoDup (Result.allExploredUrls rec)) records.
Proof.
  intros Hvalid.
  destruct (findCompanyServices_invariant newURL web noDuplicates companies st0
              Hvalid)
    as (st & handled & Hrun & Hinv).
  - apply (startStore_lift newURL noDuplicates companies nodup_enqueue).
    apply nodup_initRegistries, noDuplicates_empty.
  - intros request page st _. apply nodup_requestHandler.
  - exists st, handled, (results companies st).
    split; [exact Hrun|]. split; [exact Hinv|].
    apply Forall_forall. intros rec Hrec.
    destruct (results_inv companies st rec Hrec) as [-> ->]. split.
    + apply NoDup_ListNoDup, List.NoDup_filter, NoDup_ListNoDup.
      destruct (potentialDifferentServices st !! Result.url rec) as [arr|] eqn:H;
        [apply (Hinv PotentialDifferentServices _ _ H) | constructor].
    + destruct (allExploredUrls st !! Result.url rec) as [arr|] eqn:H;
        [apply (Hinv AllExploredUrls _ _ H) | constructor].
Qed.

Lemma output_lists_without_duplicates_witness :
  exists st handled records,
    findCompanyServices Whatwg.parse Acme.web [Acme.company] emptyStore
    = (st, Normal (handled, records))
    /\ noDuplicates st
    /\ Forall (fun rec => NoDup (Result.potentialDifferentServices rec)
                          /\ NoDup (Result.allExploredUrls rec)) records.
Proof.
  apply (output_lists_without_duplicates Whatwg.parse Acme.web [Acme.company]
           emptyStore).
  intros company Hc. apply list_elem_of_singleton in Hc as ->. reflexivity.
Defined.

(** ** Services are among the explored URLs *)

Ltac step_lift :=
  lazymatch goal with
  | |- respects _ (bindH _ _) => apply (respects_bind (lift_trans _))
  | |- respects _ (tryCatchH _ _) => apply (respects_tryCatchH (lift_trans _))
  | |- respects _ (forEach _ _) =>
      apply (respects_forEach (lift_refl _) (lift_trans _))
  | |- respects _ (mapFilter _ _) =>
      apply (respects_mapFilter (lift_refl _) (lift_trans _))
  | |- respects _ (addRequests _ [_]) =>
      apply (respects_addRequests_one (lift_refl _) (lift_trans _))
  | |- respects _ (addRequests _ _) =>
      apply (respects_addRequests_all (lift_refl _) (lift_trans _))
  | |- respects _ (ret _) => apply (respects_ret (lift_refl _))
  | |- respects _ (throw _) => apply (respects_throw (lift_refl _))
  | |- respects _ (liftC _) => apply (respects_liftC (lift_refl _))
  | |- respects _ (isDefined _ _) => apply (respects_isDefined (lift_refl _))
  | |- respects _ (if ?c then _ else _) => destruct c
  | |- respects _ (match ?c with _ => _ end) => destruct c
  | |- forall _, _ => intro
  end.

Ltac store_simpl :=
  cbn [fst snd getRegistry setRegistry potentialDifferentServices
       allExploredUrls startUrlChildren addedRequests orEmpty] in *.

Create HintDb within.

Section ServicesWithinExplored.

Variable newURL : string -> option URL.

Lemma within_block {A} url x (k : Handler A) :
  respects (lift (withExplored url x)) k ->
  respects (lift servicesWithinExplored)
    (bindH (pushIfAbsent AllExploredUrls url x) (fun _ => k)).
Proof.
  intros Hk st Hsi. unfold bindH, pushIfAbsent, bindH, entryIncludes, entryPush.
  cbn [getRegistry].
  destruct (allExploredUrls st !! url) as [arr|] eqn:Harr; [|exact Hsi].
  destruct (arrayIncludes arr x) eqn:Hinc.
  - cbv beta iota. apply Hk. split; [exact Hsi|].
    rewrite Harr. apply arrayIncludes_spec. exact Hinc.
  - cbn [getRegistry]. rewrite Harr. cbv beta iota. apply Hk. split.
    + intros key y Hy. store_simpl.
      destruct (decide (url = key)) as [<-|Hne].
      * rewrite lookup_insert_eq. store_simpl. apply elem_of_app. left.
        specialize (Hsi url y Hy). rewrite Harr in Hsi. exact Hsi.
      * rewrite lookup_insert_ne by assumption. apply Hsi, Hy.
    + cbn. rewrite lookup_insert_eq. store_simpl. apply elem_of_app. right. left.
Qed.

Lemma within_pushService url x :
  respects (lift (withExplored url x))
    (pushIfAbsent PotentialDifferentServices url x).
Proof.
  intros st [Hsi Hx]. unfold pushIfAbsent, bindH, entryIncludes, entryPush.
  cbn [getRegistry].
  destruct (potentialDifferentServices st !! url) as [arr|] eqn:Harr;
    [|split; assumption].
  destruct (arrayIncludes arr x); [split; assumption|].
  cbn [getRegistry]. rewrite Harr. store_simpl. split; [|exact Hx].
  intros key y Hy. destruct (decide (url = key)) as [<-|Hne].
  - store_simpl. rewrite lookup_insert_eq in Hy. store_simpl.
    apply elem_of_app in Hy as [Hy | Hy].
    + apply Hsi. rewrite Harr. exact Hy.
    + apply list_elem_of_singleton in Hy as ->. exact Hx.
  - store_simpl. rewrite lookup_insert_ne in Hy by assumption. apply Hsi, Hy.
Qed.

Lemma servicesWithinExplored_children st (m : gmap string (list string)) :
  servicesWithinExplored st ->
  servicesWithinExplored (setRegistry StartUrlChildren m st).
Proof. intros H key x. apply H. Qed.

Lemma within_pushChild_with url x key y :
  respects (lift (withExplored url x)) (pushIfAbsent StartUrlChildren key y).
Proof.
  intros st [Hsi Hx]. unfold pushIfAbsent, bindH, entryIncludes, entryPush.
  destruct (getRegistry StartUrlChildren st !! key) as [arr|] eqn:Harr;
    [|split; assumption].
  destruct (arrayIncludes arr y); [split; assumption|].
  rewrite Harr. split; [apply servicesWithinExplored_children, Hsi | exact Hx].
Qed.

Lemma within_enqueue_with url x r :
  respects (lift (withExplored url x)) (enqueue r).
Proof. intros st H. exact H. Qed.

Lemma within_pushChild key y :
  respects (lift servicesWithinExplored) (pushIfAbsent StartUrlChildren key y).
Proof.
  intros st Hsi. unfold pushIfAbsent, bindH, entryIncludes, entryPush.
  destruct (getRegistry StartUrlChildren st !! key) as [arr|] eqn:Harr;
    [|assumption].
  destruct (arrayIncludes arr y); [assumption|].
  rewrite Harr. apply servicesWithinExplored_children, Hsi.
Qed.

Lemma within_enqueue r :
  respects (lift servicesWithinExplored) (enqueue r).
Proof. intros st H. exact H. Qed.

Lemma within_ensureExplored url :
  respects (lift servicesWithinExplored) (ensureExplored url).
Proof.
  intros st Hsi. unfold ensureExplored, bindH, isDefined. cbv beta iota.
  case_bool_decide as Hdef; [exact Hsi|].
  intros key x Hx. unfold initEntry in *. store_simpl.
  destruct (decide (url = key)) as [<-|Hne].
  - specialize (Hsi url x Hx). rewrite lookup_insert_eq. store_simpl.
    destruct (allExploredUrls st !! url) as [arr|] eqn:H; [|exact Hsi].
    destruct Hdef. eauto.
  - rewrite lookup_insert_ne by assumption. apply Hsi, Hx.
Qed.

Lemma within_initChildren key :
  respects (lift servicesWithinExplored) (initEntry StartUrlChildren key).
Proof. intros st Hsi. apply servicesWithinExplored_children, Hsi. Qed.

Lemma within_initServices key :
  respects (lift servicesWithinExplored)
    (initEntry PotentialDifferentServices key).
Proof.
  intros st Hsi k x Hx. unfold initEntry in *. store_simpl.
  destruct (decide (key = k)) as [<-|Hne].
  - rewrite lookup_insert_eq in Hx. inversion Hx.
  - rewrite lookup_insert_ne in Hx by assumption. apply Hsi, Hx.
Qed.

Hint Resolve within_pushService within_pushChild_with within_enqueue_with
  within_pushChild within_enqueue within_ensureExplored
  within_initChildren within_initServices : within.

Ltac within :=
  repeat first [ apply within_block | solve [eauto with within] | step_lift ].

Lemma within_requestHandler request page :
  respects (lift servicesWithinExplored) (requestHandler newURL request page).
Proof. unfold_handler. within. Qed.

Lemma within_initRegistries companies :
  respects (lift servicesWithinExplored) (initRegistries companies).
Proof. unfold initRegistries. within. Qed.

Lemma servicesWithinExplored_empty : servicesWithinExplored emptyStore.
Proof.
  intros key x Hx. unfold emptyStore in Hx. store_simpl.
  rewrite lookup_empty in Hx. inversion Hx.
Qed.

End ServicesWithinExplored.

(** X9. When every company URL is an [http:] or [https:] URL,
    [findCompanyServices] returns, and in every record it returns each
    URL of [potentialDifferentServices] is also in [allExploredUrls]: the
    handler pushes a URL onto the explored list before it pushes it onto
    the services list. *)
Theorem output_services_within_explored (newURL : string -> option URL)
    (web : string -> option Page) (companies : list Company.t) (st0 : Store) :
  (forall company, company ∈ companies ->
     isHttpUrl newURL (Company.url company) = true) ->
  exists st handled records,
    findCompanyServices newURL web companies st0 = (st, Normal (handled, records))
    /\ Forall (fun rec =>
                 forall u, u ∈ Result.potentialDifferentServices rec ->
                           u ∈ Result.allExploredUrls rec) records.
Proof.
  intros Hvalid.
  destruct (findCompanyServices_invariant newURL web servicesWithinExplored
              companies st0 Hvalid) as (st & handled & Hrun & Hinv).
  - apply (startStore_lift newURL servicesWithinExplored companies within_enqueue).
    apply within_initRegistries, servicesWithinExplored_empty.
  - intros request page st _. apply within_requestHandler.
  - exists st, handled, (results companies st). split; [exact Hrun|].
    apply Forall_forall. intros rec Hrec u Hu.
    destruct (results_inv companies st rec Hrec) as [He Hs].
    rewrite He. rewrite Hs in Hu.
    apply list_elem_of_In, filter_In in Hu as [Hu _].
    apply Hinv, list_elem_of_In, Hu.
Qed.

Lemma output_services_within_explored_witness :
  exists st handled records,
    findCompanyServices Whatwg.parse Acme.web [Acme.company] emptyStore
    = (st, Normal (handled, records))
    /\ Forall (fun rec =>
                 forall u, u ∈ Result.potentialDifferentServices rec ->
                           u ∈ Result.allExploredUrls rec) records.
Proof.
  apply (output_services_within_explored Whatwg.parse Acme.web [Acme.company]
           emptyStore).
  intros company Hc. apply list_elem_of_singleton in Hc as ->. reflexivity.
Defined.

(** ** Append-only registries *)

Create HintDb appendonly.

Section AppendOnly.

Variable newURL : string -> option URL.

Lemma appendOnly_refl st : appendOnly st st.
Proof.
  split.
  - intros reg key arr H. exists []. rewrite app_nil_r. exact H.
  - exists []. rewrite app_nil_r. reflexivity.
Qed.

Lemma appendOnly_trans st1 st2 st3 :
  appendOnly st1 st2 -> appendOnly st2 st3 -> appendOnly st1 st3.
Proof.
  intros [H12 [q12 Q12]] [H23 [q23 Q23]]. split.
  - intros reg key arr H. destruct (H12 reg key arr H) as [m1 H1].
    destruct (H23 reg key _ H1) as [m2 H2].
    exists (m1 ++ m2)%list. rewrite H2, <- app_assoc. reflexivity.
  - exists (q12 ++ q23)%list. rewrite Q23, Q12, <- app_assoc. reflexivity.
Qed.

Lemma appendOnly_insert reg key (arr : list string) st :
  (forall old, getRegistry reg st !! key = Some old ->
               exists more, arr = (old ++ more)%list) ->
  appendOnly st (setRegistry reg (<[key := arr]> (getRegistry reg st)) st).
Proof.
  intros Hold. split.
  - intros reg' key' old H. rewrite getRegistry_setRegistry.
    assert (Hsame : exists more,
               getRegistry reg' st !! key' = Some (old ++ more)%list).
    { exists []. rewrite app_nil_r. exact H. }
    destruct reg, reg'; try exact Hsame;
      (destruct (decide (key = key')) as [<-|Hne];
       [rewrite lookup_insert_eq; destruct (Hold old H) as [more ->]; eauto
       |rewrite lookup_insert_ne by assumption; exact Hsame]).
  - exists []. rewrite addedRequests_setRegistry, app_nil_r. reflexivity.
Qed.

Lemma appendOnly_entryPush reg key x : respects appendOnly (entryPush reg key x).
Proof.
  intros st. unfold entryPush.
  destruct (getRegistry reg st !! key) as [arr|] eqn:Harr; [|apply appendOnly_refl].
  apply appendOnly_insert. intros old Hold. rewrite Harr in Hold.
  injection Hold as <-. eauto.
Qed.

Lemma appendOnly_ensureExplored url : respects appendOnly (ensureExplored url).
Proof.
  intros st. unfold ensureExplored, bindH, isDefined. cbv beta iota.
  case_bool_decide as Hdef; [apply appendOnly_refl|].
  apply (appendOnly_insert AllExploredUrls url [] st).
  intros old Hold. destruct Hdef. eauto.
Qed.

Lemma appendOnly_enqueue r : respects appendOnly (enqueue r).
Proof.
  intros st. split.
  - intros reg key arr H. exists []. rewrite app_nil_r. destruct reg; exact H.
  - exists [r]. reflexivity.
Qed.

Hint Resolve appendOnly_entryPush appendOnly_ensureExplored
  appendOnly_enqueue : appendonly.

Lemma appendOnly_requestHandler request page :
  respects appendOnly (requestHandler newURL request page).
Proof.
  unfold_handler.
  repeat first [ solve [eauto with appendonly]
               | step_respects appendOnly_refl appendOnly_trans ].
Qed.

(** X10. Whether it completes or throws, a run of the handler only
    appends: every array a registry held is a prefix of the array it holds
    afterwards, and the queue of added requests is extended at its end.
    Nothing is removed or reordered. *)
Theorem handler_only_appends (request : Request.t) (page : Page) (st : Store) :
  appendOnly st (fst (requestHandler newURL request page st)).
Proof. apply appendOnly_requestHandler. Qed.

End AppendOnly.

(** ** The per-seed registries keep their keys *)

Create HintDb seedkeys.

Section SeedKeys.

Lemma sameSeedKeys_refl st : sameSeedKeys st st.
Proof. intros key. tauto. Qed.

Lemma sameSeedKeys_trans st1 st2 st3 :
  sameSeedKeys st1 st2 -> sameSeedKeys st2 st3 -> sameSeedKeys st1 st3.
Proof.
  intros H12 H23 key. destruct (H12 key), (H23 key). split; etransitivity; eauto.
Qed.

Lemma is_Some_insert_present (m : gmap string (list string)) key arr old k :
  m !! key = Some old -> is_Some (<[key := arr]> m !! k) <-> is_Some (m !! k).
Proof.
  intros Hold. destruct (decide (key = k)) as [<-|Hne].
  - rewrite lookup_insert_eq, Hold. split; eauto.
  - rewrite lookup_insert_ne by assumption. reflexivity.
Qed.

Lemma seedkeys_entryPush reg key x : respects sameSeedKeys (entryPush reg key x).
Proof.
  intros st. unfold entryPush.
  destruct (getRegistry reg st !! key) as [arr|] eqn:Harr; [|apply sameSeedKeys_refl].
  intros k. destruct reg; store_simpl;
    try (split; [eapply is_Some_insert_present; eassumption | reflexivity]);
    try (split; [reflexivity | eapply is_Some_insert_present; eassumption]);
    tauto.
Qed.

Lemma seedkeys_initExplored key :
  respects sameSeedKeys (initEntry AllExploredUrls key).
Proof. intros st k. unfold initEntry. store_simpl. tauto. Qed.

Lemma seedkeys_enqueue r : respects sameSeedKeys (enqueue r).
Proof. intros st k. unfold enqueue. store_simpl. tauto. Qed.

Hint Resolve seedkeys_entryPush seedkeys_initExplored seedkeys_enqueue
  : seedkeys.

Lemma initRegistries_keys companies st key :
  let st' := fst (initRegistries companies st) in
  (is_Some (potentialDifferentServices st' !! key)
   <-> is_Some (potentialDifferentServices st !! key) \/ isSeedUrl companies key)
  /\ (is_Some (startUrlChildren st' !! key)
      <-> is_Some (startUrlChildren st !! key) \/ isSeedUrl companies key).
Proof.
  unfold initRegistries, isSeedUrl. revert st.
  induction companies as [|c cs IH]; intros st; cbn [forEach].
  - unfold ret. store_simpl.
    split; (split; [auto | intros [H | (c & Hc & _)]; [exact H | inversion Hc]]).
  - pose (st1 := fst ((initEntry StartUrlChildren (Company.url c) ;;;
                        initEntry PotentialDifferentServices (Company.url c)) st)).
    match goal with
    | |- context [fst (bindH ?m ?k st)] =>
        assert (E : fst (bindH m k st) = fst (k tt st1)) by reflexivity
    end.
    rewrite !E. clear E.
    destruct (IH st1) as [Hp Hs]. cbv zeta in Hp, Hs.
    assert (Hp1 : is_Some (potentialDifferentServices st1 !! key)
                  <-> is_Some (potentialDifferentServices st !! key)
                      \/ Company.url c = key).
    { unfold st1, bindH, initEntry. store_simpl.
      destruct (decide (Company.url c = key)) as [<-|Hne].
      - rewrite lookup_insert_eq. split; eauto.
      - rewrite lookup_insert_ne by assumption. tauto. }
    assert (Hs1 : is_Some (startUrlChildren st1 !! key)
                  <-> is_Some (startUrlChildren st !! key)
                      \/ Company.url c = key).
    { unfold st1, bindH, initEntry. store_simpl.
      destruct (decide (Company.url c = key)) as [<-|Hne].
      - rewrite lookup_insert_eq. split; eauto.
      - rewrite lookup_insert_ne by assumption. tauto. }
    split.
    + rewrite Hp, Hp1. split.
      * intros [[H | H] | (c' & Hc' & H)]; eauto.
        -- right. exists c. split; [left | exact H].
        -- right. exists c'. split; [right; exact Hc' | exact H].
      * intros [H | (c' & Hc' & H)]; [auto|].
        apply elem_of_cons in Hc' as [-> | Hc']; [auto|].
        right. eauto.
    + rewrite Hs, Hs1. split.
      * intros [[H | H] | (c' & Hc' & H)]; eauto.
        -- right. exists c. split; [left | exact H].
        -- right. exists c'. split; [right; exact Hc' | exact H].
      * intros [H | (c' & Hc' & H)]; [auto|].
        apply elem_of_cons in Hc' as [-> | Hc']; [auto|].
        right. eauto.
Qed.

Variable newURL : string -> option URL.

Lemma seedkeys_requestHandler request page :
  respects sameSeedKeys (requestHandler newURL request page).
Proof.
  unfold_handler. unfold ensureExplored.
  repeat first [ solve [eauto with seedkeys]
               | step_respects sameSeedKeys_refl sameSeedKeys_trans ].
Qed.

End SeedKeys.

(** The two per-seed registries of the start store have the seed URLs
    as their keys. *)
Lemma startStore_keys (newURL : string -> option URL) companies key :
  (is_Some (potentialDifferentServices (startStore newURL companies) !! key)
   <-> isSeedUrl companies key)
  /\ (is_Some (startUrlChildren (startStore newURL companies) !! key)
      <-> isSeedUrl companies key).
Proof.
  pose proof (startStore_registry newURL PotentialDifferentServices companies) as Hs.
  pose proof (startStore_registry newURL StartUrlChildren companies) as Hc.
  cbn [getRegistry] in Hs, Hc. rewrite Hs, Hc.
  pose proof (initRegistries_keys companies emptyStore key) as Hinit.
  cbv zeta in Hinit. unfold emptyStore in Hinit at 2 4.
  cbn [potentialDifferentServices startUrlChildren] in Hinit.
  rewrite !lookup_empty in Hinit.
  assert (Hnone : ~ is_Some (@None (list string))) by (intros [x Hx]; discriminate).
  destruct Hinit as [Hi1 Hi2]. split; [rewrite Hi1 | rewrite Hi2]; tauto.
Qed.

(** X11. When every company URL is an [http:] or [https:] URL,
    [findCompanyServices] returns, and [potentialDifferentServices] and
    [startUrlChildren] then have an entry for a URL exactly when it is
    the URL of one of the companies: the crawl creates no entry for a
    child URL and drops none of a seed. *)
Theorem seed_registries_keyed_by_seeds (newURL : string -> option URL)
    (web : string -> option Page) (companies : list Company.t) (st0 : Store) :
  (forall company, company ∈ companies ->
     isHttpUrl newURL (Company.url company) = true) ->
  exists st handled,
    findCompanyServices newURL web companies st0
    = (st, Normal (handled, results companies st))
    /\ forall key,
         (is_Some (potentialDifferentServices st !! key)
          <-> isSeedUrl companies key)
         /\ (is_Some (startUrlChildren st !! key) <-> isSeedUrl companies key).
Proof.
  intros Hvalid.
  destruct (findCompanyServices_returns newURL web companies st0 Hvalid)
    as (st & handled & Hrun & Hloop).
  exists st, handled. split; [exact Hrun|]. intros key.
  pose proof (scheduler_crawlLoop newURL web sameSeedKeys sameSeedKeys_refl
                sameSeedKeys_trans
                (fun request page st _ => seedkeys_requestHandler newURL request page st)
                MAX_REQUESTS_PER_CRAWL [] (startStore newURL companies) key)
    as Hcrawl.
  rewrite Hloop in Hcrawl. cbn [fst] in Hcrawl.
  destruct Hcrawl as [Hc1 Hc2], (startStore_keys newURL companies key) as [Hk1 Hk2].
  split.
  - rewrite Hc1, Hk1. tauto.
  - rewrite Hc2, Hk2. tauto.
Qed.

Lemma seed_registries_keyed_by_seeds_witness :
  exists st handled,
    findCompanyServices Whatwg.parse Acme.web [Acme.company] emptyStore
    = (st, Normal (handled, results [Acme.company] st))
    /\ forall key,
         (is_Some (potentialDifferentServices st !! key)
          <-> isSeedUrl [Acme.company] key)
         /\ (is_Some (startUrlChildren st !! key)
             <-> isSeedUrl [Acme.company] key).
Proof.
  apply (seed_registries_keyed_by_seeds Whatwg.parse Acme.web [Acme.company]
           emptyStore).
  intros company Hc. apply list_elem_of_singleton in Hc as ->. reflexivity.
Defined.

(** ** Only the request's own entries change *)

Create HintDb owned.

Section OwnEntries.

Variable url : string.

Lemma sameServicesExcept_refl st : sameServicesExcept url st st.
Proof. intros key _. reflexivity. Qed.

Lemma sameServicesExcept_trans st1 st2 st3 :
  sameServicesExcept url st1 st2 -> sameServicesExcept url st2 st3 ->
  sameServicesExcept url st1 st3.
Proof. intros H12 H23 key Hne. rewrite H23, H12 by assumption. reflexivity. Qed.

Lemma services_entryPush_own x :
  respects (sameServicesExcept url) (entryPush PotentialDifferentServices url x).
Proof.
  intros st key Hne. unfold entryPush.
  destruct (getRegistry PotentialDifferentServices st !! url); [|reflexivity].
  store_simpl. apply lookup_insert_ne. congruence.
Qed.

Lemma services_entryPush_explored key x :
  respects (sameServicesExcept url) (entryPush AllExploredUrls key x).
Proof.
  intros st k Hne. unfold entryPush.
  destruct (getRegistry AllExploredUrls st !! key); reflexivity.
Qed.

Lemma services_entryPush_children key x :
  respects (sameServicesExcept url) (entryPush StartUrlChildren key x).
Proof.
  intros st k Hne. unfold entryPush.
  destruct (getRegistry StartUrlChildren st !! key); reflexivity.
Qed.

Lemma services_initExplored key :
  respects (sameServicesExcept url) (initEntry AllExploredUrls key).
Proof. intros st k Hne. reflexivity. Qed.

Lemma services_enqueue r : respects (sameServicesExcept url) (enqueue r).
Proof. intros st k Hne. reflexivity. Qed.

Hint Resolve services_entryPush_own services_entryPush_explored
  services_entryPush_children services_initExplored services_enqueue : owned.

Lemma sameChildrenExcept_refl parent st : sameChildrenExcept url parent st st.
Proof. intros key _ _. reflexivity. Qed.

Lemma sameChildrenExcept_trans parent st1 st2 st3 :
  sameChildrenExcept url parent st1 st2 -> sameChildrenExcept url parent st2 st3 ->
  sameChildrenExcept url parent st1 st3.
Proof. intros H12 H23 key Hne Hp. rewrite H23, H12 by assumption. reflexivity. Qed.

Lemma children_entryPush_own parent x :
  respects (sameChildrenExcept url parent) (entryPush StartUrlChildren url x).
Proof.
  intros st key Hne _. unfold entryPush.
  destruct (getRegistry StartUrlChildren st !! url); [|reflexivity].
  store_simpl. apply lookup_insert_ne. congruence.
Qed.

Lemma children_entryPush_parent parent x :
  respects (sameChildrenExcept url (Some parent))
    (entryPush StartUrlChildren parent x).
Proof.
  intros st key _ Hp. unfold entryPush.
  destruct (getRegistry StartUrlChildren st !! parent); [|reflexivity].
  store_simpl. apply lookup_insert_ne. congruence.
Qed.

Lemma children_entryPush_explored parent key x :
  respects (sameChildrenExcept url parent) (entryPush AllExploredUrls key x).
Proof.
  intros st k _ _. unfold entryPush.
  destruct (getRegistry AllExploredUrls st !! key); reflexivity.
Qed.

Lemma children_entryPush_services parent key x :
  respects (sameChildrenExcept url parent)
    (entryPush PotentialDifferentServices key x).
Proof.
  intros st k _ _. unfold entryPush.
  destruct (getRegistry PotentialDifferentServices st !! key); reflexivity.
Qed.

Lemma children_initExplored parent key :
  respects (sameChildrenExcept url parent) (initEntry AllExploredUrls key).
Proof. intros st k _ _. reflexivity. Qed.

Lemma children_enqueue parent r :
  respects (sameChildrenExcept url parent) (enqueue r).
Proof. intros st k _ _. reflexivity. Qed.

Hint Resolve children_entryPush_own children_entryPush_parent
  children_entryPush_explored children_entryPush_services
  children_initExplored children_enqueue : owned.

End OwnEntries.

#[global] Hint Resolve services_entryPush_own services_entryPush_explored
  services_entryPush_children services_initExplored services_enqueue
  children_entryPush_own children_entryPush_parent
  children_entryPush_explored children_entryPush_services
  children_initExplored children_enqueue : owned.

Lemma services_requestHandler (newURL : string -> option URL) request page :
  respects (sameServicesExcept (Request.url request))
    (requestHandler newURL request page).
Proof.
  unfold_handler. unfold ensureExplored.
  repeat first
    [ solve [eauto with owned]
    | step_respects (sameServicesExcept_refl (Request.url request))
                    (sameServicesExcept_trans (Request.url request)) ].
Qed.

Lemma children_requestHandler (newURL : string -> option URL) request page :
  respects (sameChildrenExcept (Request.url request)
              (parentUrl (Request.userData request)))
    (requestHandler newURL request page).
Proof.
  unfold_handler. unfold ensureExplored.
  destruct (parentUrl (Request.userData request)) as [parent|]; cbv beta iota.
  - repeat first
      [ solve [eauto with owned]
      | step_respects
          (sameChildrenExcept_refl (Request.url request) (Some parent))
          (sameChildrenExcept_trans (Request.url request) (Some parent)) ].
  - repeat first
      [ solve [eauto with owned]
      | step_respects
          (sameChildrenExcept_refl (Request.url request) None)
          (sameChildrenExcept_trans (Request.url request) None) ].
Qed.

(** X12. Whether it completes or throws, handling a request leaves the
    [potentialDifferentServices] and [allExploredUrls] entries of every
    other URL as they were, and changes [startUrlChildren] at most at the
    request's own URL and at its [parentUrl]. *)
Theorem handler_touches_only_own_entries (newURL : string -> option URL)
    (request : Request.t) (page : Page) (st : Store) (key : string) :
  key <> Request.url request ->
  let st' := fst (requestHandler newURL request page st) in
  potentialDifferentServices st' !! key = potentialDifferentServices st !! key
  /\ allExploredUrls st' !! key = allExploredUrls st !! key
  /\ (parentUrl (Request.userData request) <> Some key ->
      startUrlChildren st' !! key = startUrlChildren st !! key).
Proof.
  intros Hne st'. split; [|split].
  - apply (services_requestHandler newURL request page st key Hne).
  - apply (frame_requestHandler newURL request page st key Hne).
  - apply (children_requestHandler newURL request page st key Hne).
Qed.

Lemma handler_touches_only_own_entries_witness :
  let st' := fst (requestHandler Whatwg.parse Acme.statusRequest Acme.statusPage
                    Acme.freshStore) in
  potentialDifferentServices st' !! "https://acme.com"
  = potentialDifferentServices Acme.freshStore !! "https://acme.com"
  /\ allExploredUrls st' !! "https://acme.com"
     = allExploredUrls Acme.freshStore !! "https://acme.com".
Proof.
  destruct (handler_touches_only_own_entries Whatwg.parse Acme.statusRequest
              Acme.statusPage Acme.freshStore "https://acme.com")
    as (H1 & H2 & _); [discriminate|].
  split; assumption.
Defined.


(** ** Every request the handler adds is a child of the handled one *)

Create HintDb children.

Section OnlyChildren.

Variable newURL : string -> option URL.
Variables url originalDomain companyName : string.

Let R := addsOnlyChildren url originalDomain companyName.

Lemma addsOnlyChildren_refl st : R st st.
Proof. intros r Hr. left. exact Hr. Qed.

Lemma addsOnlyChildren_trans st1 st2 st3 : R st1 st2 -> R st2 st3 -> R st1 st3.
Proof.
  intros H12 H23 r Hr. destruct (H23 r Hr) as [H | H]; [apply H12, H | right; exact H].
Qed.

Lemma children_entryPush reg key x : respects R (entryPush reg key x).
Proof.
  intros st r Hr. left. unfold entryPush in Hr.
  destruct (getRegistry reg st !! key); [|exact Hr].
  cbn [fst] in Hr. rewrite addedRequests_setRegistry in Hr. exact Hr.
Qed.

Lemma children_initEntry reg key : respects R (initEntry reg key).
Proof.
  intros st r Hr. left. unfold initEntry in Hr. cbn [fst] in Hr.
  rewrite addedRequests_setRegistry in Hr. exact Hr.
Qed.

Lemma children_addChild target :
  respects R (enqueue (childRequest url originalDomain companyName target)).
Proof.
  intros st r Hr. unfold enqueue in Hr. store_simpl.
  apply elem_of_app in Hr as [Hr | Hr]; [left; exact Hr|].
  apply list_elem_of_singleton in Hr. right. eauto.
Qed.

Hint Resolve children_entryPush children_initEntry children_addChild : children.

Ltac children :=
  repeat first
    [ solve [eauto with children]
    | step_respects addsOnlyChildren_refl addsOnlyChildren_trans ].

Lemma transform_returns target st st' r :
  transformRequestFunction newURL url originalDomain companyName target st
  = (st', Normal (Some r)) ->
  r = childRequest url originalDomain companyName target.
Proof.
  unfold transformRequestFunction, bindH, liftC.
  rewrite shouldExcludeUrl_value.
  destruct (_ || String.eqb target url); [intros H; inversion H|].
  destruct (pushIfAbsent AllExploredUrls url target st) as [st1 [[]|e]];
    [|intros H; inversion H].
  destruct (isPotentialDifferentService_normal newURL url target) as [b ->].
  rewrite !extractDomain_value.
  destruct (b || _); [|intros H; inversion H].
  destruct (pushIfAbsent PotentialDifferentServices url target st1)
    as [st2 [[]|e]]; intros H; inversion H. reflexivity.
Qed.

Lemma mapFilter_returns {A B} (P : B -> Prop) (f : A -> Handler (option B)) l :
  (forall x st st' b, f x st = (st', Normal (Some b)) -> P b) ->
  forall st st' bs, mapFilter l f st = (st', Normal bs) -> Forall P bs.
Proof.
  intros Hf. induction l as [|x l IH]; intros st st' bs; simpl.
  - intros H. inversion H. constructor.
  - unfold bindH. destruct (f x st) as [st1 [result|e]] eqn:Hx;
      [|intros H; inversion H].
    destruct (mapFilter l f st1) as [st2 [rest|e]] eqn:Hrest;
      [|intros H; inversion H].
    intros H. inversion H; subst. specialize (IH _ _ _ Hrest).
    destruct result as [b|]; [|exact IH].
    constructor; [eapply Hf; eassumption | exact IH].
Qed.

Lemma children_enqueueLinks page :
  respects R
    (enqueueLinks newURL page
       (transformRequestFunction newURL url originalDomain companyName)).
Proof.
  intros st. unfold enqueueLinks, bindH.
  assert (Hmap : respects R
            (mapFilter (linkCandidates page)
               (transformRequestFunction newURL url originalDomain companyName))).
  { unfold transformRequestFunction. children. }
  specialize (Hmap st).
  destruct (mapFilter _ _ st) as [st1 [transformed|e]] eqn:Hrun;
    cbn [fst] in *; [|exact Hmap].
  eapply addsOnlyChildren_trans; [exact Hmap|].
  apply (respects_addRequests addsOnlyChildren_refl addsOnlyChildren_trans).
  intros req Hreq. apply list_elem_of_In, filter_In in Hreq as [Hreq _].
  pose proof (mapFilter_returns
                (fun b => exists target,
                   b = childRequest url originalDomain companyName target)
                _ _
                (fun x st0 st' b H => ex_intro _ x (transform_returns x st0 st' b H))
                _ _ _ Hrun) as Hall.
  rewrite Forall_forall in Hall.
  destruct (Hall req (proj2 (list_elem_of_In _ _) Hreq)) as [target ->].
  apply children_addChild.
Qed.

Hint Resolve children_enqueueLinks : children.

Lemma children_rest request page :
  Request.url request = url ->
  respects R
    (ensureExplored url ;;;
     trackChild request ;;;
     forEach (potentialLinks page)
       (probe newURL url (labelOf request) originalDomain companyName) ;;;
     forEach (crossDomainLinks page)
       (processCrossDomain newURL url originalDomain companyName) ;;;
     if String.eqb (labelOf request) "start" then
       enqueueLinks newURL page
         (transformRequestFunction newURL url originalDomain companyName)
     else ret tt)%handler.
Proof.
  intros Hurl. unfold ensureExplored, trackChild, probe, processCrossDomain.
  children.
Qed.

End OnlyChildren.

Lemma requestHandler_adds_children (newURL : string -> option URL)
    (request : Request.t) (page : Page) (st : Store) :
  addsOnlyChildren (Request.url request) (inheritedDomain newURL request)
    (companyNameOf request) st (fst (requestHandler newURL request page st)).
Proof.
  unfold requestHandler, bindH at 1. rewrite originalDomainOf_run.
  apply (children_rest newURL (Request.url request)
           (inheritedDomain newURL request) (companyNameOf request)
           request page eq_refl st).
Qed.

(** X13. Every request that a run of the handler adds to the queue is a
    [child] request whose [parentUrl] is the handled request's URL and
    whose [originalDomain] and [companyName] are the values the handler
    derived from the handled request; no other request is added, and
    this holds also when the handler throws. *)
Theorem handler_adds_only_children (newURL : string -> option URL)
    (request : Request.t) (page : Page) (st : Store) (r : Request.t) :
  r ∈ addedRequests (fst (requestHandler newURL request page st)) ->
  r ∈ addedRequests st
  \/ exists target,
       r = Request.mk target
             (mkUserData (Some "child") (Some (Request.url request))
                (Some (inheritedDomain newURL request))
                (Some (companyNameOf request))).
Proof. apply requestHandler_adds_children. Qed.

Lemma handler_adds_only_children_witness :
  Acme.statusRequest ∈ addedRequests Acme.freshStore
  \/ exists target,
       Acme.statusRequest
       = Request.mk target
           (mkUserData (Some "child") (Some "https://acme.com")
              (Some "acme.com") (Some "acme")).
Proof.
  apply (handler_adds_only_children Whatwg.parse Acme.seedRequest Acme.homePage
           Acme.freshStore Acme.statusRequest).
  vm_compute. right. left.
Defined.

(** ** The queue *)

Create HintDb queue.

Section Queue.

Lemma sameQueue_refl st : sameQueue st st.
Proof. reflexivity. Qed.

Lemma sameQueue_trans st1 st2 st3 :
  sameQueue st1 st2 -> sameQueue st2 st3 -> sameQueue st1 st3.
Proof. unfold sameQueue. intros H12 H23. rewrite H23. exact H12. Qed.

Lemma queue_entryPush reg key x : respects sameQueue (entryPush reg key x).
Proof.
  intros st. unfold sameQueue, entryPush.
  destruct (getRegistry reg st !! key); [|reflexivity].
  apply addedRequests_setRegistry.
Qed.

Lemma queue_initEntry reg key : respects sameQueue (initEntry reg key).
Proof. intros st. apply addedRequests_setRegistry. Qed.

End Queue.

#[global] Hint Resolve queue_entryPush queue_initEntry : queue.

Ltac queue :=
  repeat first
    [ solve [eauto with queue] | step_respects sameQueue_refl sameQueue_trans ].

Lemma queue_initRegistries companies : respects sameQueue (initRegistries companies).
Proof. unfold initRegistries. queue. Qed.

(** The queue of the start store holds the initial requests when the
    queue accepted them, and is empty otherwise. *)
Lemma startStore_queue_value newURL companies :
  addedRequests (startStore newURL companies)
  = if forallb (fun c => isHttpUrl newURL (Company.url c)) companies
    then map (seedRequestOf newURL) companies
    else [].
Proof.
  unfold startStore. rewrite addRequests_value, seeds_accepted.
  destruct (forallb _ companies); cbn [fst addedRequests];
    rewrite (queue_initRegistries companies emptyStore); reflexivity.
Qed.

Lemma startStore_queue newURL companies :
  (forall company, company ∈ companies ->
     isHttpUrl newURL (Company.url company) = true) ->
  addedRequests (startStore newURL companies) = map (seedRequestOf newURL) companies.
Proof.
  intros Hvalid. rewrite startStore_queue_value.
  assert (Hall : forallb (fun c => isHttpUrl newURL (Company.url c)) companies = true).
  { apply forallb_forall. intros c Hc. apply Hvalid, list_elem_of_In, Hc. }
  rewrite Hall. reflexivity.
Qed.

Lemma startStore_queue_seeds newURL companies r :
  r ∈ addedRequests (startStore newURL companies) ->
  exists company, r = seedRequestOf newURL company /\ company ∈ companies.
Proof.
  rewrite startStore_queue_value.
  destruct (forallb _ companies); intros Hr; [|inversion Hr].
  apply list_elem_of_fmap in Hr. exact Hr.
Qed.

Section CompanyNames.

Variable newURL : string -> option URL.
Variable web : string -> option Page.

Lemma orDefault_some_empty (n : string) : orDefault (Some n) "" = n.
Proof.
  unfold orDefault, truthy. destruct (String.eqb_spec n ""); [subst|]; reflexivity.
Qed.

Lemma carriesCompanyName_handler companies request page st :
  request ∈ addedRequests st ->
  lift (carriesCompanyName companies) st
    (fst (requestHandler newURL request page st)).
Proof.
  intros Hin Hinv r Hr.
  destruct (requestHandler_adds_children newURL request page st r Hr)
    as [Hold | [target ->]]; [apply Hinv, Hold|].
  destruct (Hinv request Hin) as [(company & Hc & Hname) _].
  split; [|right; reflexivity].
  exists company. split; [exact Hc|].
  cbn. unfold companyNameOf. rewrite Hname, orDefault_some_empty. reflexivity.
Qed.

Lemma carriesCompanyName_start companies :
  carriesCompanyName companies (startStore newURL companies).
Proof.
  intros r Hr. apply startStore_queue_seeds in Hr as (company & -> & Hc).
  split; [|left; reflexivity]. exists company. split; [exact Hc | reflexivity].
Qed.

Lemma crawlLoop_handled_queued budget handled st st' requests :
  crawlLoop newURL web budget handled st = (st', Normal requests) ->
  forall r, r ∈ requests -> r ∈ addedRequests st'.
Proof.
  revert handled st st' requests.
  induction budget as [|n IH]; intros handled st st' requests; simpl.
  - intros H. inversion H. intros r Hr. inversion Hr.
  - destruct (nextRequest handled st) as [request|] eqn:Hnext;
      [|intros H; inversion H; intros r Hr; inversion Hr].
    unfold bindH.
    pose proof (grows_processRequest newURL web request st (Enqueued request)
                  (nextRequest_queued _ _ _ Hnext)) as Hq.
    destruct (processRequest newURL web request st) as [st1 [[]|e]];
      [|intros H; inversion H].
    cbn [fst] in Hq.
    pose proof (grows_crawlLoop newURL web n (Request.url request :: handled) st1
                  (Enqueued request) Hq) as Hq2.
    destruct (crawlLoop newURL web n _ st1) as [st2 [rest|e]] eqn:Hrest;
      [|intros H; inversion H].
    intros H. inversion H; subst. intros r Hr.
    apply elem_of_cons in Hr as [-> | Hr]; [exact Hq2|].
    eapply IH; eassumption.
Qed.

End CompanyNames.

(** X14. When every company URL is an [http:] or [https:] URL,
    [findCompanyServices] returns, and every request that was queued,
    and so every request that was handled, carries as [companyName] the
    lower-cased name of one of the companies and is labelled [start] or
    [child]: the name set on the initial requests is passed on unchanged
    to every descendant. *)
Theorem company_name_is_inherited (newURL : string -> option URL)
    (web : string -> option Page) (companies : list Company.t) (st0 : Store) :
  (forall company, company ∈ companies ->
     isHttpUrl newURL (Company.url company) = true) ->
  exists st handled,
    findCompanyServices newURL web companies st0
    = (st, Normal (handled, results companies st))
    /\ carriesCompanyName companies st
    /\ forall r, r ∈ handled ->
         (exists company, company ∈ companies
            /\ companyNameOf r = toLowerCase (Company.name company))
         /\ (labelOf r = "start" \/ labelOf r = "child").
Proof.
  intros Hvalid.
  destruct (findCompanyServices_returns newURL web companies st0 Hvalid)
    as (st & handled & Hrun & Hloop).
  exists st, handled. split; [exact Hrun|].
  assert (Hinv : carriesCompanyName companies st).
  { pose proof (scheduler_crawlLoop newURL web
                  (lift (carriesCompanyName companies))
                  (lift_refl _) (lift_trans _)
                  (carriesCompanyName_handler newURL companies)
                  MAX_REQUESTS_PER_CRAWL [] (startStore newURL companies)
                  (carriesCompanyName_start newURL companies)) as H.
    rewrite Hloop in H. exact H. }
  split; [exact Hinv|].
  intros r Hr.
  destruct (Hinv r (crawlLoop_handled_queued newURL web _ _ _ _ _ Hloop r Hr))
    as [(company & Hc & Hname) Hlabel].
  split.
  - exists company. split; [exact Hc|].
    unfold companyNameOf. rewrite Hname. apply orDefault_some_empty.
  - unfold labelOf. destruct Hlabel as [-> | ->]; [left | right]; reflexivity.
Qed.

Lemma company_name_is_inherited_witness :
  exists st handled,
    findCompanyServices Whatwg.parse Acme.web [Acme.company] emptyStore
    = (st, Normal (handled, results [Acme.company] st))
    /\ carriesCompanyName [Acme.company] st
    /\ forall r, r ∈ handled ->
         (exists company, company ∈ [Acme.company]
            /\ companyNameOf r = toLowerCase (Company.name company))
         /\ (labelOf r = "start" \/ labelOf r = "child").
Proof.
  apply (company_name_is_inherited Whatwg.parse Acme.web [Acme.company]
           emptyStore).
  intros company Hc. apply list_elem_of_singleton in Hc as ->. reflexivity.
Defined.

(** X15. Handling a [child] request whose [parentUrl] has an entry in
    [startUrlChildren] leaves the request's URL in that entry, whether the
    handler then completes or throws. *)
Theorem child_is_registered_under_parent (newURL : string -> option URL)
    (request : Request.t) (page : Page) (st : Store) (parent : string) :
  labelOf request = "child" ->
  parentUrl (Request.userData request) = Some parent ->
  parent <> "" ->
  is_Some (startUrlChildren st !! parent) ->
  Request.url request
  ∈ orEmpty (startUrlChildren (fst (requestHandler newURL request page st))
             !! parent).
Proof.
  intros Hlabel Hparent Hne Hdef.
  unfold requestHandler, bindH at 1. rewrite originalDomainOf_run.
  unfold bindH at 1.
  destruct (ensureExplored_run (Request.url request) st) as (st1 & -> & X1 & _).
  assert (Hdef1 : holds (Defined StartUrlChildren parent) st1)
    by (apply X1; exact Hdef).
  unfold bindH at 1.
  assert (Htrack : exists st2,
             trackChild request st1 = (st2, Normal tt)
             /\ holds (Recorded StartUrlChildren parent (Request.url request)) st2).
  { unfold trackChild. rewrite Hparent, Hlabel.
    assert (Ht : truthy parent = true).
    { unfold truthy. apply String.eqb_neq in Hne. rewrite Hne. reflexivity. }
    rewrite Ht, String.eqb_refl. cbn [andb]. unfold bindH at 1, isDefined.
    rewrite bool_decide_eq_true_2 by exact Hdef1. cbv beta iota.
    destruct (pushIfAbsent_run StartUrlChildren parent (Request.url request)
                st1 Hdef1) as (st2 & E & _ & F).
    exists st2. split; [exact E | exact F]. }
  destruct Htrack as (st2 & -> & F2).
  apply (recorded_iff StartUrlChildren).
  match goal with
  | |- holds _ (fst (?m st2)) =>
      assert (Hg : respects extends m) by grows;
      apply (Hg st2)
  end.
  exact F2.
Qed.

Lemma child_is_registered_under_parent_witness :
  "https://acme-status.io/"
  ∈ orEmpty (startUrlChildren
               (fst (requestHandler Whatwg.parse Acme.statusRequest
                       Acme.statusPage Acme.freshStore))
             !! "https://acme.com").
Proof.
  apply (child_is_registered_under_parent Whatwg.parse Acme.statusRequest
           Acme.statusPage Acme.freshStore "https://acme.com");
    [reflexivity | reflexivity | discriminate | vm_compute; eauto].
Defined.

Section NothingEnqueued.

Variable newURL : string -> option URL.

Lemma queue_probe url label originalDomain companyName link :
  label <> "start" ->
  respects sameQueue (probe newURL url label originalDomain companyName link).
Proof.
  intros Hlabel. apply String.eqb_neq in Hlabel. unfold probe.
  rewrite Hlabel. queue.
Qed.

Lemma queue_crossLoop url originalDomain companyName links :
  (forall target, target ∈ links ->
     shouldExcludeUrl newURL target = Normal true
     \/ containsCompanyName companyName target = false) ->
  respects sameQueue
    (forEach links (processCrossDomain newURL url originalDomain companyName)).
Proof.
  intros Hall.
  apply (respects_forEach_elem sameQueue _ _ sameQueue_refl sameQueue_trans).
  intros target Hin st. unfold processCrossDomain, bindH, liftC.
  destruct (Hall target Hin) as [-> | Hname]; [reflexivity|].
  destruct (shouldExcludeUrl newURL target) as [[|]|e]; try reflexivity.
  rewrite Hname. reflexivity.
Qed.

End NothingEnqueued.

#[global] Hint Resolve queue_probe queue_crossLoop : queue.

(** X16. A request that is not labelled [start] adds nothing to the
    queue when every cross-domain anchor of its page is excluded or lacks
    the company name: probing records for such a request but never
    enqueues, and the same-hostname links are not looked at. *)
Theorem non_start_enqueues_no_probe_or_link (newURL : string -> option URL)
    (request : Request.t) (page : Page) (st : Store) :
  labelOf request <> "start" ->
  (forall target, target ∈ crossDomainLinks page ->
     shouldExcludeUrl newURL target = Normal true
     \/ containsCompanyName (companyNameOf request) target = false) ->
  addedRequests (fst (requestHandler newURL request page st)) = addedRequests st.
Proof.
  intros Hlabel Hall.
  rewrite (child_handler_without_enqueueLinks newURL request page Hlabel).
  revert st.
  change (respects sameQueue
            (originalDomain <-- originalDomainOf newURL request ;;
             ensureExplored (Request.url request) ;;;
             trackChild request ;;;
             forEach (potentialLinks page)
               (probe newURL (Request.url request) (labelOf request) originalDomain
                  (companyNameOf request)) ;;;
             forEach (crossDomainLinks page)
               (processCrossDomain newURL (Request.url request) originalDomain
                  (companyNameOf request)) ;;;
             ret tt)%handler).
  unfold originalDomainOf, ensureExplored, trackChild.
  repeat first
    [ solve [eauto with queue]
    | apply (respects_forEach sameQueue_refl sameQueue_trans); intro;
      solve [eauto with queue]
    | step_respects sameQueue_refl sameQueue_trans ].
Qed.

Lemma non_start_enqueues_no_probe_or_link_witness :
  addedRequests (fst (requestHandler Whatwg.parse Acme.toolsRequest Acme.toolsPage
                        Acme.freshStore))
  = addedRequests Acme.freshStore.
Proof.
  apply (non_start_enqueues_no_probe_or_link Whatwg.parse Acme.toolsRequest
           Acme.toolsPage Acme.freshStore).
  - discriminate.
  - intros target Hin. vm_compute in Hin. inversion Hin.
Defined.

(** ** What the handler collects from the page *)

Lemma hrefLinks_inv els link :
  link ∈ hrefLinks els ->
  link_type link = href
  /\ exists h, link_url link = Some h
               /\ hrefAttribute (elementHandle link) = Some h
               /\ navigableHref h = true.
Proof.
  unfold hrefLinks. intros Hin.
  apply list_elem_of_In, in_flat_map in Hin as (el & _ & Hin).
  destruct (hrefAttribute el) as [h|] eqn:Hattr; [|inversion Hin].
  destruct (navigableHref h) eqn:Hnav; [|inversion Hin].
  destruct Hin as [<- | []]. split; [reflexivity|]. exists h. auto.
Qed.

Lemma plainLinks_inv ty els link :
  link ∈ map (plainLink ty) els ->
  link_type link = ty /\ link_url link = None /\ elementHandle link ∈ els.
Proof.
  intros Hin. apply list_elem_of_fmap in Hin as (el & -> & Hel). auto.
Qed.

Lemma frameworkLinks_inv page link :
  link ∈ frameworkLinks page ->
  link_type link = framework_component /\ link_url link = None
  /\ lacksHref (elementHandle link) = true.
Proof.
  unfold frameworkLinks. intros Hin.
  apply list_elem_of_In, in_flat_map in Hin as (indicator & _ & Hin).
  apply list_elem_of_In, elem_of_app in Hin as [Hin | Hin];
    apply plainLinks_inv in Hin as (Hty & Hurl & Hel);
    apply list_elem_of_In, filter_In in Hel as [_ Hel]; auto.
Qed.

(** X17. Every entry of [potentialLinks] is either an [href] link, whose
    URL is the element's own [href] attribute and starts with none of
    [#], [javascript:] and [mailto:], or a clickable element without a
    URL; an element collected for its class or id has no [href]
    attribute. *)
Theorem potentialLinks_classified (page : Page) (link : PotentialLink) :
  link ∈ potentialLinks page ->
  (link_type link = href
   /\ exists h, link_url link = Some h
                /\ hrefAttribute (elementHandle link) = Some h
                /\ h <> ""
                /\ startsWith h "#" = false
                /\ startsWith h "javascript:" = false
                /\ startsWith h "mailto:" = false)
  \/ (link_type link <> href /\ link_url link = None
      /\ (link_type link = framework_component ->
          lacksHref (elementHandle link) = true)).
Proof.
  unfold potentialLinks. intros Hin. rewrite !elem_of_app in Hin.
  destruct Hin as [Hin | [Hin | [Hin | [Hin | [Hin | [Hin | Hin]]]]]].
  - left. apply hrefLinks_inv in Hin as (Hty & h & Hurl & Hattr & Hnav).
    split; [exact Hty|]. exists h. unfold navigableHref, truthy in Hnav.
    apply andb_true_iff in Hnav as [Hnav H4].
    apply andb_true_iff in Hnav as [Hnav H3].
    apply andb_true_iff in Hnav as [H1 H2].
    apply negb_true_iff in H1, H2, H3, H4. apply String.eqb_neq in H1. auto 10.
  - right. apply plainLinks_inv in Hin as (Hty & Hurl & _).
    rewrite Hty. repeat split; [discriminate | exact Hurl | discriminate].
  - right. apply plainLinks_inv in Hin as (Hty & Hurl & _).
    rewrite Hty. repeat split; [discriminate | exact Hurl | discriminate].
  - right. apply plainLinks_inv in Hin as (Hty & Hurl & _).
    rewrite Hty. repeat split; [discriminate | exact Hurl | discriminate].
  - right. apply plainLinks_inv in Hin as (Hty & Hurl & _).
    rewrite Hty. repeat split; [discriminate | exact Hurl | discriminate].
  - right. apply frameworkLinks_inv in Hin as (Hty & Hurl & Hlacks).
    rewrite Hty. repeat split; [discriminate | exact Hurl | auto].
  - right. apply plainLinks_inv in Hin as (Hty & Hurl & _).
    rewrite Hty. repeat split; [discriminate | exact Hurl | discriminate].
Qed.

Lemma potentialLinks_classified_witness :
  link_type (plainLink button_element (Acme.button (NewPage "https://tools.acme.com/")))
  <> href
  /\ link_url (plainLink button_element (Acme.button (NewPage "https://tools.acme.com/")))
     = None.
Proof.
  destruct (potentialLinks_classified Acme.homePage
              (plainLink button_element (Acme.button (NewPage "https://tools.acme.com/"))))
    as [[Hty _] | (Hty & Hurl & _)].
  - vm_compute. left.
  - discriminate Hty.
  - split; assumption.
Defined.

(** X18. An anchor whose URL contains the page's hostname anywhere, in
    its host, path or query, is never a cross-domain link, whatever host
    it points to; and on a page whose hostname is empty no anchor is. *)
Theorem crossDomainLinks_hostname_substring (page : Page) :
  (forall h, includes h (locationHostname page) = true ->
             h ∉ crossDomainLinks page)
  /\ (locationHostname page = "" -> crossDomainLinks page = []).
Proof.
  assert (Hfirst : forall h, includes h (locationHostname page) = true ->
                             h ∉ crossDomainLinks page).
  { intros h Hinc Hin. unfold crossDomainLinks in Hin.
    apply list_elem_of_In, filter_In in Hin as [_ Hin].
    rewrite Hinc, andb_false_r in Hin. discriminate. }
  split; [exact Hfirst|].
  intros Hempty. destruct (crossDomainLinks page) as [|h l]; [reflexivity|].
  exfalso. apply (Hfirst h).
  - rewrite Hempty. apply includes_empty.
  - left.
Qed.

Lemma crossDomainLinks_hostname_substring_witness :
  "https://acme.com/admin" ∉ crossDomainLinks Acme.homePage.
Proof.
  apply (crossDomainLinks_hostname_substring Acme.homePage). reflexivity.
Defined.

(** ** A run in which no page loads *)

Section NothingLoads.

Variable newURL : string -> option URL.
Variable web : string -> option Page.

Lemma allEmpty_initEntry reg key : respects (lift allEmpty) (initEntry reg key).
Proof.
  intros st Hinv reg' key' arr'. unfold initEntry. cbn [fst].
  rewrite getRegistry_setRegistry.
  destruct reg, reg'; try apply Hinv;
    (destruct (decide (key = key')) as [<-|Hne];
     [rewrite lookup_insert_eq; intros [= <-]; reflexivity
     |rewrite lookup_insert_ne by assumption; apply Hinv]).
Qed.

Lemma allEmpty_enqueue r : respects (lift allEmpty) (enqueue r).
Proof.
  intros st Hinv reg key arr H. apply (Hinv reg key arr).
  destruct reg; exact H.
Qed.

Lemma allEmpty_startStore companies : allEmpty (startStore newURL companies).
Proof.
  apply (startStore_lift newURL allEmpty companies allEmpty_enqueue).
  unfold initRegistries.
  apply (respects_forEach (lift_refl allEmpty) (lift_trans allEmpty)).
  - intros company. apply (respects_bind (lift_trans allEmpty)).
    + apply allEmpty_initEntry.
    + intros _. apply allEmpty_initEntry.
  - intros reg key arr. destruct reg; cbn; rewrite lookup_empty; discriminate.
Qed.

Lemma results_allEmpty companies st :
  allEmpty st -> results companies st = map emptyRecord companies.
Proof.
  intros Hinv. unfold results, emptyRecord. apply map_ext. intros company.
  assert (Hs : orEmpty (potentialDifferentServices st !! Company.url company) = []).
  { destruct (potentialDifferentServices st !! Company.url company) as [arr|] eqn:H;
      [exact (Hinv PotentialDifferentServices _ _ H) | reflexivity]. }
  assert (He : orEmpty (allExploredUrls st !! Company.url company) = []).
  { destruct (allExploredUrls st !! Company.url company) as [arr|] eqn:H;
      [exact (Hinv AllExploredUrls _ _ H) | reflexivity]. }
  rewrite Hs, He. reflexivity.
Qed.

Lemma crawlLoop_nothing_loads budget handled st :
  (forall r, r ∈ addedRequests st -> web (Request.url r) = None) ->
  fst (crawlLoop newURL web budget handled st) = st.
Proof.
  intros Hweb. revert handled. induction budget as [|n IH]; intros handled; simpl.
  - reflexivity.
  - destruct (nextRequest handled st) as [request|] eqn:Hnext; [|reflexivity].
    unfold bindH at 1, processRequest.
    rewrite (Hweb request (nextRequest_queued _ _ _ Hnext)).
    unfold ret at 1. cbv beta iota. unfold bindH.
    pose proof (IH (Request.url request :: handled)) as H.
    destruct (crawlLoop newURL web n (Request.url request :: handled) st)
      as [st1 [rest|e]]; exact H.
Qed.

End NothingLoads.

(** X19. When every company URL is an [http:] or [https:] URL and the
    page of no company loads, [findCompanyServices] leaves the registries
    as it initialised them and returns, for every company in order, the
    record with the company's URL and two empty lists. *)
Theorem unreachable_companies_give_empty_records
    (newURL : string -> option URL) (web : string -> option Page)
    (companies : list Company.t) (st0 : Store) :
  (forall company, company ∈ companies ->
     isHttpUrl newURL (Company.url company) = true) ->
  (forall company, company ∈ companies -> web (Company.url company) = None) ->
  exists handled,
    findCompanyServices newURL web companies st0
    = (startStore newURL companies, Normal (handled, map emptyRecord companies)).
Proof.
  intros Hvalid Hweb.
  destruct (findCompanyServices_returns newURL web companies st0 Hvalid)
    as (st & handled & Hrun & Hloop).
  assert (Hst : st = startStore newURL companies).
  { pose proof (crawlLoop_nothing_loads newURL web MAX_REQUESTS_PER_CRAWL []
                  (startStore newURL companies)) as H.
    rewrite Hloop in H. apply H. intros r Hr.
    apply startStore_queue_seeds in Hr as (company & -> & Hc).
    apply Hweb, Hc. }
  subst st. exists handled. rewrite Hrun.
  rewrite (results_allEmpty companies _ (allEmpty_startStore newURL companies)).
  reflexivity.
Qed.

Lemma unreachable_companies_give_empty_records_witness :
  exists handled,
    findCompanyServices Whatwg.parse (fun _ => None) [Acme.company] emptyStore
    = (startStore Whatwg.parse [Acme.company],
       Normal (handled, [Result.mk "https://acme.com" [] []])).
Proof.
  apply (unreachable_companies_give_empty_records Whatwg.parse (fun _ => None)
           [Acme.company] emptyStore).
  - intros company Hc. apply list_elem_of_singleton in Hc as ->. reflexivity.
  - intros company _. reflexivity.
Defined.

(** ** The decision of [transformRequestFunction] *)

Lemma different_hosts_are_different_services (newURL : string -> option URL)
    (originalUrl targetUrl : string) (o t : URL) :
  newURL originalUrl = Some o ->
  newURL targetUrl = Some t ->
  shouldExcludeUrl newURL targetUrl = Normal false ->
  String.eqb (hostname o) (hostname t) = false ->
  isPotentialDifferentService newURL originalUrl targetUrl = Normal true.
Proof.
  intros Ho Ht Hex Hhost. unfold isPotentialDifferentService.
  rewrite Hex. unfold bindC at 1, constructURL. rewrite Ho, Ht.
  cbn [bindC tryCatch]. rewrite Hhost. reflexivity.
Qed.

(** X22. For a page URL and a link that both parse, the transform of
    [enqueueLinks] keeps a link that is neither excluded nor the page's
    own URL exactly when [isPotentialDifferentService] says so, and the
    request it keeps is the [child] request of the page: the separate
    comparison of the two hostnames never changes the decision, since a
    link on another host is already a different service. *)
Theorem transform_keeps_exactly_different_services
    (newURL : string -> option URL)
    (url originalDomain companyName targetUrl : string) (o t : URL)
    (isDifferentService : bool) (st : Store) :
  newURL url = Some o ->
  newURL targetUrl = Some t ->
  is_Some (allExploredUrls st !! url) ->
  is_Some (potentialDifferentServices st !! url) ->
  shouldExcludeUrl newURL targetUrl = Normal false ->
  targetUrl <> url ->
  isPotentialDifferentService newURL url targetUrl = Normal isDifferentService ->
  snd (transformRequestFunction newURL url originalDomain companyName targetUrl st)
  = Normal (if isDifferentService
            then Some (childRequest url originalDomain companyName targetUrl)
            else None).
Proof.
  intros Ho Ht He Hp Hex Hne Hb.
  unfold transformRequestFunction, bindH at 1, liftC. rewrite Hex.
  apply String.eqb_neq in Hne. rewrite Hne. cbn [orb]. unfold bindH.
  assert (He' : holds (Defined AllExploredUrls url) st) by exact He.
  assert (Hp' : holds (Defined PotentialDifferentServices url) st) by exact Hp.
  run_push. rewrite Hb, !extractDomain_value, Ho, Ht. cbv beta iota.
  destruct (String.eqb (hostname o) (hostname t)) eqn:Hhost; cbn [negb].
  - rewrite orb_false_r. destruct isDifferentService; [|reflexivity].
    run_push. reflexivity.
  - rewrite (different_hosts_are_different_services newURL url targetUrl o t
               Ho Ht Hex Hhost) in Hb.
    injection Hb as <-. cbn [orb]. run_push. reflexivity.
Qed.

Lemma transform_keeps_exactly_different_services_witness :
  snd (transformRequestFunction Whatwg.parse "https://acme.com" "acme.com" "acme"
         "https://acme.com/about"
         (fst (ensureExplored "https://acme.com" Acme.freshStore)))
  = Normal None.
Proof.
  apply (transform_keeps_exactly_different_services Whatwg.parse
           "https://acme.com" "acme.com" "acme" "https://acme.com/about"
           (mkURL "https:" "acme.com" "/") (mkURL "https:" "acme.com" "/about")
           false);
    try reflexivity.
  - vm_compute. eexists. reflexivity.
  - vm_compute. eexists. reflexivity.
  - discriminate.
Defined.

(** ** Children are services *)

Create HintDb reported.

Section ChildrenAreServices.

Variable newURL : string -> option URL.
Variable request : Request.t.

Lemma gainsServices_refl st : gainsServices st st.
Proof. split; [auto|]. split; reflexivity. Qed.

Lemma gainsServices_trans st1 st2 st3 :
  gainsServices st1 st2 -> gainsServices st2 st3 -> gainsServices st1 st3.
Proof.
  intros (H1 & C1 & Q1) (H2 & C2 & Q2). split; [auto|].
  split; [rewrite C2, C1 | rewrite Q2, Q1]; reflexivity.
Qed.

Lemma gainsServices_whileQueued st st' :
  gainsServices st st' -> whileQueued request st -> whileQueued request st'.
Proof.
  intros (Hs & Hc & Hq) (Hreq & H1 & H2). split; [rewrite Hq; exact Hreq|].
  split.
  - intros r parent Hr Hp. rewrite Hq in Hr. apply Hs, (H1 r parent Hr Hp).
  - intros key x Hx. rewrite Hc in Hx. apply Hs, H2, Hx.
Qed.

Lemma gains_pushExplored key x :
  respects gainsServices (pushIfAbsent AllExploredUrls key x).
Proof.
  intros st. unfold pushIfAbsent, bindH, entryIncludes, entryPush.
  destruct (getRegistry AllExploredUrls st !! key) as [arr|] eqn:Harr;
    [|apply gainsServices_refl].
  destruct (arrayIncludes arr x); [apply gainsServices_refl|].
  rewrite Harr. split; [auto|]. split; reflexivity.
Qed.

Lemma gains_pushService key x :
  respects gainsServices (pushIfAbsent PotentialDifferentServices key x).
Proof.
  intros st. unfold pushIfAbsent, bindH, entryIncludes, entryPush.
  cbn [getRegistry].
  destruct (potentialDifferentServices st !! key) as [arr|] eqn:Harr;
    [|apply gainsServices_refl].
  destruct (arrayIncludes arr x); [apply gainsServices_refl|].
  cbn [getRegistry]. rewrite Harr.
  split; [|split; reflexivity].
  intros k y Hy. store_simpl. destruct (decide (key = k)) as [<-|Hne].
  - rewrite lookup_insert_eq. store_simpl. rewrite Harr in Hy.
    apply elem_of_app. left. exact Hy.
  - rewrite lookup_insert_ne by assumption. exact Hy.
Qed.

Lemma pushService_listed key x st st' :
  pushIfAbsent PotentialDifferentServices key x st = (st', Normal tt) ->
  x ∈ orEmpty (potentialDifferentServices st' !! key).
Proof.
  unfold pushIfAbsent, bindH, entryIncludes, entryPush. cbn [getRegistry].
  destruct (potentialDifferentServices st !! key) as [arr|] eqn:Harr;
    [|intros H; inversion H].
  destruct (arrayIncludes arr x) eqn:Hinc.
  - intros H. inversion H. subst st'. rewrite Harr.
    apply arrayIncludes_spec. exact Hinc.
  - cbn [getRegistry]. rewrite Harr. intros H. inversion H. store_simpl.
    rewrite lookup_insert_eq. store_simpl. apply elem_of_app. right. left.
Qed.

Lemma reported_pushExplored key x :
  respects (lift (whileQueued request)) (pushIfAbsent AllExploredUrls key x).
Proof. intros st. exact (gainsServices_whileQueued _ _ (gains_pushExplored key x st)). Qed.

Lemma reported_pushService key x :
  respects (lift (whileQueued request))
    (pushIfAbsent PotentialDifferentServices key x).
Proof. intros st. exact (gainsServices_whileQueued _ _ (gains_pushService key x st)). Qed.

Lemma reported_ensureExplored url :
  respects (lift (whileQueued request)) (ensureExplored url).
Proof.
  intros st H. unfold ensureExplored, bindH, isDefined. cbv beta iota.
  case_bool_decide; exact H.
Qed.

Lemma reported_block {A} url x (k : Handler A) :
  respects (lift (withService request url x)) k ->
  respects (lift (whileQueued request))
    (bindH (pushIfAbsent PotentialDifferentServices url x) (fun _ => k)).
Proof.
  intros Hk st Hinv. unfold bindH.
  pose proof (reported_pushService url x st Hinv) as H1.
  pose proof (pushService_listed url x st) as H2.
  destruct (pushIfAbsent PotentialDifferentServices url x st) as [st1 [[]|e]];
    cbn [fst] in *; [|exact H1].
  apply Hk. split; [exact H1|]. apply (H2 st1). reflexivity.
Qed.

Lemma reported_addChild url originalDomain companyName x :
  respects (lift (withService request url x))
    (enqueue (childRequest url originalDomain companyName x)).
Proof.
  intros st [(Hreq & H1 & H2) Hx]. unfold enqueue. cbn [fst].
  split; [|exact Hx]. split; [|split].
  - cbn [addedRequests]. apply elem_of_app. left. exact Hreq.
  - intros r parent Hr Hp. store_simpl.
    apply elem_of_app in Hr as [Hr | Hr]; [exact (H1 r parent Hr Hp)|].
    apply list_elem_of_singleton in Hr as ->.
    cbn in Hp. injection Hp as <-. exact Hx.
  - exact H2.
Qed.

Lemma reported_pushChild url x :
  respects (lift (withService request url x))
    (pushIfAbsent StartUrlChildren url x).
Proof.
  intros st [(Hreq & H1 & H2) Hx].
  unfold pushIfAbsent, bindH, entryIncludes, entryPush. cbn [getRegistry].
  destruct (startUrlChildren st !! url) as [arr|] eqn:Harr;
    [|split; [split; [|split]|]; assumption].
  destruct (arrayIncludes arr x);
    [split; [split; [|split]|]; assumption|].
  cbn [getRegistry]. rewrite Harr. store_simpl.
  split; [|exact Hx]. split; [exact Hreq|]. split; [exact H1|].
  intros key y Hy. store_simpl. destruct (decide (url = key)) as [<-|Hne].
  - rewrite lookup_insert_eq in Hy. store_simpl.
    apply elem_of_app in Hy as [Hy | Hy].
    + apply H2. rewrite Harr. exact Hy.
    + apply list_elem_of_singleton in Hy as ->. exact Hx.
  - rewrite lookup_insert_ne in Hy by assumption. apply H2, Hy.
Qed.

Lemma reported_trackChild :
  respects (lift (whileQueued request)) (trackChild request).
Proof.
  intros st (Hreq & H1 & H2). unfold trackChild.
  destruct (parentUrl (Request.userData request)) as [parent|] eqn:Hp;
    [|split; [|split]; assumption].
  destruct (String.eqb (labelOf request) "child" && truthy parent);
    [|split; [|split]; assumption].
  unfold bindH at 1, isDefined. cbv beta iota.
  case_bool_decide as Hdef; [|split; [|split]; assumption].
  pose proof (reported_pushChild parent (Request.url request) st) as H.
  destruct H as [H _]; [|exact H].
  split; [split; [|split]; assumption|]. exact (H1 request parent Hreq Hp).
Qed.

Lemma transform_listed url originalDomain companyName target st st' r :
  transformRequestFunction newURL url originalDomain companyName target st
  = (st', Normal (Some r)) ->
  r = childRequest url originalDomain companyName target
  /\ target ∈ orEmpty (potentialDifferentServices st' !! url).
Proof.
  unfold transformRequestFunction, bindH, liftC.
  rewrite shouldExcludeUrl_value.
  destruct (_ || String.eqb target url); [intros H; inversion H|].
  destruct (pushIfAbsent AllExploredUrls url target st) as [st1 [[]|e]];
    [|intros H; inversion H].
  destruct (isPotentialDifferentService_normal newURL url target) as [b ->].
  rewrite !extractDomain_value.
  destruct (b || _); [|intros H; inversion H].
  pose proof (pushService_listed url target st1) as Hl.
  destruct (pushIfAbsent PotentialDifferentServices url target st1)
    as [st2 [[]|e]]; [|intros H; inversion H].
  intros H. inversion H. subst. split; [reflexivity|]. apply Hl. reflexivity.
Qed.

Lemma gains_transform url originalDomain companyName target :
  respects gainsServices
    (transformRequestFunction newURL url originalDomain companyName target).
Proof.
  unfold transformRequestFunction.
  repeat first
    [ solve [auto using gains_pushExplored, gains_pushService]
    | step_respects gainsServices_refl gainsServices_trans ].
Qed.

Lemma mapFilter_listed url originalDomain companyName targets st st' requests :
  mapFilter targets
    (transformRequestFunction newURL url originalDomain companyName) st
  = (st', Normal requests) ->
  forall r, r ∈ requests ->
    exists target,
      r = childRequest url originalDomain companyName target
      /\ target ∈ orEmpty (potentialDifferentServices st' !! url).
Proof.
  revert st st' requests.
  induction targets as [|target targets IH]; intros st st' requests; cbn [mapFilter].
  - intros H. inversion H. intros r Hr. inversion Hr.
  - unfold bindH at 1.
    pose proof (transform_listed url originalDomain companyName target st) as Hfirst.
    destruct (transformRequestFunction newURL url originalDomain companyName
                target st) as [st1 [result|e]]; [|intros H; inversion H].
    unfold bindH.
    pose proof (respects_mapFilter gainsServices_refl gainsServices_trans targets
                  _ (gains_transform url originalDomain companyName) st1)
      as (Hgain & _ & _).
    specialize (IH st1).
    destruct (mapFilter targets _ st1) as [st2 [rest|e]];
      [|intros H; inversion H].
    cbn [fst] in Hgain. unfold ret. intros H. inversion H. subst st' requests.
    intros r Hr. destruct result as [first|].
    + apply elem_of_cons in Hr as [-> | Hr].
      * destruct (Hfirst st1 first eq_refl) as [-> Hin].
        exists target. split; [reflexivity|]. apply Hgain, Hin.
      * apply (IH st2 rest eq_refl r Hr).
    + apply (IH st2 rest eq_refl r Hr).
Qed.

Lemma reported_addAll url originalDomain companyName requests st :
  whileQueued request st ->
  (forall r, r ∈ requests ->
     exists target,
       r = childRequest url originalDomain companyName target
       /\ target ∈ orEmpty (potentialDifferentServices st !! url)) ->
  whileQueued request (fst (forEach requests enqueue st)).
Proof.
  revert st. induction requests as [|r rs IH]; intros st Hinv Hall; cbn [forEach].
  - exact Hinv.
  - unfold bindH, enqueue at 1. cbv beta iota.
    destruct (Hall r) as (target & -> & Hin); [left|].
    destruct (reported_addChild url originalDomain companyName target st)
      as [Hinv' _]; [split; assumption|].
    apply IH; [exact Hinv'|].
    intros r' Hr'. apply Hall. right. exact Hr'.
Qed.

Lemma reported_enqueueLinks page url originalDomain companyName :
  respects (lift (whileQueued request))
    (enqueueLinks newURL page
       (transformRequestFunction newURL url originalDomain companyName)).
Proof.
  intros st Hinv. unfold enqueueLinks, bindH.
  pose proof (respects_mapFilter gainsServices_refl gainsServices_trans
                (linkCandidates page) _
                (gains_transform url originalDomain companyName) st) as Hgain.
  pose proof (mapFilter_listed url originalDomain companyName
                (linkCandidates page) st) as Hlisted.
  destruct (mapFilter (linkCandidates page) _ st) as [st1 [requests|e]];
    cbn [fst] in *.
  - unfold addRequests. destruct (forallb _ _); cbn [fst];
      [|apply (gainsServices_whileQueued st); assumption].
    apply (reported_addAll url originalDomain companyName).
    + apply (gainsServices_whileQueued st); assumption.
    + intros r Hr. apply (Hlisted st1 requests eq_refl).
      apply list_elem_of_In, filter_In in Hr as [Hr _].
      apply list_elem_of_In. exact Hr.
  - apply (gainsServices_whileQueued st); assumption.
Qed.

Hint Resolve reported_pushExplored reported_pushService reported_ensureExplored
  reported_addChild reported_pushChild reported_trackChild
  reported_enqueueLinks : reported.

Lemma reported_requestHandler page :
  respects (lift (whileQueued request)) (requestHandler newURL request page).
Proof.
  unfold requestHandler, originalDomainOf, probe, processCrossDomain.
  repeat first
    [ apply reported_block | solve [eauto with reported] | step_lift ].
Qed.

End ChildrenAreServices.

Lemma childrenAreServices_handler (newURL : string -> option URL)
    request page st :
  request ∈ addedRequests st ->
  lift childrenAreServices st (fst (requestHandler newURL request page st)).
Proof.
  intros Hreq Hinv.
  apply (reported_requestHandler newURL request page st). split; assumption.
Qed.

Lemma childrenAreServices_start (newURL : string -> option URL) companies :
  childrenAreServices (startStore newURL companies).
Proof.
  split.
  - intros r parent Hr Hp.
    apply startStore_queue_seeds in Hr as (company & -> & _). discriminate Hp.
  - intros key x Hx.
    destruct (startUrlChildren (startStore newURL companies) !! key)
      as [arr|] eqn:Harr; [|inversion Hx].
    rewrite (allEmpty_startStore newURL companies StartUrlChildren key arr Harr)
      in Hx.
    inversion Hx.
Qed.

(** X23. When every company URL is an [http:] or [https:] URL,
    [findCompanyServices] returns, and every request that was handled on
    behalf of a parent has its URL listed in [potentialDifferentServices]
    of that parent, and every URL listed in [startUrlChildren] of a URL
    is listed in [potentialDifferentServices] of the same URL: the crawl
    visits, beside the seeds, only what it reports. *)
Theorem children_are_reported_services (newURL : string -> option URL)
    (web : string -> option Page) (companies : list Company.t) (st0 : Store) :
  (forall company, company ∈ companies ->
     isHttpUrl newURL (Company.url company) = true) ->
  exists st handled,
    findCompanyServices newURL web companies st0
    = (st, Normal (handled, results companies st))
    /\ (forall r parent,
          r ∈ handled ->
          parentUrl (Request.userData r) = Some parent ->
          Request.url r ∈ orEmpty (potentialDifferentServices st !! parent))
    /\ (forall key x,
          x ∈ orEmpty (startUrlChildren st !! key) ->
          x ∈ orEmpty (potentialDifferentServices st !! key)).
Proof.
  intros Hvalid.
  destruct (findCompanyServices_returns newURL web companies st0 Hvalid)
    as (st & handled & Hrun & Hloop).
  exists st, handled. split; [exact Hrun|].
  assert (Hinv : childrenAreServices st).
  { pose proof (scheduler_crawlLoop newURL web (lift childrenAreServices)
                  (lift_refl _) (lift_trans _)
                  (childrenAreServices_handler newURL)
                  MAX_REQUESTS_PER_CRAWL [] (startStore newURL companies)
                  (childrenAreServices_start newURL companies)) as H.
    rewrite Hloop in H. exact H. }
  destruct Hinv as [H1 H2]. split; [|exact H2].
  intros r parent Hr Hp.
  apply (H1 r parent
           (crawlLoop_handled_queued newURL web _ _ _ _ _ Hloop r Hr) Hp).
Qed.

Lemma children_are_reported_services_witness :
  exists st handled,
    findCompanyServices Whatwg.parse Acme.web [Acme.company] emptyStore
    = (st, Normal (handled, results [Acme.company] st))
    /\ (forall r parent,
          r ∈ handled ->
          parentUrl (Request.userData r) = Some parent ->
          Request.url r ∈ orEmpty (potentialDifferentServices st !! parent))
    /\ (forall key x,
          x ∈ orEmpty (startUrlChildren st !! key) ->
          x ∈ orEmpty (potentialDifferentServices st !! key)).
Proof.
  apply (children_are_reported_services Whatwg.parse Acme.web [Acme.company]
           emptyStore).
  intros company Hc. apply list_elem_of_singleton in Hc as ->. reflexivity.
Defined.

(** ** C3: a child request enqueues nothing *)

Create HintDb idle.

Section ChildRequests.

Variable newURL : string -> option URL.
Variable url : string.

Lemma idle_refl st : idleWhileUnregistered url st st.
Proof. intros _. auto. Qed.

Lemma idle_trans st1 st2 st3 :
  idleWhileUnregistered url st1 st2 -> idleWhileUnregistered url st2 st3 ->
  idleWhileUnregistered url st1 st3.
Proof.
  intros H12 H23 Hnone. destruct (H12 Hnone) as (S1 & C1 & Q1).
  destruct H23 as (S2 & C2 & Q2); [rewrite S1; exact Hnone|].
  rewrite S2, C2, Q2. auto.
Qed.

Lemma idle_entryPush_explored key x :
  respects (idleWhileUnregistered url) (entryPush AllExploredUrls key x).
Proof.
  intros st _. unfold entryPush.
  destruct (getRegistry AllExploredUrls st !! key); cbn; auto.
Qed.

(** Reading [potentialDifferentServices[url]] throws before anything is
    written. *)
Lemma idle_pushService x :
  respects (idleWhileUnregistered url)
    (pushIfAbsent PotentialDifferentServices url x).
Proof.
  intros st Hnone. unfold pushIfAbsent, bindH, entryIncludes.
  cbn [getRegistry]. rewrite Hnone. cbn [fst]. auto.
Qed.

(** What follows the read is never reached. *)
Lemma idle_block {A} x (k : Handler A) :
  respects (idleWhileUnregistered url)
    (bindH (pushIfAbsent PotentialDifferentServices url x) (fun _ => k)).
Proof.
  intros st Hnone. unfold bindH at 1, pushIfAbsent, bindH, entryIncludes.
  cbn [getRegistry]. rewrite Hnone. cbn [fst]. auto.
Qed.

Hint Resolve idle_entryPush_explored idle_pushService : idle.

Ltac idle :=
  repeat first
    [ apply idle_block
    | solve [eauto with idle]
    | step_respects idle_refl idle_trans ].

Lemma idle_probing label originalDomain companyName links :
  respects (idleWhileUnregistered url)
    (forEach links (probe newURL url label originalDomain companyName)).
Proof. unfold probe. idle. Qed.

Lemma idle_crossLoop originalDomain companyName links :
  respects (idleWhileUnregistered url)
    (forEach links (processCrossDomain newURL url originalDomain companyName)).
Proof. unfold processCrossDomain. idle. Qed.

Lemma sameServicesAndQueue_ensureExplored key st :
  sameServicesAndQueue st (fst (ensureExplored key st)).
Proof.
  unfold ensureExplored, bindH, isDefined. cbv beta iota.
  case_bool_decide; split; reflexivity.
Qed.

Lemma sameServicesAndQueue_trackChild request st :
  sameServicesAndQueue st (fst (trackChild request st)).
Proof.
  unfold trackChild.
  destruct (parentUrl (Request.userData request)) as [parent|];
    [|split; reflexivity].
  destruct (_ && _); [|split; reflexivity].
  unfold bindH at 1, isDefined. cbv beta iota.
  case_bool_decide; [|split; reflexivity].
  unfold pushIfAbsent, bindH, entryIncludes, entryPush. cbn [getRegistry].
  destruct (startUrlChildren st !! parent) as [arr|] eqn:Harr;
    [|split; reflexivity].
  destruct (arrayIncludes arr (Request.url request)); [split; reflexivity|].
  cbn [getRegistry]. rewrite Harr. split; reflexivity.
Qed.

End ChildRequests.

Section ReachableStates.

Variable newURL : string -> option URL.
Variable web : string -> option Page.

Lemma startStoreAfter_first companies :
  startStoreAfter newURL companies emptyStore = startStore newURL companies.
Proof. reflexivity. Qed.

Lemma startStoreAfter_queue companies queue :
  accepted newURL companies ->
  addedRequests (startStoreAfter newURL companies queue)
  = (addedRequests queue ++ map (seedRequestOf newURL) companies)%list.
Proof.
  intros Hvalid. unfold startStoreAfter. rewrite addRequests_value, seeds_accepted.
  assert (Hall : forallb (fun c => isHttpUrl newURL (Company.url c)) companies = true).
  { apply forallb_forall. intros c Hc. apply Hvalid, list_elem_of_In, Hc. }
  rewrite Hall. cbn [fst addedRequests].
  rewrite (queue_initRegistries companies (mkStore ∅ ∅ ∅ (addedRequests queue))).
  reflexivity.
Qed.

Lemma startStoreAfter_keys companies queue key :
  is_Some (potentialDifferentServices (startStoreAfter newURL companies queue) !! key)
  <-> isSeedUrl companies key.
Proof.
  unfold startStoreAfter. rewrite addRequests_value.
  set (reset := mkStore ∅ ∅ ∅ (addedRequests queue)).
  assert (E : potentialDifferentServices
                (fst (if forallb (fun r => isHttpUrl newURL (Request.url r))
                            (map (seedRequestOf newURL) companies)
                      then (mkStore
                              (potentialDifferentServices
                                 (fst (initRegistries companies reset)))
                              (allExploredUrls (fst (initRegistries companies reset)))
                              (startUrlChildren (fst (initRegistries companies reset)))
                              (addedRequests (fst (initRegistries companies reset))
                               ++ map (seedRequestOf newURL) companies)%list,
                            Normal tt)
                      else (fst (initRegistries companies reset),
                            Thrown ValidationError)))
              = potentialDifferentServices (fst (initRegistries companies reset))).
  { destruct (forallb _ _); reflexivity. }
  rewrite E.
  destruct (initRegistries_keys companies reset key) as [Hkeys _].
  cbv zeta in Hkeys. rewrite Hkeys. unfold reset.
  cbn [potentialDifferentServices]. rewrite lookup_empty.
  split; [intros [[x Hx] | H]; [discriminate Hx | exact H] | auto].
Qed.

(** A request whose URL was handled is passed over. *)
Lemma nextRequest_skips handled (old rest : list Request.t) :
  (forall r, r ∈ old -> Request.url r ∈ handled) ->
  List.find (fun r => negb (arrayIncludes handled (Request.url r))) (old ++ rest)
  = List.find (fun r => negb (arrayIncludes handled (Request.url r))) rest.
Proof.
  intros Hold. induction old as [|q old IH]; [reflexivity|].
  cbn [app find].
  assert (Hq : arrayIncludes handled (Request.url q) = true).
  { apply arrayIncludes_spec, Hold. left. }
  rewrite Hq. cbn [negb]. apply IH. intros r Hr. apply Hold. right. exact Hr.
Qed.

(** When no request is pending, the URL of every queued request was
    handled. *)
Lemma nextRequest_none handled st r :
  nextRequest handled st = None ->
  r ∈ addedRequests st -> Request.url r ∈ handled.
Proof.
  unfold nextRequest. intros Hnone Hr.
  apply list_elem_of_In in Hr.
  pose proof (find_none _ _ Hnone r Hr) as H.
  apply negb_false_iff in H. apply arrayIncludes_spec. exact H.
Qed.

(** The handled requests and the remaining budget add up to
    [maxRequestsPerCrawl]; while a crawl may still handle a request, its
    queue consists of requests handled before, then its initial requests,
    then what it added; and the keys of [potentialDifferentServices] are
    the seed URLs of the crawl. *)
Lemma reachable_invariant companies budget handled st :
  Reachable newURL web companies budget handled st ->
  (budget + List.length handled = MAX_REQUESTS_PER_CRAWL)%nat
  /\ (budget = O
      \/ exists old more,
           addedRequests st
           = (old ++ map (seedRequestOf newURL) companies ++ more)%list
           /\ forall r, r ∈ old -> Request.url r ∈ handled)
  /\ (forall key, is_Some (potentialDifferentServices st !! key)
                  <-> isSeedUrl companies key).
Proof.
  induction 1 as [ | companies budget handled st next _ (Hsum & Hq & Hkeys) Hover Hvalid
                   | companies budget handled st request _ (Hsum & Hq & Hkeys) Hnext ].
  - split; [reflexivity|]. split.
    + right. exists [], []. split; [reflexivity|]. intros r Hr. inversion Hr.
    + intros key. cbn [emptyStore potentialDifferentServices]. rewrite lookup_empty.
      split; [intros [x Hx]; discriminate Hx | intros (c & Hc & _); inversion Hc].
  - split; [lia|]. split.
    + destruct Hover as [-> | Hnone]; [left; lia|].
      right. exists (addedRequests st), []. split.
      * rewrite app_nil_r. apply startStoreAfter_queue, Hvalid.
      * intros r Hr. apply (nextRequest_none handled st r Hnone Hr).
    + intros key. apply startStoreAfter_keys.
  - pose proof (nextRequest_queued _ _ _ Hnext) as Hin.
    split; [cbn [List.length]; lia|]. split.
    + destruct Hq as [Hq | (old & more & Hq & Hold)]; [discriminate Hq|].
      right.
      destruct (scheduler_processRequest newURL web appendOnly appendOnly_refl
                  appendOnly_trans
                  (fun r page st0 _ => appendOnly_requestHandler newURL r page st0)
                  request st Hin) as [_ [more' Hq']].
      exists old, (more ++ more')%list. split.
      * rewrite Hq', Hq, <- !app_assoc. reflexivity.
      * intros r Hr. right. apply Hold, Hr.
    + intros key.
      destruct (scheduler_processRequest newURL web sameSeedKeys sameSeedKeys_refl
                  sameSeedKeys_trans
                  (fun r page st0 _ => seedkeys_requestHandler newURL r page st0)
                  request st Hin key) as [Hs _].
      rewrite Hs. apply Hkeys.
Qed.

(** The scheduler takes the first queued request whose URL it has not
    handled: when an initial request has the URL of the request taken,
    the request taken is an initial request. *)
Lemma nextRequest_first handled (old initial more : list Request.t) st request p :
  addedRequests st = (old ++ initial ++ more)%list ->
  (forall r, r ∈ old -> Request.url r ∈ handled) ->
  nextRequest handled st = Some request ->
  p ∈ initial -> Request.url p = Request.url request ->
  request ∈ initial.
Proof.
  unfold nextRequest. intros -> Hold Hfind Hp Hurl.
  rewrite (nextRequest_skips handled old _ Hold) in Hfind.
  induction initial as [|q initial IH]; [inversion Hp|].
  cbn [app find] in Hfind.
  destruct (negb (arrayIncludes handled (Request.url q))) eqn:Hq.
  - injection Hfind as <-. left.
  - right. apply elem_of_cons in Hp as [-> | Hp]; [|apply IH; assumption].
    apply find_some in Hfind as [_ Hfresh].
    rewrite Hurl, Hfresh in Hq. discriminate Hq.
Qed.

Lemma reachable_child_unregistered companies budget handled st request :
  Reachable newURL web companies (S budget) handled st ->
  nextRequest handled st = Some request ->
  labelOf request <> "start" ->
  potentialDifferentServices st !! Request.url request = None.
Proof.
  intros Hreach Hnext Hlabel.
  destruct (reachable_invariant _ _ _ _ Hreach)
    as (_ & [Hzero | (old & more & Hq & Hold)] & Hkeys); [discriminate Hzero|].
  apply eq_None_not_Some. intros Hsome.
  apply Hkeys in Hsome as (company & Hc & Hurl).
  assert (Hseed : request ∈ map (seedRequestOf newURL) companies).
  { apply (nextRequest_first handled old _ more st request
             (seedRequestOf newURL company) Hq Hold Hnext).
    - apply list_elem_of_fmap. exists company. split; [reflexivity | exact Hc].
    - exact Hurl. }
  apply list_elem_of_fmap in Hseed as (c & -> & _).
  apply Hlabel. reflexivity.
Qed.

(** The states of the scheduler's loop are states of the process, and the
    loop ends when the budget is used up or no request is pending. *)
Lemma crawlLoop_reachable companies budget handled st :
  Reachable newURL web companies budget handled st ->
  exists st' requests,
    crawlLoop newURL web budget handled st = (st', Normal requests)
    /\ let handled' := (rev (map Request.url requests) ++ handled)%list in
       let budget' := (budget - List.length requests)%nat in
       Reachable newURL web companies budget' handled' st'
       /\ (budget' = O \/ nextRequest handled' st' = None).
Proof.
  revert handled st. induction budget as [|n IH]; intros handled st Hreach.
  - exists st, []. split; [reflexivity|]. cbv zeta. cbn [map rev app List.length].
    split; [exact Hreach | left; reflexivity].
  - cbn [crawlLoop].
    destruct (nextRequest handled st) as [request|] eqn:Hnext.
    + unfold bindH at 1.
      pose proof (processRequest_completes newURL web request st) as Hdone.
      pose proof (reach_step newURL web companies n handled st request Hreach Hnext)
        as Hstep.
      destruct (processRequest newURL web request st) as [st1 c].
      cbn [fst snd] in *. subst c.
      destruct (IH _ _ Hstep) as (st' & rest & Hrun & Hreach' & Hover).
      unfold bindH at 1. rewrite Hrun. unfold ret.
      exists st', (request :: rest). split; [reflexivity|]. cbv zeta in *.
      cbn [map rev List.length]. rewrite <- app_assoc. cbn [app].
      replace (S n - S (List.length rest))%nat with (n - List.length rest)%nat by lia.
      split; assumption.
    + exists st, []. split; [reflexivity|]. cbv zeta. cbn [map rev app List.length].
      split; [exact Hreach | right; exact Hnext].
Qed.

(** A crawl of the loader starts where the one before it ended, and ends
    in a state from which the next one starts. *)
Lemma findCompanyServicesAfter_reachable companies budget handled st next :
  Reachable newURL web companies budget handled st ->
  budget = O \/ nextRequest handled st = None ->
  accepted newURL next ->
  exists st' requests,
    findCompanyServicesAfter newURL web handled next st
    = (st', Normal (requests, results next st'))
    /\ let handled' := (rev (map Request.url requests) ++ handled)%list in
       let budget' := (MAX_REQUESTS_PER_CRAWL - List.length handled
                       - List.length requests)%nat in
       Reachable newURL web next budget' handled' st'
       /\ (budget' = O \/ nextRequest handled' st' = None).
Proof.
  intros Hreach Hover Hvalid.
  destruct (crawlLoop_reachable next _ handled _
              (reach_crawl newURL web companies budget handled st next
                 Hreach Hover Hvalid))
    as (st' & requests & Hrun & Hend).
  exists st', requests. split; [|exact Hend].
  unfold findCompanyServicesAfter, crawlerRunAfter, bindH at 1.
  destruct (initRegistries_run next (mkStore ∅ ∅ ∅ (addedRequests st)))
    as (st1 & E1 & _).
  unfold startStoreAfter in Hrun. rewrite E1 in Hrun |- *. cbn [fst] in Hrun |- *.
  unfold bindH at 1. rewrite initialRequests_value.
  unfold bindH at 1 2. destruct (addRequests newURL _ st1) as [st2 [[]|e]] eqn:Eadd.
  - cbn [fst] in Hrun. rewrite Hrun. reflexivity.
  - exfalso. rewrite addRequests_value, seeds_accepted in Eadd.
    assert (Hall : forallb (fun c => isHttpUrl newURL (Company.url c)) next = true).
    { apply forallb_forall. intros c Hc. apply Hvalid, list_elem_of_In, Hc. }
    rewrite Hall in Eadd. discriminate Eadd.
Qed.

End ReachableStates.

Lemma unregistered_child_idle (newURL : string -> option URL)
    (request : Request.t) (page : Page) (st : Store) :
  labelOf request <> "start" ->
  potentialDifferentServices st !! Request.url request = None ->
  let tracked := fst (trackChild request
                        (fst (ensureExplored (Request.url request) st))) in
  let st' := fst (requestHandler newURL request page st) in
  addedRequests st' = addedRequests st
  /\ potentialDifferentServices st' = potentialDifferentServices st
  /\ startUrlChildren st' = startUrlChildren tracked.
Proof.
  intros Hlabel Hnone. cbv zeta.
  set (url := Request.url request) in *.
  pose proof (sameServicesAndQueue_ensureExplored url st) as [S1 Q1].
  destruct (ensureExplored_run url st) as (st1 & E1 & _).
  rewrite E1 in *. cbn [fst] in *.
  pose proof (sameServicesAndQueue_trackChild request st1) as [S2 Q2].
  destruct (trackChild_run request st1) as (st2 & E2 & _).
  rewrite E2 in *. cbn [fst] in *.
  set (rest := (forEach (potentialLinks page)
                  (probe newURL url (labelOf request)
                     (inheritedDomain newURL request) (companyNameOf request)) ;;;
                forEach (crossDomainLinks page)
                  (processCrossDomain newURL url (inheritedDomain newURL request)
                     (companyNameOf request)) ;;;
                ret tt)%handler).
  assert (Hrun : requestHandler newURL request page st = rest st2).
  { rewrite (child_handler_without_enqueueLinks newURL request page Hlabel).
    unfold bindH at 1. rewrite originalDomainOf_run.
    unfold bindH at 1. fold url. rewrite E1.
    unfold bindH at 1. rewrite E2. reflexivity. }
  assert (Hrest : respects (idleWhileUnregistered url) rest).
  { apply (respects_bind (idle_trans url)); [apply idle_probing|]. intros _.
    apply (respects_bind (idle_trans url)); [apply idle_crossLoop|]. intros _.
    apply (respects_ret (idle_refl url)). }
  destruct (Hrest st2) as (S3 & C3 & Q3); [rewrite S2, S1; exact Hnone|].
  rewrite Hrun, Q3, Q2, Q1, S3, S2, S1, C3. auto.
Qed.

(** C3.  In every state a process goes through, in its first crawl and
    in every later one, the request the scheduler takes next, when it is
    not labelled [start], has a URL without an entry in
    [potentialDifferentServices]: among the requests still pending the
    initial requests of the crawl come first, and no URL is handled
    twice.  On every such store,
    also at a retry, the handler adds no request and records no service,
    and leaves [startUrlChildren] as the child tracking at its start made
    it: the cross-domain loop stops at the unset registry before it
    enqueues, and [enqueueLinks] is guarded by the label.  Only
    [allExploredUrls] grows. *)
Theorem child_requests_enqueue_nothing (newURL : string -> option URL)
    (web : string -> option Page) (companies : list Company.t) (budget : nat)
    (handled : list string) (st : Store) (request : Request.t) :
  Reachable newURL web companies (S budget) handled st ->
  nextRequest handled st = Some request ->
  labelOf request <> "start" ->
  let url := Request.url request in
  potentialDifferentServices st !! url = None
  /\ forall page st1,
       potentialDifferentServices st1 !! url = None ->
       let tracked := fst (trackChild request (fst (ensureExplored url st1))) in
       let st' := fst (requestHandler newURL request page st1) in
       addedRequests st' = addedRequests st1
       /\ potentialDifferentServices st' = potentialDifferentServices st1
       /\ startUrlChildren st' = startUrlChildren tracked.
Proof.
  intros Hreach Hnext Hlabel url. split.
  - apply (reachable_child_unregistered newURL web companies budget handled st
             request Hreach Hnext Hlabel).
  - intros page st1 Hnone.
    apply (unregistered_child_idle newURL request page st1 Hlabel Hnone).
Qed.

Lemma child_requests_enqueue_nothing_witness :
  let st := fst (processRequest Whatwg.parse Acme.web Acme.seedRequest
                   (startStore Whatwg.parse [Acme.company])) in
  let st' := fst (requestHandler Whatwg.parse Acme.toolsRequest Acme.toolsPage st) in
  nextRequest ["https://acme.com"] st = Some Acme.toolsRequest
  /\ potentialDifferentServices st !! "https://tools.acme.com/" = None
  /\ addedRequests st' = addedRequests st
  /\ potentialDifferentServices st' = potentialDifferentServices st.
Proof.
  assert (Hvalid : forall company, company ∈ [Acme.company] ->
             isHttpUrl Whatwg.parse (Company.url company) = true).
  { intros company Hc. apply list_elem_of_singleton in Hc as ->. reflexivity. }
  assert (Hfirst : nextRequest [] (startStore Whatwg.parse [Acme.company])
                   = Some Acme.seedRequest) by (vm_compute; reflexivity).
  assert (Hstart : Reachable Whatwg.parse Acme.web [Acme.company] 100%nat []
                     (startStore Whatwg.parse [Acme.company])).
  { exact (reach_crawl Whatwg.parse Acme.web [] MAX_REQUESTS_PER_CRAWL []
             emptyStore [Acme.company] (reach_idle Whatwg.parse Acme.web)
             (or_intror eq_refl) Hvalid). }
  pose proof (reach_step Whatwg.parse Acme.web [Acme.company] 99%nat [] _ _
                Hstart Hfirst) as Hreach.
  assert (Hnext : nextRequest ["https://acme.com"]
                    (fst (processRequest Whatwg.parse Acme.web Acme.seedRequest
                            (startStore Whatwg.parse [Acme.company])))
                  = Some Acme.toolsRequest) by (vm_compute; reflexivity).
  destruct (child_requests_enqueue_nothing Whatwg.parse Acme.web [Acme.company]
              98%nat _ _ Acme.toolsRequest Hreach Hnext) as [Hnone Hidle];
    [discriminate|].
  cbv zeta. split; [exact Hnext|]. split; [exact Hnone|].
  destruct (Hidle Acme.toolsPage _ Hnone) as (Hq & Hs & _). auto.
Defined.

(** ** The loader *)

Section LoaderProperties.

Variable newURL : string -> option URL.
Variable web : string -> option Page.

(** The store in which the crawl of one company starts, on the queue the
    earlier crawls left. *)
Lemma findCompanyServicesAfter_one handledBefore company queue :
  let url := Company.url company in
  let reset := mkStore (<[url := []]> ∅) ∅ (<[url := []]> ∅) (addedRequests queue) in
  let start := mkStore (<[url := []]> ∅) ∅ (<[url := []]> ∅)
                 (addedRequests queue ++ [seedRequestOf newURL company])%list in
  findCompanyServicesAfter newURL web handledBefore [company] queue
  = if isHttpUrl newURL url
    then (handled <-- crawlLoop newURL web
                        (MAX_REQUESTS_PER_CRAWL - List.length handledBefore)
                        handledBefore ;;
          fun st => (st, Normal (handled, results [company] st))) start
    else (reset, Thrown ValidationError).
Proof.
  intros url reset start.
  unfold findCompanyServicesAfter, crawlerRunAfter, bindH at 1.
  cbn [initRegistries forEach]. unfold bindH at 1 2 3, initEntry, ret.
  cbn [fst snd getRegistry setRegistry potentialDifferentServices allExploredUrls
       startUrlChildren addedRequests].
  unfold bindH at 1. rewrite initialRequests_value.
  unfold bindH at 1 2. rewrite addRequests_value.
  cbn [map forallb seedRequestOf Request.url andb].
  rewrite andb_true_r. fold url.
  destruct (isHttpUrl newURL url); reflexivity.
Qed.

Lemma findCompanyServicesAfter_returns handledBefore company queue :
  isHttpUrl newURL (Company.url company) = true ->
  exists st handled,
    findCompanyServicesAfter newURL web handledBefore [company] queue
    = (st, Normal (handled, results [company] st))
    /\ crawlLoop newURL web (MAX_REQUESTS_PER_CRAWL - List.length handledBefore)
         handledBefore
         (mkStore (<[Company.url company := []]> ∅) ∅
                  (<[Company.url company := []]> ∅)
                  (addedRequests queue ++ [seedRequestOf newURL company])%list)
       = (st, Normal handled).
Proof.
  intros Hvalid. rewrite findCompanyServicesAfter_one. cbv zeta.
  rewrite Hvalid. unfold bindH.
  match goal with |- context [crawlLoop ?p ?w ?b ?h ?s] =>
    destruct (crawlLoop_completes p w b h s) as [handled Hh];
    destruct (crawlLoop p w b h s) as [st c]
  end.
  cbn [snd] in Hh. subst c. exists st, handled. split; reflexivity.
Qed.

Lemma findCompanyServicesAfter_rejects handledBefore company queue :
  isHttpUrl newURL (Company.url company) = false ->
  snd (findCompanyServicesAfter newURL web handledBefore [company] queue)
  = Thrown ValidationError.
Proof.
  intros Hinvalid. rewrite findCompanyServicesAfter_one. cbv zeta.
  rewrite Hinvalid. reflexivity.
Qed.

(** The first crawl of a process is [findCompanyServices]. *)
Lemma findCompanyServicesAfter_first companies st0 :
  findCompanyServicesAfter newURL web [] companies emptyStore
  = findCompanyServices newURL web companies st0.
Proof. reflexivity. Qed.

Lemma crawlEach_records companies :
  (forall company, company ∈ companies ->
     isHttpUrl newURL (Company.url company) = true) ->
  forall handledBefore queue, exists records,
    crawlEach newURL web companies handledBefore queue = Normal (map Some records)
    /\ map Result.url records = map Company.url companies.
Proof.
  induction companies as [|c cs IH]; intros Hvalid handledBefore queue;
    cbn [crawlEach].
  - exists []. split; reflexivity.
  - destruct (findCompanyServicesAfter_returns handledBefore c queue)
      as (st & handled & Hrun & _).
    { apply Hvalid. left. }
    rewrite Hrun. cbn [bindC fst snd].
    destruct (IH (fun company Hc => Hvalid company (list_elem_of_further _ _ _ Hc))
                 (rev (map Request.url handled) ++ handledBefore)%list st)
      as (records & -> & Hurls).
    cbn [bindC results map firstRecord].
    eexists (_ :: records). split; [reflexivity|].
    cbn [map Result.url]. rewrite Hurls. reflexivity.
Qed.

Lemma crawlEach_rejects companies company :
  company ∈ companies ->
  isHttpUrl newURL (Company.url company) = false ->
  forall handledBefore queue,
    crawlEach newURL web companies handledBefore queue = Thrown ValidationError.
Proof.
  induction companies as [|c cs IH]; intros Hin Hinvalid handledBefore queue.
  - inversion Hin.
  - cbn [crawlEach].
    destruct (isHttpUrl newURL (Company.url c)) eqn:Hc.
    + destruct (findCompanyServicesAfter_returns handledBefore c queue Hc)
        as (st & handled & -> & _).
      cbn [bindC fst snd].
      apply elem_of_cons in Hin as [-> | Hin]; [congruence|].
      rewrite (IH Hin Hinvalid). reflexivity.
    + pose proof (findCompanyServicesAfter_rejects handledBefore c queue Hc) as Hr.
      destruct (findCompanyServicesAfter newURL web handledBefore [c] queue)
        as [st outcome].
      cbn [snd] in Hr. subst outcome. reflexivity.
Qed.

Lemma activeCompanies_urls entries :
  map Company.url (activeCompanies entries)
  = map Entry.website (List.filter isActive entries).
Proof. unfold activeCompanies. rewrite map_map. reflexivity. Qed.

Lemma activeCompanies_elem company entries :
  company ∈ activeCompanies entries ->
  exists entry, entry ∈ entries /\ isActive entry = true
                /\ Company.url company = Entry.website entry.
Proof.
  unfold activeCompanies. intros H.
  apply list_elem_of_fmap in H as (entry & -> & H).
  apply list_elem_of_In, filter_In in H as [H Ha].
  exists entry. split; [apply list_elem_of_In, H|]. split; [exact Ha | reflexivity].
Qed.

(** Handling a request leaves the services and the explored URLs of every
    other URL as they were. *)
Lemma attempt_elsewhere key retries request page st :
  Request.url request <> key ->
  potentialDifferentServices (fst (attempt newURL retries request page st)) !! key
  = potentialDifferentServices st !! key
  /\ allExploredUrls (fst (attempt newURL retries request page st)) !! key
     = allExploredUrls st !! key.
Proof.
  intros Hne. revert st. induction retries as [|n IH]; intros st; simpl;
    unfold tryCatchH;
    pose proof (services_requestHandler newURL request page st key
                  (not_eq_sym Hne)) as Hs;
    pose proof (frame_requestHandler newURL request page st key
                  (not_eq_sym Hne)) as He;
    destruct (requestHandler newURL request page st) as [st1 [[]|e]];
    cbn [fst] in *; try (split; assumption).
  destruct (IH st1) as [Hs' He']. split; congruence.
Qed.

(** A URL that was handled before is never handled again: its services and
    explored URLs stay as they are throughout the crawl. *)
Lemma crawlLoop_elsewhere key budget handled st :
  key ∈ handled ->
  potentialDifferentServices (fst (crawlLoop newURL web budget handled st)) !! key
  = potentialDifferentServices st !! key
  /\ allExploredUrls (fst (crawlLoop newURL web budget handled st)) !! key
     = allExploredUrls st !! key.
Proof.
  revert handled st. induction budget as [|n IH]; intros handled st Hkey; simpl.
  - split; reflexivity.
  - destruct (nextRequest handled st) as [request|] eqn:Hnext;
      [|split; reflexivity].
    assert (Hne : Request.url request <> key).
    { unfold nextRequest in Hnext. apply find_some in Hnext as [_ Hnew].
      intros Heq. apply negb_true_iff in Hnew. rewrite Heq in Hnew.
      apply arrayIncludes_spec in Hkey. congruence. }
    unfold bindH.
    assert (H1 : potentialDifferentServices
                   (fst (processRequest newURL web request st)) !! key
                 = potentialDifferentServices st !! key
                 /\ allExploredUrls (fst (processRequest newURL web request st)) !! key
                    = allExploredUrls st !! key).
    { unfold processRequest. destruct (web _);
        [apply attempt_elsewhere, Hne | split; reflexivity]. }
    pose proof (processRequest_completes newURL web request st) as Hdone.
    destruct (processRequest newURL web request st) as [st1 c].
    cbn [fst snd] in *. subst c.
    destruct (IH (Request.url request :: handled) st1) as [H2 H2'].
    { right. exact Hkey. }
    destruct (crawlLoop newURL web n _ st1) as [st2 [rest|e]];
      cbn [fst] in *; destruct H1 as [H1 H1']; unfold ret; cbn [fst];
      rewrite <- H1, <- H1'; split; assumption.
Qed.

End LoaderProperties.

(** X20. [loadAndProcessCompanies] on a shared request queue.  When the
    website of every entry whose status is not ['Inactive'] is an [http:]
    or [https:] URL, it returns exactly one record for every such entry,
    in the order of the entries, each with the entry's website as its URL;
    no position is [undefined].  When one of these websites is not such a
    URL, the crawler rejects it and the loader throws.  When reading the
    data throws, the same error is thrown again. *)
Theorem loader_one_record_per_active_entry (newURL : string -> option URL)
    (web : string -> option Page) :
  (forall entries,
     (forall entry, entry ∈ entries -> isActive entry = true ->
        isHttpUrl newURL (Entry.website entry) = true) ->
     exists records,
       loadAndProcessCompanies newURL web (Normal entries) = Normal (map Some records)
       /\ map Result.url records
          = map Entry.website (List.filter isActive entries))
  /\ (forall entries entry,
        entry ∈ entries -> isActive entry = true ->
        isHttpUrl newURL (Entry.website entry) = false ->
        loadAndProcessCompanies newURL web (Normal entries)
        = Thrown ValidationError)
  /\ forall error,
       loadAndProcessCompanies newURL web (Thrown error) = Thrown error.
Proof.
  split; [|split].
  - intros entries Hvalid.
    destruct (crawlEach_records newURL web (activeCompanies entries)) with
      (handledBefore := @nil string) (queue := emptyStore)
      as (records & Hrun & Hurls).
    { intros company Hc.
      apply activeCompanies_elem in Hc as (entry & Hin & Ha & ->). auto. }
    exists records. unfold loadAndProcessCompanies. cbn [bindC].
    rewrite Hrun. split; [reflexivity|].
    rewrite Hurls. apply activeCompanies_urls.
  - intros entries entry Hin Ha Hinvalid.
    unfold loadAndProcessCompanies. cbn [bindC].
    rewrite (crawlEach_rejects newURL web (activeCompanies entries)
               (Company.mk (Entry.name entry) (Entry.website entry))).
    + reflexivity.
    + unfold activeCompanies. apply list_elem_of_fmap. exists entry.
      split; [reflexivity|]. apply list_elem_of_In, filter_In.
      split; [apply list_elem_of_In, Hin | exact Ha].
    + exact Hinvalid.
  - intros error. reflexivity.
Qed.

(** X21. A company whose URL an earlier crawl of the same process has
    already handled is not crawled again: the request queue is shared, so
    the new start request is a duplicate, and the call returns the record
    with no service and no explored URL. *)
Theorem handled_company_gets_empty_record (newURL : string -> option URL)
    (web : string -> option Page) handledBefore company queue :
  isHttpUrl newURL (Company.url company) = true ->
  Company.url company ∈ handledBefore ->
  exists st handled,
    findCompanyServicesAfter newURL web handledBefore [company] queue
    = (st, Normal (handled, [emptyRecord company])).
Proof.
  intros Hvalid Hdone.
  destruct (findCompanyServicesAfter_returns newURL web handledBefore company queue
              Hvalid) as (st & handled & Hrun & Hloop).
  exists st, handled. rewrite Hrun. do 3 f_equal.
  destruct (crawlLoop_elsewhere newURL web (Company.url company)
              (MAX_REQUESTS_PER_CRAWL - List.length handledBefore) handledBefore
              (mkStore (<[Company.url company := []]> ∅) ∅
                       (<[Company.url company := []]> ∅)
                       (addedRequests queue ++ [seedRequestOf newURL company])%list)
              Hdone) as [Hs He].
  rewrite Hloop in Hs, He. cbn [fst potentialDifferentServices allExploredUrls] in Hs, He.
  rewrite lookup_insert_eq in Hs. rewrite lookup_empty in He.
  unfold results, emptyRecord. cbn [map]. rewrite Hs, He. reflexivity.
Qed.

Lemma loader_one_record_per_active_entry_witness :
  let entries := [Entry.mk "Acme" "https://acme.com" None;
                  Entry.mk "Old" "old.example" (Some "Inactive")] in
  exists records,
    loadAndProcessCompanies Whatwg.parse Acme.web (Normal entries)
    = Normal (map Some records)
    /\ map Result.url records = map Entry.website (List.filter isActive entries).
Proof.
  refine (proj1 (loader_one_record_per_active_entry Whatwg.parse Acme.web) _ _).
  intros entry Hin Hactive.
  apply elem_of_cons in Hin as [-> | Hin]; [reflexivity|].
  apply list_elem_of_singleton in Hin as ->. discriminate Hactive.
Defined.

Lemma handled_company_gets_empty_record_witness :
  exists st handled,
    findCompanyServicesAfter Whatwg.parse Acme.web ["https://acme.com"]
      [Acme.company] emptyStore
    = (st, Normal (handled, [emptyRecord Acme.company])).
Proof.
  apply (handled_company_gets_empty_record Whatwg.parse Acme.web
           ["https://acme.com"] Acme.company emptyStore).
  - reflexivity.
  - vm_compute. left.
Defined.

(** A company listed twice gets a full record, then an empty one. *)
Example company_listed_twice :
  let entry := Entry.mk "Acme" "https://acme.com" None in
  exists record,
    loadAndProcessCompanies Whatwg.parse Acme.web (Normal [entry; entry])
    = Normal [Some record; Some (emptyRecord Acme.company)]
    /\ Result.allExploredUrls record <> [].
Proof. eexists. split; [vm_compute; reflexivity | discriminate]. Qed.

(** X24. [findCompanyServices] returns its records exactly when every
    company URL is an [http:] or [https:] URL.  Otherwise [crawler.run]
    rejects the start requests: the call throws with the registries of the
    companies initialised, nothing queued and nothing handled. *)
Theorem run_returns_iff_company_urls_accepted (newURL : string -> option URL)
    (web : string -> option Page) companies st0 :
  ((forall company, company ∈ companies ->
      isHttpUrl newURL (Company.url company) = true)
   <-> exists st handled records,
         findCompanyServices newURL web companies st0
         = (st, Normal (handled, records)))
  /\ forall company,
       company ∈ companies ->
       isHttpUrl newURL (Company.url company) = false ->
       findCompanyServices newURL web companies st0
       = (fst (initRegistries companies emptyStore), Thrown ValidationError)
       /\ addedRequests (fst (initRegistries companies emptyStore)) = [].
Proof.
  split.
  - split.
    + intros Hvalid.
      destruct (findCompanyServices_returns newURL web companies st0 Hvalid)
        as (st & handled & Hrun & _).
      exists st, handled, (results companies st). exact Hrun.
    + intros (st & handled & records & Hrun) company Hin.
      destruct (isHttpUrl newURL (Company.url company)) eqn:Hc; [reflexivity|].
      rewrite (findCompanyServices_rejects newURL web companies st0 company Hin Hc)
        in Hrun.
      discriminate Hrun.
  - intros company Hin Hc. split.
    + apply (findCompanyServices_rejects newURL web companies st0 company Hin Hc).
    + exact (queue_initRegistries companies emptyStore).
Qed.

Lemma run_returns_iff_company_urls_accepted_witness :
  findCompanyServices Whatwg.parse Acme.web [Company.mk "Acme" "acme.com"] emptyStore
  = (fst (initRegistries [Company.mk "Acme" "acme.com"] emptyStore),
     Thrown ValidationError)
  /\ addedRequests (fst (initRegistries [Company.mk "Acme" "acme.com"] emptyStore))
     = [].
Proof.
  refine (proj2 (run_returns_iff_company_urls_accepted Whatwg.parse Acme.web
                   [Company.mk "Acme" "acme.com"] emptyStore)
                (Company.mk "Acme" "acme.com") _ _).
  - left.
  - reflexivity.
Defined.
